(* ===== verification/_CoqProject ===== *)
-Q . S2P
Prelude.v
RateGate.v
MemGate.v
QueuePool.v
StackPool.v
RoundRobin.v
