(* ===== verification/Prelude.v ===== *)
(** * A verification development for node-concurrent-worker-tasks

    The repository ships a [WorkerPool] class that runs caller tasks on Node
    [worker_threads].  The sources hold several designs of it, each with
    the same admission gates:

    - [src/index.js] (the package entry; [src/unnamed/part_000] is the README
      followed by an older copy of the same file): a pool of idle workers
      kept as a stack.  [run] consults the module-global rate limiter
      [TaskManager] ([canExecuteTask]; status 429 is advisory), [runTask]
      rebuilds the pool when it is empty, takes a worker with
      [pool.shift()], checks memory pressure with [getMemPercent] (status
      503), and [executeWorker] posts the task and pushes the worker back
      when its reply arrives, if the pool has room.
    - [src/unnamed/part_001] lines 9-135: the queue design the spec
      describes: every worker item carries a [busy] flag, [run] appends to
      [taskQueue] and calls [assignTasks], the persistent [message] listener
      [handleWorkerResult] frees the worker, resolves the caller and drains
      the queue again.  The same file continues with a commented-out earlier
      design (lines 137-302), a round-robin pool (lines 305-497) and a
      third copy of the stack pool with an [entryTask] entry point (lines
      498-685).
    - [src/unnamed/part_001] lines 305-497: a round-robin pool.  Workers
      are never taken out of [pool]: [run] picks [pool[workerIndex]],
      registers one [once('message')] listener per task on it, and moves
      [workerIndex] on ([nextWorker]) once a worker has five listeners.

    ** Files and what they model

    - [Prelude] (this file): the notation scope [pool_scope], the generic
      event-system executor [exec] used by every pool model (an event is one
      Node macrotask together with the microtasks it queues: a caller's
      call, a worker's [online], [message] or [error] event,
      [process.on('exit')]), the invariant-by-trace lemmas
      ([exec_preserves], [preserved_all_reachable]), JS array helpers
      ([js_shift], [js_pop]), shared list lemmas and the [pool] hint
      databases.
    - [RateGate]: [TaskManager] of [src/index.js] (lines 8-36) as state
      passing over a clock value; the class [RateGate] states what a pool
      may use of it, and [StackPool] is proved against that class.
    - [MemGate]: [getMemPercent] of [src/index.js] (lines 4, 189-199) and
      of [part_000] (lines 307-317) with JavaScript's [toFixed(1)] rounding
      and the non-finite numbers a division by zero produces.
    - [QueuePool]: the queue design of [part_001] (lines 9-135): worker
      items with [busy], [taskQueue], [run] ([enqueue], then [assignTasks]
      inside the promise executor, whose throw [reject]s the call),
      [assignTasks] with the [DataCloneError] that [postMessage] throws on
      a task that cannot be cloned (a [Completion] of [Normal] or [Throw]),
      [handleWorkerResult] ([release], then [assignTasks], whose throw
      escapes the listener and ends the process: [uncaught]),
      [addWorkerToPool]/[buildPool] as an asynchronous loop, and
      [terminateAllWorkers].
    - [StackPool]: [WorkerPool] of [src/index.js] (lines 38-229) and the
      parts of the [part_000] copy that differ ([executeWorker] without
      [reject], [getMemPercent] with the literal 90), selected by the
      [version] field of the world: [run], [runTask] (its [while] loop
      [wait_pool], then [runTask_body]; [resume] is the code after the
      [await], whose [result.log]/[result.capacity] assignments throw a
      [TypeError] on a reply that is not an object), [buildPool],
      [executeWorker] with its two listeners, [createLog],
      [terminateExcessWorkers], [terminateAllWorkers] and the constructor;
      the third copy, in [part_001] (lines 498-685, entry point
      [entryTask]), is the version [Copy1]: no memory check, and the
      [executeWorker] of [part_000].
    - [RoundRobin]: the round-robin pool of [part_001] (lines 342-494):
      [run] (split at the pool check into [run_body]), [nextWorker],
      [checkMemCapacity], [executeWorker] with its [once] listener,
      [messageListener], the reply of a worker delivered to every listener
      registered on it ([message], Node's [emit]), [addWorkerToPool] with
      its [online] and [error] listeners, [buildPool] as an asynchronous
      loop, [terminateAllWorkers] and the constructor.  The world keeps
      the [run] calls suspended until their worker is online.

    In every pool model the worker threads are the environment: a thread
    answers each task posted to it once, may fail with [error] (and then
    exits), and is stopped by [terminate]; the environment's choices are the
    parameters of the events (clock, free memory, the reply and whether it
    is an object, whether a task can be cloned: every [Run] event of the
    three pools carries this flag).

    ** What is proved (groups)

    - rate gate: functional behaviour of [canExecuteTask] on all branches,
      minimum spacing of admitted calls, the bound on admissions in a time
      window, and the 100 ms default;
    - memory gate: exact characterisation of the 503 rejection and of the
      returned [capacity] flag, the divergences from the spec (percentages
      of the free memory at module load, a boolean not a percentage, the
      literal 90 of the old copy);
    - queue pool: the well-formedness invariant of every reachable state
      (pool never larger than [poolSize], a busy worker holds at most the
      one task posted to it, no double dispatch, [pool.find] always finds
      the answering worker), strict FIFO dispatch as a refinement of a list
      queue, conservation of submitted tasks (resolved, rejected, lost on
      a dead worker, or still pending), termination of the drain once
      workers reply when every queued task can be cloned, [terminateAllWorkers]
      is idempotent, and its failures: the [message] listener crashes the
      process exactly when the next queued task cannot be cloned, a [run]
      whose task cannot be cloned is rejected but leaves its worker busy
      for ever, tasks queued before the workers are online and the tasks of
      workers that fail are never resolved;
    - stack pool: the invariant of every reachable state (at most
      [poolSize] idle workers, no worker idle twice or both idle and busy,
      one listener per busy worker, posted tasks only on running busy
      threads), the statuses [run] can answer with (200 or 429 with a
      reply, 500 or 503 from its [catch]), the routing of each reply to the
      call that posted it (with 500 when the reply is a primitive or
      [null] in the [src/index.js] and [part_000] copies), the round trip
      of a worker through a task (taken
      with [shift], pushed back at the tail by its reply), the advisory
      429, and the defects: a 503 leaks the shifted worker, running
      threads grow without bound while the pool stays full, no worker is
      ever terminated ([minWorkers] is unset), the [while] loop of
      [runTask] ends after one round when [poolSize > 0] and never when
      [poolSize <= 0] (the event loop starves), worker ids repeat, and a
      worker error answers 500 in [src/index.js] but crashes the [part_000]
      and [entryTask] copies; in the [entryTask] copy no call is ever
      rejected (its [catch] is dead code);
    - round-robin pool: the invariant of every reachable state (every call
      is exactly once waiting, listening or settled; [workerIndex] points
      into the pool, so the [TypeError] of [pool[workerIndex]] never
      happens), the exact effect of a reply (every call listening on the
      worker resolves with it), the functional behaviour of [run] on a
      non-empty pool, [nextWorker] as increment modulo the pool length,
      termination of [terminateAllWorkers], [checkMemCapacity] a percentage
      in [0..100] whose value [run] never reads; and the defects: replies reach
      the wrong calls, tasks pile up on one worker, the pool grows past
      [poolSize] without bound, and a worker that fails after coming
      online leaves every call listening on it pending for ever, whatever
      events follow (Section [Hang]: a listener on a thread that is gone
      with nothing in flight stays so under every event, by induction on
      the run, with the bound that running threads are objects already
      allocated).

    ** Modelling choices, bounds and fuel

    - Task payloads, task ids and worker results are type variables of a
      Section; concrete runs instantiate them with numbers (for the stack
      pool, numbers tagged as objects or primitives, [JsReply]).  Small
      runs on concrete worlds are kept as [Example]s that document the
      defects; the properties quantify over every state or every
      reachable state.
    - A caller's promise is a number; a Worker object is a number allocated
      by [new Worker]; a settled promise records its value once.
    - Loops over [poolSize] are structural recursion on [Z.to_nat poolSize];
      the [while (this.pool.length === 0)] loop of [runTask] is
      [wait_pool] with fuel 1: from an empty pool one [buildPool] round
      either fills the pool or adds nothing, so every fuel gives the same
      answer (proved for all fuel), and running out is the loop that never
      returns;
      [terminateExcessWorkers] and [terminateAllWorkers] pop one worker per
      round and get [length pool + 1] (resp. [length pool]) rounds, enough
      to reach their exit; the asynchronous loops of [buildPool] are states
      of the world.
    - Not modelled: two calls issued within one macrotask (each [run] is its
      own macrotask), IEEE rounding of the memory ratio, console output and
      timing logs, [addNewWorkerToPool] (only reachable for a pool item
      without a Worker, which never exists), [deleteWorkerFromPool] of the
      round-robin pool (never called), the [TaskManager] copy of the
      round-robin file (lines 307-334, never used by its class), a
      [new Worker] that throws synchronously (the [catch] of
      [addWorkerToPool]; the model's threads always start), the
      commented-out design of [part_001] (lines 137-302), and the README.
*)

From stdpp Require Import base list options sets.
From Stdlib Require Import ZArith Lia.

Declare Scope pool_scope.
Delimit Scope pool_scope with pool.

Create HintDb pool discriminated.
Create Rewrite HintDb pool_rw.

(** ** Event systems

    A pool model is a deterministic handler [es_step] for each event and an
    enabledness test [es_enabled] saying which events the environment can
    deliver in a state (a worker only answers a task it was sent, and so on).
    [exec] runs a list of events and fails on a disabled one. *)

Class EventSystem (S E : Type) := {
  es_step : S -> E -> S;
  es_enabled : S -> E -> bool
}.

Section Exec.
Context {S E : Type} `{!EventSystem S E}.

Fixpoint exec (s : S) (es : list E) : option S :=
  match es with
  | [] => Some s
  | e :: es' => if es_enabled s e then exec (es_step s e) es' else None
  end.

Definition reachable (s0 s : S) : Prop := exists es, exec s0 es = Some s.

(** A property is preserved by the events satisfying [ok]. *)
Definition preserved (ok : E -> Prop) (P : S -> Prop) : Prop :=
  forall s e, P s -> es_enabled s e = true -> ok e -> P (es_step s e).

Lemma exec_app s es1 es2 :
  exec s (es1 ++ es2) = exec s es1 ≫= fun s1 => exec s1 es2.
Proof.
  revert s; induction es1 as [|e es1 IH]; intros s; simpl; [done|].
  destruct (es_enabled s e); [apply IH|done].
Qed.

Lemma exec_cons s e es :
  es_enabled s e = true -> exec s (e :: es) = exec (es_step s e) es.
Proof. intros H. simpl. by rewrite H. Qed.

Lemma exec_cons_inv s e es s' :
  exec s (e :: es) = Some s' ->
  es_enabled s e = true /\ exec (es_step s e) es = Some s'.
Proof. simpl. destruct (es_enabled s e); naive_solver. Qed.

Lemma exec_preserves (ok : E -> Prop) (P : S -> Prop) :
  preserved ok P ->
  forall es s s', Forall ok es -> P s -> exec s es = Some s' -> P s'.
Proof.
  intros Hpres es; induction es as [|e es IH]; intros s s' Hok HP Hex.
  - simpl in Hex. by simplify_eq.
  - apply exec_cons_inv in Hex as [Hen Hex]. apply Forall_cons in Hok as [Hok1 Hok].
    eapply IH; [done| |done]. by apply Hpres.
Qed.

Lemma reachable_trans s0 s1 s2 :
  reachable s0 s1 -> reachable s1 s2 -> reachable s0 s2.
Proof.
  intros [es1 H1] [es2 H2]. exists (es1 ++ es2). by rewrite exec_app, H1.
Qed.

Lemma preserved_all_reachable (P : S -> Prop) s0 s :
  preserved (fun _ => True) P -> P s0 -> reachable s0 s -> P s.
Proof.
  intros Hp H0 [es Hex]. eapply (exec_preserves (fun _ => True)); [done| |done|done].
  by apply Forall_true.
Qed.
End Exec.

Notation "s0 =[ es ]=> s" := (exec s0 es = Some s)
  (at level 70, es at level 60, format "s0  =[  es  ]=>  s") : pool_scope.

(** ** JavaScript arrays

    [a.shift()] removes the head, [a.pop()] the last element, [a.push(x)]
    appends; both removals return [undefined] on an empty array. *)

Definition js_shift {A} (l : list A) : option A * list A :=
  match l with
  | [] => (None, [])
  | x :: l' => (Some x, l')
  end.

Definition js_pop {A} (l : list A) : option A * list A :=
  match l with
  | [] => (None, [])
  | _ :: _ => (last l, removelast l)
  end.

Lemma js_shift_length {A} (l : list A) :
  length (js_shift l).2 = length l - 1.
Proof. destruct l; simpl; lia. Qed.

Lemma js_pop_length {A} (l : list A) :
  length (js_pop l).2 = length l - 1.
Proof.
  destruct l as [|x l]; [done|]. cbn [js_pop snd].
  rewrite removelast_firstn_len, length_take. simpl. lia.
Qed.

#[export] Hint Rewrite @js_shift_length @js_pop_length : pool_rw.

(** ** Shared list facts *)

(** Updating an element found by [list_find] keeps the length and puts the
    new element at the found index: the JS pattern
    [const o = a.find(p); o.f = v]. *)
Lemma list_find_insert_lookup {A} (P : A -> Prop) `{!forall x, Decision (P x)}
    (l : list A) i x y :
  list_find P l = Some (i, x) -> <[i := y]> l !! i = Some y.
Proof.
  intros [Hi _]%list_find_Some. apply list_lookup_insert_eq.
  by eapply lookup_lt_Some.
Qed.

Lemma Forall_insert_lookup {A} (Q : A -> Prop) (l : list A) i y :
  Forall Q l -> Q y -> Forall Q (<[i := y]> l).
Proof. intros Hl Hy. by apply Forall_insert. Qed.

#[export] Hint Resolve Forall_insert_lookup : pool.

Lemma map_insert {A B} (f : A -> B) (l : list A) i x :
  map f (<[i := x]> l) = <[i := f x]> (map f l).
Proof.
  revert i; induction l as [|a l IH]; intros [|i]; simpl; rewrite ?IH; done.
Qed.

(** A field that an in-place update does not change keeps its projection. *)
Lemma map_insert_same {A B} (f : A -> B) (l : list A) i x y :
  l !! i = Some y -> f x = f y -> map f (<[i := x]> l) = map f l.
Proof.
  revert i; induction l as [|a l IH]; intros [|i] Hi Hf; simpl in *; try done.
  - by simplify_eq; rewrite Hf.
  - by rewrite IH.
Qed.

(** Replacing the [i]-th element [y] by [x] in a list replaces the
    contribution [f y] by [f x] in [concat (map f l)], up to order. *)
Lemma concat_map_insert_perm {A B} (f : A -> list B) (l : list A) i x y :
  l !! i = Some y ->
  concat (map f (<[i := x]> l)) ++ f y ≡ₚ concat (map f l) ++ f x.
Proof.
  revert i; induction l as [|a l IH]; intros [|i] Hi; simpl in *; try done.
  - simplify_eq. rewrite <-!(assoc (++)).
    rewrite (Permutation_app_comm (f y)), <-(assoc (++)).
    rewrite (Permutation_app_comm (f x)), <-(assoc (++)).
    apply Permutation_app_head, Permutation_app_comm.
  - rewrite <-!(assoc (++)). apply Permutation_app_head. by apply IH.
Qed.

Lemma filter_concat_map {A B} (P : B -> Prop) `{!forall x, Decision (P x)}
    (f : A -> list B) (l : list A) :
  filter P (concat (map f l)) = concat (map (fun x => filter P (f x)) l).
Proof. induction l as [|a l IH]; simpl; [done|]. by rewrite filter_app, IH. Qed.

Lemma filter_all_false {A} (P : A -> Prop) `{!forall x, Decision (P x)} (l : list A) :
  Forall (fun x => ~ P x) l -> filter P l = [].
Proof.
  induction 1 as [|x l Hx _ IH]; simpl; [done|]. by rewrite filter_cons_False.
Qed.

Lemma filter_all_true {A} (P : A -> Prop) `{!forall x, Decision (P x)} (l : list A) :
  Forall P l -> filter P l = l.
Proof.
  induction 1 as [|x l Hx _ IH]; simpl; [done|]. by rewrite filter_cons_True, IH.
Qed.

(** Without duplicates, a list is a permutation of one of its elements
    followed by the others: [removeListener] of a registered listener. *)
Lemma filter_ne_perm {A} `{!EqDecision A} (ls : list A) x :
  NoDup ls -> x ∈ ls -> ls ≡ₚ x :: filter (fun y => y <> x) ls.
Proof.
  induction 1 as [|y ls Hy Hnd IH]; [set_solver|].
  intros [->|Hin]%elem_of_cons.
  - rewrite filter_cons_False by naive_solver.
    rewrite filter_all_true; [done|]. apply Forall_forall. set_solver.
  - rewrite filter_cons_True by set_solver. rewrite IH at 1 by done.
    apply perm_swap.
Qed.

(** With no two elements sharing a key, at most one element has a given
    key: the listeners an [emit] on one worker reaches. *)
Lemma filter_key_unique {A K} `{!EqDecision K} (f : A -> K) (ls : list A) (k : K) :
  NoDup (f <$> ls) ->
  filter (fun x => f x = k) ls = [] \/
  exists x, filter (fun x => f x = k) ls = [x] /\ x ∈ ls /\ f x = k.
Proof.
  induction ls as [|y ls IH]; intros Hnd; [by left|].
  apply NoDup_cons in Hnd as [Hy Hnd]. destruct (IH Hnd) as [H|(x & H & Hx & Hk)].
  - destruct (decide (f y = k)) as [Hk|Hk].
    + right. exists y. rewrite filter_cons_True, H by done. set_solver.
    + left. by rewrite filter_cons_False.
  - rewrite filter_cons_False.
    + right. exists x. set_solver.
    + intros Hk'. apply Hy. rewrite Hk', <-Hk. by apply list_elem_of_fmap_2.
Qed.

(** [a.pop()] leaves a sublist. *)
Lemma js_pop_sublist {A} (l : list A) o rest :
  js_pop l = (o, rest) -> rest `sublist_of` l.
Proof.
  intros H. destruct l as [|x l]; cbn [js_pop] in H; injection H as _ <-; [done|].
  rewrite removelast_firstn_len. simpl.
  destruct l; [apply sublist_nil_l|apply sublist_skip, sublist_take].
Qed.

(** [pop()] takes the last element off: what is left and what is taken
    make up the array again. *)
Lemma js_pop_Some {A} (l : list A) x rest :
  js_pop l = (Some x, rest) -> l = rest ++ [x].
Proof.
  intros H. destruct l as [|y l]; [done|].
  change (js_pop (y :: l)) with (last (y :: l), removelast (y :: l)) in H.
  destruct (last (y :: l)) as [z|] eqn:Hx; [|done].
  assert (Hr : removelast (y :: l) = rest) by congruence.
  assert (Hz : z = x) by congruence. subst z rest.
  apply last_Some in Hx as [l' Hl]. rewrite Hl, removelast_last. done.
Qed.

Lemma js_pop_None {A} (l : list A) rest : js_pop l = (None, rest) -> l = [].
Proof.
  destruct l as [|y l]; [done|].
  change (js_pop (y :: l)) with (last (y :: l), removelast (y :: l)). intros H. injection H as Hx _.
  destruct (last (y :: l)) eqn:E; [done|]. by apply last_None in E.
Qed.

Lemma Forall_filter_weaken {A} (P Q : A -> Prop) `{!forall x, Decision (Q x)} (l : list A) :
  Forall P l -> Forall P (filter Q l).
Proof. rewrite !Forall_forall. intros Hl x [_ Hx]%list_elem_of_filter. by apply Hl. Qed.

Lemma map_filter {A B} (f : A -> B) (P : B -> Prop) `{!forall x, Decision (P x)}
    (l : list A) :
  map f (filter (fun x => P (f x)) l) = filter P (map f l).
Proof.
  induction l as [|a l IH]; [done|]. simpl. rewrite !filter_cons.
  destruct (decide (P (f a))); simpl; by rewrite IH.
Qed.

(** Mapping a function that treats the element with key [g y] specially is
    mapping over the list where that element was replaced, when keys are
    unique: the JS pattern of [a.find(o => o.k === key)] followed by a
    mutation of the found object. *)
Lemma map_insert_unique {A B K} `{!EqDecision K} (g : A -> K) (f : A -> B)
    (l : list A) i x y :
  NoDup (map g l) -> l !! i = Some y ->
  map (fun z => if decide (g z = g y) then f x else f z) l = map f (<[i := x]> l).
Proof.
  revert i; induction l as [|a l IH]; intros [|i] Hnd Hi; simpl in *; try done;
    apply NoDup_cons in Hnd as [Hnin Hnd].
  - simplify_eq. rewrite decide_True by done. f_equal.
    apply map_ext_Forall, Forall_forall. intros z Hz.
    rewrite decide_False; [done|]. intros Heq. apply Hnin, list_elem_of_In.
    rewrite <-Heq. by apply in_map, list_elem_of_In.
  - assert (g a <> g y) as Hne.
    { intros Heq. apply Hnin, list_elem_of_In. rewrite Heq.
      apply in_map, list_elem_of_In. by eapply list_elem_of_lookup_2. }
    rewrite decide_False by done. by rewrite (IH i).
Qed.

Lemma lookup_map {A B} (f : A -> B) (l : list A) i : map f l !! i = f <$> l !! i.
Proof. revert i; induction l as [|a l IH]; intros [|i]; simpl; auto. Qed.

(** Unique keys: two elements of [l] with the same key are equal. *)
Lemma NoDup_map_elem_inj {A K} (g : A -> K) (l : list A) x y :
  NoDup (map g l) -> x ∈ l -> y ∈ l -> g x = g y -> x = y.
Proof.
  intros Hnd [i Hi]%list_elem_of_lookup [j Hj]%list_elem_of_lookup Hg.
  assert (map g l !! i = Some (g x)) as Hi' by (by rewrite lookup_map, Hi).
  assert (map g l !! j = Some (g x)) as Hj' by (by rewrite lookup_map, Hj, Hg).
  pose proof (NoDup_lookup _ _ _ _ Hnd Hi' Hj') as ->. congruence.
Qed.

Lemma elem_of_map_2 {A B} (f : A -> B) (l : list A) x : x ∈ l -> f x ∈ map f l.
Proof. intros Hx. apply list_elem_of_In, in_map, list_elem_of_In, Hx. Qed.

Lemma elem_of_concat_map {A B} (f : A -> list B) (l : list A) y :
  y ∈ concat (map f l) <-> exists x, x ∈ l /\ y ∈ f x.
Proof.
  rewrite list_elem_of_In, in_concat. split.
  - intros [l' [Hl Hy]]. apply in_map_iff in Hl as [x [<- Hx]].
    exists x. split; by apply list_elem_of_In.
  - intros [x [Hx Hy]]. exists (f x). split; [apply in_map|]; by apply list_elem_of_In.
Qed.

Ltac invc H := inversion H; subst; clear H.

(** Submultisets: the messages in flight are a submultiset of the promises
    held by live items. *)
Lemma submseteq_filter {A} (P : A -> Prop) `{!forall x, Decision (P x)} (l1 l2 : list A) :
  l1 ⊆+ l2 -> filter P l1 ⊆+ filter P l2.
Proof.
  intros [k Hk]%submseteq_Permutation. rewrite Hk, filter_app.
  by apply submseteq_inserts_r.
Qed.

Lemma submseteq_NoDup {A} (l1 l2 : list A) : l1 ⊆+ l2 -> NoDup l2 -> NoDup l1.
Proof.
  intros (l & Hsub & Hp)%submseteq_sublist_l Hnd. rewrite <-Hp in Hnd.
  by eapply sublist_NoDup.
Qed.

(** A property of the new element and of the elements an in-place update
    leaves holds of the updated list. *)
Lemma Forall_insert_other {A} (P : A -> Prop) (l : list A) i x :
  P x -> (forall j y, j <> i -> l !! j = Some y -> P y) -> Forall P (<[i := x]> l).
Proof.
  intros Hx Hl. apply Forall_lookup. intros j y Hj.
  apply list_lookup_insert_Some in Hj as [(<- & -> & _)|(Hne & Hj)]; [done|].
  by apply (Hl j).
Qed.

Lemma submseteq_map {A B} (f : A -> B) (l1 l2 : list A) : l1 ⊆+ l2 -> map f l1 ⊆+ map f l2.
Proof.
  intros [k Hk]%submseteq_Permutation. rewrite (Permutation_map f Hk), map_app.
  by apply submseteq_inserts_r.
Qed.
