(* ===== verification/RateGate.v ===== *)
(** * The submission-rate gate: [TaskManager] of [src/index.js]

    [TaskManager] (lines 8-33) remembers the clock value of the last admitted
    call; [canExecuteTask] admits a call when there was none before or when
    at least [idleThreshold] milliseconds passed since the last admitted one,
    and records the clock only when it admits.  [WorkerPool.run] turns a
    refusal into status 429 but runs the task anyway.  The module-global
    instance (line 36) is built with the default threshold 100.

    This file models the class as state passing over the clock value
    [Date.now()], proves its behaviour on every branch, the spacing of
    admitted calls whatever the clock does, and the resulting bound on
    admissions in a time window.  The class [RateGate] is the interface the
    pool model uses. *)

From stdpp Require Import base list.
From Stdlib Require Import ZArith Lia.
From S2P Require Import Prelude.

Open Scope Z_scope.

(** ** The interface the pool relies on

    A rate gate answers a clock value with a verdict and a new gate state;
    its law is that two admitted calls are at least [gate_gap] apart. *)
Class RateGate (G : Type) := {
  gate_check : Z -> G -> bool * G;
  gate_gap : G -> Z
}.

Module RateLimiter.

(** [class TaskManager { constructor(idleThreshold = 100) ... }]:
    [lastTaskTime] is [null] ([None]) until the first call. *)
Record TaskManager := mkTaskManager {
  lastTaskTime : option Z;
  idleThreshold : Z
}.

Definition new_TaskManager (idleThreshold : Z) : TaskManager :=
  {| lastTaskTime := None; idleThreshold := idleThreshold |}.

(** [const taskManager = new TaskManager();] *)
Definition taskManager : TaskManager := new_TaskManager 100.

(** [canExecuteTask()], with [now] the value of [Date.now()]. *)
Definition canExecuteTask (now : Z) (tm : TaskManager) : bool * TaskManager :=
  match lastTaskTime tm with
  | None => (true, {| lastTaskTime := Some now; idleThreshold := idleThreshold tm |})
  | Some last =>
      let timeSinceLastTask := now - last in
      let canExecute := idleThreshold tm <=? timeSinceLastTask in
      if canExecute
      then (true, {| lastTaskTime := Some now; idleThreshold := idleThreshold tm |})
      else (false, tm)
  end.

#[export] Instance TaskManager_gate : RateGate TaskManager := {
  gate_check := canExecuteTask;
  gate_gap := idleThreshold
}.

(** A sequence of calls at the clock values [ts]: the verdicts and the
    final state. *)
Fixpoint canExecuteTask_all (tm : TaskManager) (ts : list Z) : list bool * TaskManager :=
  match ts with
  | [] => ([], tm)
  | t :: ts' =>
      let '(b, tm1) := canExecuteTask t tm in
      let '(bs, tm2) := canExecuteTask_all tm1 ts' in
      (b :: bs, tm2)
  end.

(** The clock values at which calls were admitted. *)
Fixpoint admitted_times (tm : TaskManager) (ts : list Z) : list Z :=
  match ts with
  | [] => []
  | t :: ts' =>
      let '(b, tm1) := canExecuteTask t tm in
      if b then t :: admitted_times tm1 ts' else admitted_times tm1 ts'
  end.

(** [spaced th prev l]: every element of [l] is at least [th] after the
    previous one, the first one at least [th] after [prev] when given. *)
Fixpoint spaced (th : Z) (prev : option Z) (l : list Z) : Prop :=
  match l with
  | [] => True
  | t :: l' =>
      match prev with None => True | Some p => p + th <= t end /\ spaced th (Some t) l'
  end.

(** ** Behaviour of one call *)

Lemma canExecuteTask_threshold now tm :
  idleThreshold (canExecuteTask now tm).2 = idleThreshold tm.
Proof.
  unfold canExecuteTask. destruct (lastTaskTime tm); [|done].
  by destruct (_ <=? _).
Qed.

(** the verdict and the new state on every branch. *)
Lemma canExecuteTask_spec now tm :
  canExecuteTask now tm =
    if match lastTaskTime tm with
       | None => true
       | Some last => bool_decide (last + idleThreshold tm <= now)
       end
    then (true, {| lastTaskTime := Some now; idleThreshold := idleThreshold tm |})
    else (false, tm).
Proof.
  unfold canExecuteTask. destruct (lastTaskTime tm) as [last|]; [|done].
  destruct (Z.leb_spec (idleThreshold tm) (now - last));
    case_bool_decide; first [done | lia].
Qed.

Lemma canExecuteTask_true_state now tm tm' :
  canExecuteTask now tm = (true, tm') ->
  tm' = {| lastTaskTime := Some now; idleThreshold := idleThreshold tm |}.
Proof.
  rewrite canExecuteTask_spec.
  destruct (lastTaskTime tm); [case_bool_decide|]; naive_solver.
Qed.

Lemma canExecuteTask_true_gap now tm last tm' :
  lastTaskTime tm = Some last ->
  canExecuteTask now tm = (true, tm') -> last + idleThreshold tm <= now.
Proof.
  intros Hl. rewrite canExecuteTask_spec, Hl.
  case_bool_decide; naive_solver.
Qed.

Lemma canExecuteTask_false now tm tm' :
  canExecuteTask now tm = (false, tm') -> tm' = tm.
Proof.
  rewrite canExecuteTask_spec.
  destruct (lastTaskTime tm); [case_bool_decide|]; naive_solver.
Qed.

Lemma spaced_bound th p b l :
  0 < th -> spaced th (Some p) l -> Forall (fun t => t <= b) l ->
  Z.of_nat (length l) * th <= Z.max 0 (b - p).
Proof.
  intros Hth. revert p; induction l as [|t l IH]; intros p Hsp Hb; simpl.
  - lia.
  - destruct Hsp as [Hp Hsp]. apply Forall_cons in Hb as [Htb Hb].
    pose proof (IH t Hsp Hb). lia.
Qed.

Lemma admitted_times_cons t ts tm :
  admitted_times tm (t :: ts) =
    if (canExecuteTask t tm).1
    then t :: admitted_times (canExecuteTask t tm).2 ts
    else admitted_times (canExecuteTask t tm).2 ts.
Proof. simpl. by destruct (canExecuteTask t tm). Qed.

Lemma admitted_times_Forall (P : Z -> Prop) tm ts :
  Forall P ts -> Forall P (admitted_times tm ts).
Proof.
  revert tm; induction ts as [|t ts IH]; intros tm Hts; [done|].
  apply Forall_cons in Hts as [Ht Hts]. rewrite admitted_times_cons.
  destruct (canExecuteTask t tm).1; [constructor|]; auto.
Qed.

(** ** Sequences of calls *)

(** The admitted clock values are [spaced] by the threshold, starting
    from the recorded one. *)
Lemma admitted_times_spaced tm ts :
  spaced (idleThreshold tm) (lastTaskTime tm) (admitted_times tm ts).
Proof.
  revert tm; induction ts as [|t ts IH]; intros tm; [done|].
  rewrite admitted_times_cons.
  destruct (canExecuteTask t tm) as [b tm1] eqn:E; simpl.
  destruct b.
  - pose proof (canExecuteTask_true_state _ _ _ E) as ->. split.
    + destruct (lastTaskTime tm) eqn:Hl; [|done].
      by eapply canExecuteTask_true_gap.
    + apply (IH {| lastTaskTime := Some t; idleThreshold := idleThreshold tm |}).
  - pose proof (canExecuteTask_false _ _ _ E) as ->. apply IH.
Qed.

Lemma spaced_lookup th prev l i a b :
  spaced th prev l -> l !! i = Some a -> l !! S i = Some b -> a + th <= b.
Proof.
  revert prev i; induction l as [|x l IH]; intros prev [|i] Hsp Ha Hb; simpl in *;
    try done; destruct Hsp as [_ Hsp].
  - simplify_eq. destruct l; simpl in *; [done|]. simplify_eq. by destruct Hsp.
  - by eapply IH.
Qed.

(** C18: whatever the clock does (it may even go backwards), two
    consecutive admitted calls are at least [idleThreshold] apart, and the
    first admitted call is at least [idleThreshold] after the call recorded
    in the state. *)
Theorem admitted_calls_spaced tm ts :
  (forall i a b, admitted_times tm ts !! i = Some a -> admitted_times tm ts !! S i = Some b ->
                 a + idleThreshold tm <= b) /\
  (forall last a, lastTaskTime tm = Some last -> head (admitted_times tm ts) = Some a ->
                 last + idleThreshold tm <= a).
Proof.
  pose proof (admitted_times_spaced tm ts) as Hsp. split.
  - intros i a b. by apply spaced_lookup with (lastTaskTime tm).
  - intros last a Hl Ha. rewrite Hl in Hsp.
    destruct (admitted_times tm ts); simpl in *; [done|]. simplify_eq. by destruct Hsp.
Qed.

(** C19: admission bound: with a positive threshold and a fresh gate, the
    calls made at clock values in [[a, b]] are admitted at most
    [(b - a) / idleThreshold + 1] times. *)
Theorem admitted_window_bound tm ts a b :
  0 < idleThreshold tm -> lastTaskTime tm = None -> a <= b ->
  Forall (fun t => a <= t <= b) ts ->
  Z.of_nat (length (admitted_times tm ts)) * idleThreshold tm <= b - a + idleThreshold tm.
Proof.
  intros Hth Hnone Hab Hts.
  pose proof (admitted_times_spaced tm ts) as Hsp. rewrite Hnone in Hsp.
  pose proof (admitted_times_Forall _ tm ts Hts) as Hin.
  destruct (admitted_times tm ts) as [|t l]; simpl; [lia|].
  destruct Hsp as [_ Hsp]. apply Forall_cons in Hin as [Ht Hin].
  pose proof (spaced_bound (idleThreshold tm) t b l Hth Hsp
                (Forall_impl _ _ _ Hin (fun x Hx => proj2 Hx))). lia.
Qed.

(** C20: the state kept by [TaskManager] is the clock value of the last
    admitted call, or the initial one when no call was admitted. *)
Theorem lastTaskTime_is_last_admitted tm ts :
  lastTaskTime (canExecuteTask_all tm ts).2 =
    from_option Some (lastTaskTime tm) (last (admitted_times tm ts)) /\
  idleThreshold (canExecuteTask_all tm ts).2 = idleThreshold tm.
Proof.
  revert tm; induction ts as [|t ts IH]; intros tm; [done|].
  rewrite admitted_times_cons. simpl.
  destruct (canExecuteTask t tm) as [b tm1] eqn:E. simpl.
  destruct (canExecuteTask_all tm1 ts) as [bs tm2] eqn:E2. simpl.
  specialize (IH tm1). rewrite E2 in IH. simpl in IH. destruct IH as [IH1 IH2].
  destruct b.
  - pose proof (canExecuteTask_true_state _ _ _ E) as ->. simpl in *.
    split; [|done]. rewrite IH1. by destruct (admitted_times _ ts) using rev_ind;
      [|rewrite last_cons, last_snoc].
  - pose proof (canExecuteTask_false _ _ _ E) as ->. auto.
Qed.

(** The module-global gate is a 100 ms gate, not the "3 seconds" its
    comment announces: a call 100 ms after an admitted one is admitted, one
    99 ms after is not. *)
Example taskManager_default_gap :
  (canExecuteTask_all taskManager [0; 99; 100; 3000]).1 = [true; false; true; true].
Proof. reflexivity. Qed.

(** ** Witnesses *)

Lemma admitted_calls_spaced_witness :
  admitted_times taskManager [0; 99; 100; 250] = [0; 100; 250] /\
  ((forall i a b, admitted_times taskManager [0; 99; 100; 250] !! i = Some a ->
      admitted_times taskManager [0; 99; 100; 250] !! S i = Some b ->
      a + idleThreshold taskManager <= b) /\
   (forall last a, lastTaskTime taskManager = Some last ->
      head (admitted_times taskManager [0; 99; 100; 250]) = Some a ->
      last + idleThreshold taskManager <= a)).
Proof.
  split; [vm_compute; reflexivity|]. apply (admitted_calls_spaced taskManager [0; 99; 100; 250]).
Defined.

Lemma admitted_window_bound_witness :
  0 < idleThreshold taskManager /\ lastTaskTime taskManager = None /\ 0 <= 250 /\
  Forall (fun t => 0 <= t <= 250) [0; 50; 100; 150; 250] /\
  Z.of_nat (length (admitted_times taskManager [0; 50; 100; 150; 250])) *
    idleThreshold taskManager <= 250 - 0 + idleThreshold taskManager.
Proof.
  split; [vm_compute; reflexivity|]. split; [reflexivity|]. split; [lia|].
  split; [repeat constructor; lia|].
  apply admitted_window_bound; [vm_compute; reflexivity|reflexivity|lia|].
  repeat constructor; lia.
Defined.

End RateLimiter.
