(* ===== verification/MemGate.v ===== *)
(** * The memory-pressure gate: [getMemPercent] of [src/index.js]

    At module load [src/index.js] records [freeMemoryAvailable], the free
    memory in MB (line 4).  [getMemPercent] (lines 189-199) computes the
    share of that memory used since, as a string with one decimal
    ([toFixed(1)]), throws [CustomError(..., 503)] when it is above
    [memThreshold], and otherwise returns the boolean
    [memPercent < memThreshold].

    Both memory readings are divided by 1024 twice; the ratio does not
    depend on the unit, so the model takes them in bytes and computes the
    ratio exactly (IEEE rounding of the division is not modelled).  The
    string of [toFixed(1)] is compared with a number, so it is converted
    back: the model keeps its value in tenths, and keeps the three non-finite
    values ([Infinity], [-Infinity], [NaN]) a zero [freeMemoryAvailable]
    produces.  [toFixed] rounds half away from zero (ECMA-262: "if there are
    two such n, pick the larger n", applied to the absolute value). *)

From stdpp Require Import base list.
From Stdlib Require Import ZArith Lia String.
From S2P Require Import Prelude.

Open Scope Z_scope.

Module MemGate.

(** The numeric value of the string [x.toFixed(1)]. *)
Inductive JsNumber :=
| JFinite (tenths : Z)
| JPosInf
| JNegInf
| JNaN.

(** [require('./types/customError')]: a message and an HTTP status. *)
Record CustomError := mkCustomError { message : string; status : Z }.

(** [num / den] rounded to the nearest integer, ties upwards, for
    [0 <= num] and [0 < den]. *)
Definition round_half_up (num den : Z) : Z := (2 * num + den) / (2 * den).

(** [(num / den).toFixed(0)] for [0 < den], as an integer: the absolute
    value is rounded, then the sign is put back. *)
Definition toFixed_ratio (num den : Z) : Z :=
  if 0 <=? num then round_half_up num den else - round_half_up (- num) den.

(** [((memUsed / freeMemoryAvailable) * 100).toFixed(1)] in tenths, with
    [memUsed = freeMemoryAvailable - freeMemory]. *)
Definition memPercent (freeMemoryAvailable freeMemory : Z) : JsNumber :=
  let memUsed := freeMemoryAvailable - freeMemory in
  if freeMemoryAvailable =? 0 then
    if 0 <? memUsed then JPosInf else if memUsed <? 0 then JNegInf else JNaN
  else JFinite (toFixed_ratio (1000 * memUsed) freeMemoryAvailable).

(** [memPercent > memThreshold] and [memPercent < memThreshold], the
    string converted to a number; every comparison with [NaN] is false. *)
Definition js_gt (x : JsNumber) (th : Z) : bool :=
  match x with JFinite t => 10 * th <? t | JPosInf => true | _ => false end.

Definition js_lt (x : JsNumber) (th : Z) : bool :=
  match x with JFinite t => t <? 10 * th | JNegInf => true | _ => false end.

Definition capacity_error : CustomError :=
  mkCustomError "Server capacity is low. Please try again later." 503.

(** [getMemPercent()]: the thrown error on the left, the returned boolean
    on the right. *)
Definition getMemPercent (freeMemoryAvailable memThreshold freeMemory : Z)
    : CustomError + bool :=
  let p := memPercent freeMemoryAvailable freeMemory in
  if js_gt p memThreshold then inl capacity_error else inr (js_lt p memThreshold).

(** The copy of the file in [src/unnamed/part_000] (lines 307-317) compares
    with the literal 90 instead of [memThreshold] before throwing. *)
Definition getMemPercent_v0 (freeMemoryAvailable memThreshold freeMemory : Z)
    : CustomError + bool :=
  let p := memPercent freeMemoryAvailable freeMemory in
  if js_gt p 90 then inl capacity_error else inr (js_lt p memThreshold).

(** The gate the spec describes (section 4.1): the used share of the total
    memory, [(totalAvailable - currentlyFree) / totalAvailable], exceeds the
    threshold. *)
Definition spec_capacity_exceeded (totalAvailable currentlyFree th : Z) : bool :=
  th * totalAvailable <? 100 * (totalAvailable - currentlyFree).

(** ** Rounding *)

Lemma div_bounds n d :
  0 < d -> d * (n / d) <= n < d * (n / d) + d.
Proof.
  intros Hd. pose proof (Z.div_mod n d ltac:(lia)).
  pose proof (Z.mod_pos_bound n d Hd). lia.
Qed.

Lemma round_half_up_gt num den k :
  0 < den -> 0 <= num -> (k < round_half_up num den <-> (2 * k + 1) * den <= 2 * num).
Proof.
  intros Hd Hn. unfold round_half_up.
  pose proof (div_bounds (2 * num + den) (2 * den) ltac:(lia)).
  set (q := (2 * num + den) / (2 * den)) in *. split; intros Hk; nia.
Qed.

Lemma round_half_up_lt num den k :
  0 < den -> 0 <= num -> (round_half_up num den < k <-> 2 * num + den < 2 * k * den).
Proof.
  intros Hd Hn. unfold round_half_up.
  pose proof (div_bounds (2 * num + den) (2 * den) ltac:(lia)).
  set (q := (2 * num + den) / (2 * den)) in *. split; intros Hk; nia.
Qed.

Lemma round_half_up_nonneg num den :
  0 < den -> 0 <= num -> 0 <= round_half_up num den.
Proof. intros. unfold round_half_up. apply Z.div_pos; lia. Qed.

Lemma memPercent_finite f0 f :
  0 < f0 -> memPercent f0 f = JFinite (toFixed_ratio (1000 * (f0 - f)) f0).
Proof. intros H. unfold memPercent. destruct (Z.eqb_spec f0 0); [lia|done]. Qed.

(** Memory freed since module load gives a non-positive percentage. *)
Lemma toFixed_ratio_neg num den :
  0 < den -> num < 0 -> toFixed_ratio num den <= 0.
Proof.
  intros Hd Hn. unfold toFixed_ratio. destruct (Z.leb_spec 0 num); [lia|].
  pose proof (round_half_up_nonneg (- num) den Hd ltac:(lia)). lia.
Qed.

Lemma toFixed_ratio_nonneg num den :
  0 <= num -> toFixed_ratio num den = round_half_up num den.
Proof. intros Hn. unfold toFixed_ratio. by destruct (Z.leb_spec 0 num); [|lia]. Qed.

(** ** Behaviour of the gate *)

(** C13: when memory usage grew since module load ([freeMemory] at most
    [freeMemoryAvailable], which is positive), [getMemPercent] throws the
    503 error exactly when the used share is at least [memThreshold + 0.05]
    percent, returns [true] exactly when it is below
    [memThreshold - 0.05] percent, and returns [false] in between: the
    rounding of [toFixed(1)] decides the boundary cases. *)
Theorem getMemPercent_spec f0 th f :
  0 < f0 -> f <= f0 -> 0 <= th ->
  getMemPercent f0 th f =
    if bool_decide ((20 * th + 1) * f0 <= 2000 * (f0 - f)) then inl capacity_error
    else inr (bool_decide (2000 * (f0 - f) + f0 < 20 * th * f0)).
Proof.
  intros Hf0 Hf Hth. unfold getMemPercent, js_gt, js_lt.
  rewrite memPercent_finite, toFixed_ratio_nonneg by lia.
  pose proof (round_half_up_gt (1000 * (f0 - f)) f0 (10 * th) Hf0 ltac:(lia)).
  pose proof (round_half_up_lt (1000 * (f0 - f)) f0 (10 * th) Hf0 ltac:(lia)).
  set (n := round_half_up (1000 * (f0 - f)) f0) in *.
  destruct (Z.ltb_spec (10 * th) n), (Z.ltb_spec n (10 * th));
    repeat case_bool_decide; first [done | lia].
Qed.

(** C16: when memory was freed since module load, or when no memory was
    free at load, the gate never throws. *)
Theorem getMemPercent_no_reject_when_freed f0 th f :
  0 <= f0 -> 0 <= th -> 0 <= f -> (f0 < f \/ f0 = 0) ->
  exists b, getMemPercent f0 th f = inr b.
Proof.
  intros Hf0 Hth Hf Hcase. unfold getMemPercent, memPercent, js_gt.
  destruct (Z.eqb_spec f0 0).
  - subst. destruct (Z.ltb_spec 0 (0 - f)); [lia|].
    destruct (Z.ltb_spec (0 - f) 0); eauto.
  - pose proof (toFixed_ratio_neg (1000 * (f0 - f)) f0 ltac:(lia) ltac:(lia)).
    destruct (Z.ltb_spec (10 * th) (toFixed_ratio (1000 * (f0 - f)) f0)); [lia|eauto].
Qed.

(** C14: the gate is weaker than the spec's: whenever [getMemPercent]
    throws, the used share of the total memory exceeds the threshold, as
    the spec's gate requires ([freeMemoryAvailable] is at most the total
    memory); the converse fails (next claim). *)
Theorem getMemPercent_reject_implies_spec total f0 th f :
  0 < f0 <= total -> 0 <= f -> 0 <= th ->
  getMemPercent f0 th f = inl capacity_error ->
  spec_capacity_exceeded total f th = true.
Proof.
  intros Hf0 Hf Hth Hrej. unfold spec_capacity_exceeded. apply Z.ltb_lt.
  unfold getMemPercent, js_gt in Hrej. rewrite memPercent_finite in Hrej by lia.
  destruct (Z.ltb_spec (10 * th) (toFixed_ratio (1000 * (f0 - f)) f0)) as [Hgt|]; [|done].
  destruct (Z.le_gt_cases f f0) as [Hle|Hlt].
  - rewrite toFixed_ratio_nonneg in Hgt by lia.
    apply round_half_up_gt in Hgt; [|lia|lia].
    assert (100 * (total - f) * f0 >= 100 * (f0 - f) * total) by nia. nia.
  - pose proof (toFixed_ratio_neg (1000 * (f0 - f)) f0 ltac:(lia) ltac:(lia)). lia.
Qed.


(** C17: the copy in [part_000] compares with the literal 90 before
    throwing: whatever its [memThreshold], it throws exactly when the used
    share since load is at least 90.05 percent, the [toFixed(1)] rounding
    of 90.0; below that a usage above the threshold is admitted. *)
Theorem getMemPercent_v0_ignores_threshold f0 th f :
  0 < f0 -> f <= f0 ->
  (exists e, getMemPercent_v0 f0 th f = inl e) <-> 1801 * f0 <= 2000 * (f0 - f).
Proof.
  intros Hf0 Hf. unfold getMemPercent_v0, js_gt.
  rewrite memPercent_finite, toFixed_ratio_nonneg by lia.
  pose proof (round_half_up_gt (1000 * (f0 - f)) f0 (10 * 90) Hf0 ltac:(lia)) as Hgt.
  destruct (Z.ltb_spec (10 * 90) (round_half_up (1000 * (f0 - f)) f0)) as [H|H].
  - split; [intros _; lia|eauto].
  - split; [intros [e He]; discriminate|lia].
Qed.

(** ** Witnesses *)

Lemma getMemPercent_spec_witness :
  0 < 1000 /\ 95 <= 1000 /\ 0 <= 90 /\
  getMemPercent 1000 90 95 =
    if bool_decide ((20 * 90 + 1) * 1000 <= 2000 * (1000 - 95)) then inl capacity_error
    else inr (bool_decide (2000 * (1000 - 95) + 1000 < 20 * 90 * 1000)).
Proof.
  split_and!; try lia. apply getMemPercent_spec; lia.
Defined.

Lemma getMemPercent_no_reject_when_freed_witness :
  0 <= 100 /\ 0 <= 90 /\ 0 <= 150 /\ (100 < 150 \/ 100 = 0) /\
  exists b, getMemPercent 100 90 150 = inr b.
Proof.
  split_and!; try lia. apply getMemPercent_no_reject_when_freed; lia.
Defined.

Lemma getMemPercent_reject_implies_spec_witness :
  0 < 200 <= 1000 /\ 0 <= 10 /\ 0 <= 90 /\
  getMemPercent 200 90 10 = inl capacity_error /\
  spec_capacity_exceeded 1000 10 90 = true.
Proof.
  split_and!; try lia; [vm_compute; reflexivity|].
  apply (getMemPercent_reject_implies_spec 1000 200 90 10); [lia|lia|lia|].
  vm_compute. reflexivity.
Defined.


Lemma getMemPercent_v0_ignores_threshold_witness :
  0 < 100 /\ 40 <= 100 /\
  ((exists e, getMemPercent_v0 100 50 40 = inl e) <-> 1801 * 100 <= 2000 * (100 - 40)).
Proof.
  refine (conj _ (conj _ _)); [lia|lia|].
  apply getMemPercent_v0_ignores_threshold; lia.
Defined.

End MemGate.
