(* ===== verification/QueuePool.v ===== *)
(** * The queue pool: [WorkerPool] of [src/unnamed/part_001], lines 9-135

    The pool object ([this]) holds [poolSize], [returnLog], the worker items
    [pool] and the FIFO [taskQueue].  [run] (lines 39-44) appends a queue
    entry holding the caller's promise and calls [assignTasks]
    (lines 113-125), which gives the head of the queue to the first idle
    worker.  The [message] listener every worker gets at creation,
    [handleWorkerResult] (lines 80-110), clears [busy], resolves the promise
    recorded on the item and calls [assignTasks] again.  [buildPool]
    (lines 47-55) is an asynchronous loop that creates the workers one at a
    time, each pushed by its [online] listener ([addWorkerToPool],
    lines 58-77); [terminateAllWorkers] (lines 128-134) terminates the pool's
    workers and empties it.

    The model is a world: the pool object, the state of the [buildPool]
    loop, the worker threads (which are live, the messages posted to them and
    not yet answered) and the observable calls (submitted, dispatched and
    resolved promises).  One event is one macrotask: a call of [run], a
    worker's [online], [message] or [error] event, or a call of
    [terminateAllWorkers].  The worker threads behave as the README's
    [Worker.js]: one answer per posted message; a worker that fails (an
    [error] event) or is terminated never answers again, and a message posted
    to it is dropped.  [worker.postMessage] throws a [DataCloneError] when the
    task cannot be cloned (a function, a symbol, ...): in [run] the throw
    rejects the promise of the call, in [handleWorkerResult] it escapes the
    [message] listener and ends the process. *)

From stdpp Require Import base list options sets.
From Stdlib Require Import ZArith Lia.
From S2P Require Import Prelude.

Module QueuePool.
Section Model.
Context {Task TaskId Data : Type}.

(** ** Data *)

(** [{ id: workerId, worker: newWorker, busy: false }] and the fields
    [assignTasks] adds to it.  [wid] is the [n] of [`Worker-${n}`];
    [worker] is the Worker object; [wresolve] is the promise whose
    [resolve] is stored ([undefined] and [null] are [None]). *)
Record WorkerItem := mkWorkerItem {
  wid : nat;
  worker : nat;
  busy : bool;
  wresolve : option nat;
  startTime : option Z;
  wtaskId : option TaskId
}.

(** [{ task, taskId, resolve, reject }]: the promise is numbered;
    [qcloneable] says whether [{ task, taskId }] survives the structured
    clone of [postMessage] (a property of the task value). *)
Record QueueEntry := mkQueueEntry {
  qtask : Task;
  qtaskId : option TaskId;
  qpromise : nat;
  qcloneable : bool
}.

(** The pool object's fields read by the modelled methods. *)
Record WorkerPool := mkWorkerPool {
  poolSize : nat;
  returnLog : bool;
  pool : list WorkerItem;
  taskQueue : list QueueEntry
}.

(** [response.log = { workerId, messageListenerCount, taskId, executionTime }];
    [executionTime] is [NaN] ([None]) when no start time was recorded. *)
Record TaskLog := mkTaskLog {
  log_workerId : nat;
  messageListenerCount : nat;
  log_taskId : option TaskId;
  executionTime : option Z
}.

Record Response := mkResponse {
  result : Data;
  log : option TaskLog
}.

(** A message [{ task, taskId }] posted to a worker thread; [ppromise] is
    the promise it was dispatched for (ghost: not sent). *)
Record Posted := mkPosted {
  to_worker : nat;
  ptask : Task;
  ptaskId : option TaskId;
  ppromise : nat
}.

(** The worker threads: Worker objects created so far, the live ones and
    the messages in flight. *)
Record Threads := mkThreads {
  next_object : nat;
  live : list nat;
  inflight : list Posted
}.

(** The callers: promises handed out, in submission order, in dispatch
    order, resolved (with the response), rejected (by the executor of [run]
    when [assignTasks] throws), and lost with a terminated worker. *)
Record Calls := mkCalls {
  next_promise : nat;
  submitted : list nat;
  dispatched : list nat;
  resolved : list (nat * Response);
  rejected : list nat;
  dropped : list nat
}.

(** [building = Some (i, w, n)]: the [buildPool] loop is at iteration [i]
    awaiting the [online] event of Worker object [w], named [Worker-n]. *)
Record World := mkWorld {
  this : WorkerPool;
  building : option (nat * nat * nat);
  threads : Threads;
  calls : Calls;
  crashed : bool
}.

Inductive Event :=
| Run (now : Z) (task : Task) (taskId : option TaskId) (cloneable : bool)
| Online (w : nat)
| Message (now : Z) (w : nat) (r : Data)
| WorkerError (w : nat)
| TerminateAll.

(** How a JavaScript call ends: it returns, or it throws. *)
Inductive Completion := Normal | Throw.

(** ** Field updates *)

Definition set_pool (ps : list WorkerItem) (p : WorkerPool) : WorkerPool :=
  mkWorkerPool (poolSize p) (returnLog p) ps (taskQueue p).
Definition set_taskQueue (q : list QueueEntry) (p : WorkerPool) : WorkerPool :=
  mkWorkerPool (poolSize p) (returnLog p) (pool p) q.
Definition set_this (p : WorkerPool) (s : World) : World :=
  mkWorld p (building s) (threads s) (calls s) (crashed s).
Definition set_building (b : option (nat * nat * nat)) (s : World) : World :=
  mkWorld (this s) b (threads s) (calls s) (crashed s).
Definition set_threads (t : Threads) (s : World) : World :=
  mkWorld (this s) (building s) t (calls s) (crashed s).
Definition set_calls (c : Calls) (s : World) : World :=
  mkWorld (this s) (building s) (threads s) c (crashed s).
Definition crash (s : World) : World :=
  mkWorld (this s) (building s) (threads s) (calls s) true.

(** ** The worker threads *)

(** [worker.postMessage(m)]: a live worker receives the clone of [m], and
    [None] is the [DataCloneError] thrown when [m] cannot be cloned; on a
    worker that has exited the call returns at once (its port is gone). *)
Definition postMessage (m : Posted) (cloneable : bool) (t : Threads) : option Threads :=
  if decide (to_worker m ∈ live t) then
    if cloneable then Some (mkThreads (next_object t) (live t) (inflight t ++ [m])) else None
  else Some t.

(** The worker [w] takes its message off the channel to answer it. *)
Definition answer (w : nat) (t : Threads) : Threads :=
  mkThreads (next_object t) (live t) (filter (fun m => to_worker m ≠ w) (inflight t)).

(** [w] stops ([error] event or [worker.terminate()]). *)
Definition kill (w : nat) (t : Threads) : Threads :=
  mkThreads (next_object t) (filter (fun v => v ≠ w) (live t))
    (filter (fun m => to_worker m ≠ w) (inflight t)).

(** ** The pool's methods *)

(** [assignTasks()]: the item is updated and the queue shifted before
    [postMessage], so a throw leaves the item [busy] with the promise and
    nothing posted. *)
Definition assignTasks (now : Z) (s : World) : Completion * World :=
  match list_find (fun it => busy it = false) (pool (this s)) with
  | None => (Normal, s)
  | Some (i, it) =>
      match taskQueue (this s) with
      | [] => (Normal, s)
      | e :: q =>
          let it' := mkWorkerItem (wid it) (worker it) true (Some (qpromise e))
                       (Some now) (qtaskId e) in
          let c := calls s in
          let s1 :=
            mkWorld
              (mkWorkerPool (poolSize (this s)) (returnLog (this s))
                 (<[i := it']> (pool (this s))) q)
              (building s) (threads s)
              (mkCalls (next_promise c) (submitted c) (dispatched c ++ [qpromise e])
                 (resolved c) (rejected c) (dropped c))
              (crashed s) in
          match postMessage (mkPosted (worker it) (qtask e) (qtaskId e) (qpromise e))
                  (qcloneable e) (threads s) with
          | Some t => (Normal, set_threads t s1)
          | None => (Throw, s1)
          end
      end
  end.

(** The promise [p] is rejected. *)
Definition reject (p : nat) (s : World) : World :=
  let c := calls s in
  set_calls (mkCalls (next_promise c) (submitted c) (dispatched c) (resolved c)
               (rejected c ++ [p]) (dropped c)) s.

(** [new Promise(...)] and [this.taskQueue.push({ task, taskId, resolve,
    reject })]: a fresh promise is submitted and queued. *)
Definition enqueue (task : Task) (taskId : option TaskId) (cloneable : bool) (s : World) : World :=
  let c := calls s in
  let p := next_promise c in
  set_calls (mkCalls (S p) (submitted c ++ [p]) (dispatched c) (resolved c) (rejected c)
               (dropped c))
    (set_this (set_taskQueue (taskQueue (this s) ++ [mkQueueEntry task taskId p cloneable])
                 (this s)) s).

(** [run(task, taskId)]: the promise's executor runs at once; a throw of
    [assignTasks] inside it rejects the promise of this call. *)
Definition run (now : Z) (task : Task) (taskId : option TaskId) (cloneable : bool)
    (s : World) : World :=
  match assignTasks now (enqueue task taskId cloneable s) with
  | (Normal, s2) => s2
  | (Throw, s2) => reject (next_promise (calls s)) s2
  end.

(** The response [handleWorkerResult] builds for the item [it]. *)
Definition response (now : Z) (rl : bool) (it : WorkerItem) (r : Data) : Response :=
  mkResponse r
    (if rl then Some (mkTaskLog (wid it) 1 (wtaskId it) ((fun t => now - t)%Z <$> startTime it))
     else None).

(** Lines 82-107 of [handleWorkerResult] on the found [i]-th item [it]:
    [busy] is cleared, the recorded promise is resolved with the response,
    and [resolve] and [reject] are reset. *)
Definition release (now : Z) (r : Data) (i : nat) (it : WorkerItem) (s : World) : World :=
  let it' := mkWorkerItem (wid it) (worker it) false None (startTime it) (wtaskId it) in
  let c := calls s in
  match wresolve it with
  | Some p =>
      set_calls (mkCalls (next_promise c) (submitted c) (dispatched c)
                   (resolved c ++ [(p, response now (returnLog (this s)) it r)])
                   (rejected c) (dropped c))
        (set_this (set_pool (<[i := it']> (pool (this s))) (this s)) s)
  | None =>
      set_this (set_pool (<[i := it']> (pool (this s))) (this s)) s
  end.

(** A throw that escapes an event listener ends the process. *)
Definition uncaught (r : Completion * World) : World :=
  match r.1 with Normal => r.2 | Throw => crash r.2 end.

(** [handleWorkerResult(worker, result, workerId)]: [pool.find] returning
    [undefined] makes [workerItem.busy = false] throw, and a throw of the
    final [assignTasks()] escapes the listener; either crashes the
    process. *)
Definition handleWorkerResult (now : Z) (w : nat) (r : Data) (s : World) : World :=
  match list_find (fun it => worker it = w) (pool (this s)) with
  | None => crash s
  | Some (i, it) => uncaught (assignTasks now (release now r i it s))
  end.

(** The [buildPool] loop at iteration [i]: [addWorkerToPool()] creates a
    Worker named after the current pool length, or the loop ends. *)
Definition buildPool_from (i : nat) (s : World) : World :=
  if decide (i < poolSize (this s)) then
    let t := threads s in
    let w := next_object t in
    mkWorld (this s) (Some (i, w, S (length (pool (this s)))))
      (mkThreads (S w) (live t ++ [w]) (inflight t)) (calls s) (crashed s)
  else set_building None s.

(** The [online] listener of the awaited worker pushes it, then the loop
    resumes. *)
Definition online (w : nat) (s : World) : World :=
  match building s with
  | Some (i, v, n) =>
      if decide (v = w) then
        buildPool_from (S i)
          (set_this (set_pool (pool (this s) ++ [mkWorkerItem n w false None None None])
                       (this s)) s)
      else s
  | None => s
  end.

(** The promise an item holds ([workerItem.resolve]). *)
Definition held (it : WorkerItem) : list nat :=
  match wresolve it with Some p => [p] | None => [] end.

(** [terminateAllWorkers()]; the promises held by the terminated workers
    are never settled. *)
Definition terminateAllWorkers (s : World) : World :=
  let ps := pool (this s) in
  let c := calls s in
  mkWorld (set_pool [] (this s)) (building s)
    (foldr kill (threads s) (map worker ps))
    (mkCalls (next_promise c) (submitted c) (dispatched c) (resolved c) (rejected c)
       (dropped c ++ concat (map held ps)))
    (crashed s).

(** [new WorkerPool(poolSize, workerFilePath, returnLog)]. *)
Definition init (poolSize : nat) (returnLog : bool) : World :=
  buildPool_from 0
    (mkWorld (mkWorkerPool poolSize returnLog [] []) None (mkThreads 0 [] [])
       (mkCalls 0 [] [] [] [] []) false).

(** ** Events *)

Definition step (s : World) (e : Event) : World :=
  match e with
  | Run now task tid cl => run now task tid cl s
  | Online w => online w s
  | Message now w r => handleWorkerResult now w r (set_threads (answer w (threads s)) s)
  | WorkerError w => set_threads (kill w (threads s)) s
  | TerminateAll => terminateAllWorkers s
  end.

Definition enabled (s : World) (e : Event) : bool :=
  negb (crashed s) &&
  match e with
  | Run _ _ _ _ => true
  | Online w =>
      match building s with
      | Some (_, v, _) => bool_decide (v = w /\ w ∈ live (threads s))
      | None => false
      end
  | Message _ w _ => bool_decide (w ∈ map to_worker (inflight (threads s)))
  | WorkerError w => bool_decide (w ∈ live (threads s))
  | TerminateAll => true
  end.

#[global] Instance queue_system : EventSystem World Event := {
  es_step := step;
  es_enabled := enabled
}.

(** ** The well-formedness invariant *)

Definition has_task (it : WorkerItem) : bool :=
  match wresolve it with Some _ => true | None => false end.

(** The (worker, promise) pairs a live busy item is waiting for. *)
Definition held_live (t : Threads) (it : WorkerItem) : list (nat * nat) :=
  if decide (worker it ∈ live t) then map (pair (worker it)) (held it) else [].

(** The (worker, promise) pairs of the messages in flight. *)
Definition channel (t : Threads) : list (nat * nat) :=
  map (fun m => (to_worker m, ppromise m)) (inflight t).

(** [wf]: the pool never outgrows [poolSize] (counting the workers
    [buildPool] will still create); Worker objects in the pool are distinct
    and older than the next one; an item is [busy] exactly when it holds a
    promise; and the messages in flight are at most one per busy live item,
    carrying the promise the item holds (none when its [postMessage]
    threw). *)
Record wf (s : World) : Prop := {
  wf_bound :
    match building s with
    | Some (i, v, _) =>
        i < poolSize (this s) /\ length (pool (this s)) <= i /\
        v < next_object (threads s) /\ v ∉ map worker (pool (this s))
    | None => length (pool (this s)) <= poolSize (this s)
    end;
  wf_fresh : Forall (fun w => w < next_object (threads s)) (map worker (pool (this s)));
  wf_nodup : NoDup (map worker (pool (this s)));
  wf_busy : Forall (fun it => busy it = has_task it) (pool (this s));
  wf_channel : channel (threads s) ⊆+ concat (map (held_live (threads s)) (pool (this s)))
}.

(** ** Facts about the operations *)

Lemma held_live_live t t' : live t = live t' -> held_live t = held_live t'.
Proof. intros H. unfold held_live. by rewrite H. Qed.

Lemma held_live_nil t it : held it = [] -> held_live t it = [].
Proof. intros H. unfold held_live. rewrite H. by case_decide. Qed.

Lemma idle_item_held it :
  busy it = has_task it -> busy it = false -> held it = [] /\ wresolve it = None.
Proof. unfold has_task, held. intros H1 H2. destruct (wresolve it); split; congruence. Qed.

(** The found item and its properties under [wf]. *)
Lemma wf_lookup s i it :
  wf s -> pool (this s) !! i = Some it ->
  busy it = has_task it /\ worker it ∈ map worker (pool (this s)).
Proof.
  intros Hwf Hi. split; [exact (Forall_lookup_1 _ _ _ _ (wf_busy s Hwf) Hi)|].
  apply list_elem_of_In, in_map, list_elem_of_In. by eapply list_elem_of_lookup_2.
Qed.

(** The item [assignTasks] gives the head [e] of the queue to. *)
Definition dispatched_item (now : Z) (it : WorkerItem) (e : QueueEntry) : WorkerItem :=
  mkWorkerItem (wid it) (worker it) true (Some (qpromise e)) (Some now) (qtaskId e).

(** What [assignTasks] does: nothing, or it gives the head [e] of the queue
    to the first idle item [it]; the message is sent when the worker is
    live and [e] can be cloned, and the call throws when the worker is live
    and [e] cannot be cloned. *)
Lemma assignTasks_cases now s :
  assignTasks now s = (Normal, s) \/
  exists i it e q sent,
    list_find (fun it => busy it = false) (pool (this s)) = Some (i, it) /\
    taskQueue (this s) = e :: q /\
    (assignTasks now s).2 =
      mkWorld (mkWorkerPool (poolSize (this s)) (returnLog (this s))
                 (<[i := dispatched_item now it e]> (pool (this s))) q)
        (building s)
        (mkThreads (next_object (threads s)) (live (threads s)) (inflight (threads s) ++ sent))
        (mkCalls (next_promise (calls s)) (submitted (calls s))
           (dispatched (calls s) ++ [qpromise e]) (resolved (calls s)) (rejected (calls s))
           (dropped (calls s)))
        (crashed s) /\
    ((assignTasks now s).1 = Throw <-> worker it ∈ live (threads s) /\ qcloneable e = false) /\
    (sent = [] /\ (worker it ∈ live (threads s) -> qcloneable e = false) \/
     sent = [mkPosted (worker it) (qtask e) (qtaskId e) (qpromise e)] /\
       worker it ∈ live (threads s) /\ qcloneable e = true).
Proof.
  unfold assignTasks. destruct (list_find _ _) as [[i it]|] eqn:Hf; [|by left].
  destruct (taskQueue (this s)) as [|e q] eqn:Hq; [by left|]. right.
  exists i, it, e, q. unfold postMessage; simpl.
  destruct (threads s) as [no lv inf] eqn:Ht; simpl.
  case_decide as Hlive; [destruct (qcloneable e) eqn:Hc|].
  - exists [mkPosted (worker it) (qtask e) (qtaskId e) (qpromise e)].
    split_and!; try done; [split; [done|intros [_ ?]; congruence]|by right].
  - exists []. rewrite app_nil_r. split_and!; try done. by left.
  - exists []. rewrite app_nil_r. split_and!; try done; [split; [done|intros [? _]; done]|].
    left. split; [done|by intros ?].
Qed.

(** The pairs of the messages sent by [assignTasks] are those the new item
    holds while its worker is live. *)
Lemma sent_held_live now it e t sent :
  (sent = [] /\ (worker it ∈ live t -> qcloneable e = false) \/
   sent = [mkPosted (worker it) (qtask e) (qtaskId e) (qpromise e)] /\
     worker it ∈ live t /\ qcloneable e = true) ->
  map (fun m => (to_worker m, ppromise m)) sent ⊆+ held_live t (dispatched_item now it e).
Proof.
  intros [[-> _]|(-> & Hl & _)]; [apply submseteq_nil_l|].
  unfold held_live, held. simpl. by rewrite decide_True.
Qed.

Lemma assignTasks_wf now s : wf s -> wf (assignTasks now s).2.
Proof.
  intros Hwf.
  destruct (assignTasks_cases now s) as [->|(i & it & e & q & sent & Hf & Hq & -> & _ & Hsent)];
    [done|].
  apply list_find_Some in Hf as (Hi & Hidle & _).
  destruct (wf_lookup s i it Hwf Hi) as [Hb _].
  destruct (idle_item_held it Hb Hidle) as [Hheld _].
  assert (map worker (<[i:=dispatched_item now it e]> (pool (this s))) = map worker (pool (this s)))
    as Hmw by (by eapply map_insert_same).
  destruct Hwf as [Hbd Hfr Hnd Hbs Hch].
  constructor; simpl; rewrite ?Hmw, ?length_insert; try done.
  - by apply Forall_insert.
  - unfold channel in *. simpl. rewrite map_app.
    rewrite (held_live_live (mkThreads _ _ _) (threads s)) by done.
    pose proof (concat_map_insert_perm (held_live (threads s)) (pool (this s)) i
                  (dispatched_item now it e) it Hi) as Hp.
    rewrite held_live_nil, app_nil_r in Hp by done. rewrite Hp.
    apply submseteq_app; [done|]. by eapply sent_held_live.
Qed.

Lemma held_live_fst t it pr : pr ∈ held_live t it -> fst pr = worker it.
Proof.
  unfold held_live, held. case_decide; [|set_solver].
  destruct (wresolve it); simpl; [|set_solver].
  intros ->%list_elem_of_singleton. done.
Qed.

Lemma filter_held_live t w it :
  filter (fun pr => fst pr ≠ w) (held_live t it) =
    if decide (worker it = w) then [] else held_live t it.
Proof.
  case_decide as Hw.
  - apply filter_all_false, Forall_forall. intros pr Hpr%held_live_fst. congruence.
  - apply filter_all_true, Forall_forall. intros pr Hpr%held_live_fst. congruence.
Qed.

Lemma channel_answer w t :
  channel (answer w t) = filter (fun pr => fst pr ≠ w) (channel t).
Proof.
  unfold channel, answer; simpl.
  exact (map_filter (fun m => (to_worker m, ppromise m)) (fun pr => fst pr ≠ w) _).
Qed.

Lemma channel_kill w t :
  channel (kill w t) = filter (fun pr => fst pr ≠ w) (channel t).
Proof. apply (channel_answer w t). Qed.

Lemma held_live_kill w t it :
  held_live (kill w t) it = if decide (worker it = w) then [] else held_live t it.
Proof.
  unfold held_live, kill; simpl.
  destruct (decide (worker it = w)) as [Hw|Hw]; simpl.
  - case_decide as Hin; [|done]. by apply list_elem_of_filter in Hin as [? _].
  - assert (worker it ∈ filter (fun v => v ≠ w) (live t) <-> worker it ∈ live t) as Hiff
      by (rewrite list_elem_of_filter; split; [intros [_ ?]|intros ?; split]; done).
    by repeat case_decide; tauto.
Qed.

(** The channel after removing the messages of worker [w], when the item of
    [w] is the [i]-th and is replaced by an item [it'] holding nothing. *)
Lemma channel_filter_update t ps i it it' w :
  NoDup (map worker ps) -> ps !! i = Some it -> worker it = w ->
  held_live t it' = [] ->
  filter (fun pr => fst pr ≠ w) (concat (map (held_live t) ps)) =
    concat (map (held_live t) (<[i := it']> ps)).
Proof.
  intros Hnd Hi Hw Hnil. rewrite filter_concat_map. f_equal.
  rewrite <-(map_insert_unique worker (held_live t) ps i it' it Hnd Hi), Hnil, Hw.
  apply map_ext. intros z. apply filter_held_live.
Qed.

Lemma wf_set_calls c s : wf s -> wf (set_calls c s).
Proof. by destruct 1; constructor. Qed.

Lemma wf_crash s : wf s -> wf (crash s).
Proof. by destruct 1; constructor. Qed.

Lemma wf_set_taskQueue q s : wf s -> wf (set_this (set_taskQueue q (this s)) s).
Proof. by destruct 1; constructor. Qed.

(** An invariant that rejecting a promise keeps holds after [run] when it
    holds after [assignTasks]. *)
Lemma run_preserves (P : World -> Prop) now task tid cl s :
  (forall p x, P x -> P (reject p x)) ->
  P (assignTasks now (enqueue task tid cl s)).2 -> P (run now task tid cl s).
Proof. intros Hr H. unfold run. destruct (assignTasks _ _) as [[] ?]; simpl in *; auto. Qed.

Lemma run_wf now task tid cl s : wf s -> wf (run now task tid cl s).
Proof.
  intros Hwf. apply run_preserves; [intros; by apply wf_set_calls|].
  apply assignTasks_wf, wf_set_calls, wf_set_taskQueue, Hwf.
Qed.

(** An invariant that a crash keeps holds after a listener when it holds
    after its body. *)
Lemma uncaught_preserves (P : World -> Prop) r :
  (forall x, P x -> P (crash x)) -> P r.2 -> P (uncaught r).
Proof. unfold uncaught. destruct r.1; auto. Qed.

(** A message from [w] is enabled only when [w] holds a promise: the
    [pool.find] of [handleWorkerResult] succeeds. *)
Lemma message_finds_item s w :
  wf s -> w ∈ map to_worker (inflight (threads s)) ->
  exists i it p, list_find (fun it => worker it = w) (pool (this s)) = Some (i, it) /\
    wresolve it = Some p /\ w ∈ live (threads s).
Proof.
  intros Hwf Hw. apply list_elem_of_In, in_map_iff in Hw as [m [<- Hm]].
  assert ((to_worker m, ppromise m) ∈ concat (map (held_live (threads s)) (pool (this s))))
    as Hin.
  { eapply elem_of_submseteq; [|apply (wf_channel s Hwf)].
    apply list_elem_of_In, in_map_iff. eauto. }
  apply list_elem_of_In, in_concat in Hin as [l [Hl Hpr]].
  apply in_map_iff in Hl as [it0 [<- Hit0%list_elem_of_In]].
  pose proof (held_live_fst _ _ _ (proj2 (list_elem_of_In _ _) Hpr)) as Hfst.
  simpl in Hfst. unfold held_live, held in Hpr. case_decide as Hlive; [|done].
  destruct (wresolve it0) as [p|] eqn:Hres; [|done].
  destruct (list_find (fun it => worker it = to_worker m) (pool (this s)))
    as [[i it]|] eqn:Hf.
  - pose proof Hf as Hf'. apply list_find_Some in Hf' as (Hi & Hwi & _).
    assert (it = it0) as ->.
    { eapply NoDup_map_elem_inj; [apply (wf_nodup s Hwf)| |done|congruence].
      by eapply list_elem_of_lookup_2. }
    exists i, it0, p. split; [done|]. split; [done|]. by rewrite Hfst.
  - exfalso. apply list_find_None in Hf. rewrite Forall_forall in Hf. by apply (Hf it0).
Qed.

Lemma message_wf now w r s :
  wf s -> w ∈ map to_worker (inflight (threads s)) ->
  wf (step s (Message now w r)).
Proof.
  intros Hwf Hw. simpl.
  destruct (message_finds_item s w Hwf Hw) as (i & it & p & Hf & Hres & Hlive).
  unfold handleWorkerResult. simpl. rewrite Hf.
  apply uncaught_preserves; [apply wf_crash|]. apply assignTasks_wf. unfold release. rewrite Hres.
  apply list_find_Some in Hf as (Hi & Hwi & _).
  set (it' := mkWorkerItem (wid it) (worker it) false None (startTime it) (wtaskId it)).
  assert (map worker (<[i:=it']> (pool (this s))) = map worker (pool (this s))) as Hmw
    by (by eapply map_insert_same).
  destruct Hwf as [Hbd Hfr Hnd Hbs Hch].
  constructor; simpl; rewrite ?Hmw, ?length_insert; try done.
  - by apply Forall_insert.
  - rewrite channel_answer, (held_live_live (answer w (threads s)) (threads s)) by done.
    rewrite <-(channel_filter_update (threads s) (pool (this s)) i it it' w) by
      (done || by apply held_live_nil).
    by apply submseteq_filter.
Qed.

Lemma error_wf w s : wf s -> wf (step s (WorkerError w)).
Proof.
  intros Hwf. simpl. destruct Hwf as [Hbd Hfr Hnd Hbs Hch].
  constructor; simpl; try done.
  rewrite channel_kill.
  replace (concat (map (held_live (kill w (threads s))) (pool (this s))))
    with (filter (fun pr => fst pr ≠ w) (concat (map (held_live (threads s)) (pool (this s)))));
    [by apply submseteq_filter|].
  rewrite filter_concat_map. f_equal. apply map_ext. intros it.
  by rewrite filter_held_live, held_live_kill.
Qed.

Lemma foldr_kill_next_object t ws : next_object (foldr kill t ws) = next_object t.
Proof. induction ws as [|w ws IH]; simpl; auto. Qed.

Lemma channel_foldr_kill t ws :
  channel (foldr kill t ws) = filter (fun pr => fst pr ∉ ws) (channel t).
Proof.
  induction ws as [|w ws IH]; simpl.
  - symmetry. apply filter_all_true, Forall_forall. set_solver.
  - rewrite channel_kill, IH, list_filter_filter. apply list_filter_iff. set_solver.
Qed.

Lemma terminate_wf s : wf s -> wf (step s TerminateAll).
Proof.
  intros Hwf. simpl. destruct Hwf as [Hbd Hfr Hnd Hbs Hch].
  constructor; simpl; rewrite ?foldr_kill_next_object; try done; try by constructor.
  - destruct (building s) as [[[i v] n]|]; simpl in *; [|lia].
    split_and!; try lia; set_solver.
  - rewrite channel_foldr_kill, filter_all_false; [done|]. apply Forall_forall.
    intros pr Hpr. eapply elem_of_submseteq in Hpr; [|exact Hch].
    apply list_elem_of_In, in_concat in Hpr as [l [Hl Hpr]].
    apply in_map_iff in Hl as [it [<- Hit]].
    rewrite (held_live_fst _ _ _ (proj2 (list_elem_of_In _ _) Hpr)).
    intros []. apply elem_of_map_2, list_elem_of_In, Hit.
Qed.

(** The [buildPool] loop resumed at iteration [i] on a well-formed pool of
    at most [i] workers. *)
Lemma buildPool_from_wf i s :
  wf (set_building None s) -> length (pool (this s)) <= i <= poolSize (this s) ->
  wf (buildPool_from i s).
Proof.
  intros Hwf Hi. unfold buildPool_from. destruct Hwf as [Hbd Hfr Hnd Hbs Hch].
  simpl in *. case_decide as Hlt; [|by constructor].
  constructor; simpl; try done.
  - split_and!; try lia. intros Hin.
    rewrite Forall_forall in Hfr. specialize (Hfr _ Hin). lia.
  - eapply Forall_impl; [done|]. simpl. lia.
  - rewrite Hch. apply Permutation_submseteq, Permutation_refl'. f_equal. apply map_ext_Forall.
    apply Forall_forall. intros it Hit.
    pose proof (proj1 (Forall_forall _ _) Hfr (worker it) (elem_of_map_2 worker _ it Hit)).
    unfold held_live. simpl. repeat case_decide; try done; exfalso; set_solver by lia.
Qed.

Lemma online_wf w s :
  wf s -> enabled s (Online w) = true -> wf (step s (Online w)).
Proof.
  intros Hwf Hen. simpl. unfold enabled in Hen. unfold online.
  destruct (building s) as [[[i v] n]|] eqn:Hb; [|by rewrite andb_false_r in Hen].
  apply andb_prop in Hen as [_ Hen]. apply bool_decide_eq_true in Hen as [-> Hlive].
  rewrite decide_True by done.
  destruct Hwf as [Hbd Hfr Hnd Hbs Hch]. rewrite Hb in Hbd.
  destruct Hbd as (Hi & Hlen & Hv & Hvn).
  apply buildPool_from_wf; simpl; rewrite ?length_app; simpl; [|lia].
  constructor; simpl; try done; rewrite ?map_app; simpl.
  - rewrite length_app. simpl. lia.
  - apply Forall_app; split; [done|]. by constructor.
  - apply NoDup_app; split_and!; [done| |by apply NoDup_singleton].
    intros x Hx ->%list_elem_of_singleton. done.
  - apply Forall_app; split; [done|]. by constructor.
  - rewrite Hch, concat_app. simpl. by rewrite held_live_nil, !app_nil_r.
Qed.

Lemma init_wf n rl : wf (init n rl).
Proof.
  unfold init. apply buildPool_from_wf; simpl; [|lia].
  constructor; simpl; try done; try lia; by constructor.
Qed.

Lemma step_wf s e : wf s -> enabled s e = true -> wf (step s e).
Proof.
  intros Hwf Hen. destruct e as [now task tid cl|w|now w r|w|].
  - apply run_wf, Hwf.
  - by apply online_wf.
  - apply message_wf; [done|]. unfold enabled in Hen.
    apply andb_prop in Hen as [_ Hen]. by apply bool_decide_eq_true in Hen.
  - apply error_wf, Hwf.
  - apply terminate_wf, Hwf.
Qed.

Lemma wf_preserved : preserved (fun _ => True) wf.
Proof. intros s e Hwf Hen _. by apply step_wf. Qed.

Lemma reachable_wf_aux n rl s : reachable (init n rl) s -> wf s.
Proof. apply preserved_all_reachable; [apply wf_preserved|apply init_wf]. Qed.

(** ** FIFO *)

(** The dispatched promises followed by the queued ones are the submitted
    ones, in order. *)
Definition fifo (s : World) : Prop :=
  dispatched (calls s) ++ map qpromise (taskQueue (this s)) = submitted (calls s).

Lemma assignTasks_fifo now s : fifo s -> fifo (assignTasks now s).2.
Proof.
  unfold fifo. intros H.
  destruct (assignTasks_cases now s) as [->|(i & it & e & q & sent & _ & Hq & -> & _)]; [done|].
  rewrite Hq in H. simpl in *. by rewrite <-(assoc (++)), <-H.
Qed.

Lemma online_calls_this w s :
  calls (online w s) = calls s /\ taskQueue (this (online w s)) = taskQueue (this s).
Proof.
  unfold online. destruct (building s) as [[[i v] n]|]; [|done].
  case_decide; [|done]. unfold buildPool_from. by case_decide.
Qed.

Lemma fifo_preserved : preserved (fun _ => True) fifo.
Proof.
  intros s [now task tid cl|w|now w r|w|] Hf _ _; simpl.
  - apply run_preserves; [done|]. apply assignTasks_fifo. unfold fifo in *. simpl.
    by rewrite map_app, (assoc (++)), Hf.
  - unfold fifo. by rewrite !(proj1 (online_calls_this w s)), (proj2 (online_calls_this w s)).
  - unfold handleWorkerResult. simpl. destruct (list_find _ _) as [[i it]|]; [|done].
    apply uncaught_preserves; [by intros|]. apply assignTasks_fifo.
    unfold release. by destruct (wresolve it).
  - done.
  - done.
Qed.

(** ** Conservation of submitted tasks *)

(** Every submitted promise is in exactly one place: queued, held by a
    worker item, resolved, or lost with a terminated worker; promises are
    fresh numbers. *)
Definition whereabouts (s : World) : list nat :=
  map qpromise (taskQueue (this s)) ++ concat (map held (pool (this s))) ++
  map fst (resolved (calls s)) ++ dropped (calls s).

Definition conserved (s : World) : Prop :=
  submitted (calls s) ≡ₚ whereabouts s /\ NoDup (submitted (calls s)) /\
  Forall (fun p => p < next_promise (calls s)) (submitted (calls s)).

Lemma conserved_reject p s : conserved s -> conserved (reject p s).
Proof. done. Qed.

Lemma assignTasks_conserved now s :
  Forall (fun it => busy it = has_task it) (pool (this s)) ->
  conserved s -> conserved (assignTasks now s).2.
Proof.
  intros Hbs Hc.
  destruct (assignTasks_cases now s) as [->|(i & it & e & q & sent & Hf & Hq & -> & _)]; [done|].
  apply list_find_Some in Hf as (Hi & Hidle & _).
  destruct (idle_item_held it (Forall_lookup_1 _ _ _ _ Hbs Hi) Hidle) as [Hheld _].
  destruct Hc as (Hp & Hnd & Hlt). unfold conserved, whereabouts in *. rewrite Hq in Hp.
  cbn. split_and!; try done.
  pose proof (concat_map_insert_perm held (pool (this s)) i (dispatched_item now it e) it Hi)
    as Hins.
  rewrite Hheld, app_nil_r in Hins. simpl in Hins. rewrite Hp, Hins. solve_Permutation.
Qed.

Lemma run_conserved now task tid cl s :
  wf s -> conserved s -> conserved (run now task tid cl s).
Proof.
  intros Hwf (Hp & Hnd & Hlt). apply run_preserves; [intros; by apply conserved_reject|].
  apply assignTasks_conserved; [apply (wf_busy _ Hwf)|].
  unfold conserved, whereabouts in *. cbn. split_and!.
  - rewrite Hp, map_app. solve_Permutation.
  - apply NoDup_app. split_and!; [done| |apply NoDup_singleton].
    intros x Hx ->%list_elem_of_singleton.
    rewrite Forall_forall in Hlt. specialize (Hlt _ Hx). lia.
  - apply Forall_app. split; [|constructor; [lia|constructor]].
    eapply Forall_impl; [done|]. simpl. lia.
Qed.

(** [release] moves the promise of the item to the resolved ones. *)
Lemma release_conserved now r i it s :
  Forall (fun it => busy it = has_task it) (pool (this s)) -> pool (this s) !! i = Some it ->
  conserved s -> conserved (release now r i it s) /\
  Forall (fun it => busy it = has_task it) (pool (this (release now r i it s))).
Proof.
  intros Hbs Hi Hc.
  set (it' := mkWorkerItem (wid it) (worker it) false None (startTime it) (wtaskId it)).
  pose proof (concat_map_insert_perm held (pool (this s)) i it' it Hi) as Hins.
  assert (held it' = []) as Hh' by done. rewrite Hh', app_nil_r in Hins.
  destruct Hc as (Hp & Hnd & Hlt). unfold release, conserved, whereabouts, held in *.
  destruct (wresolve it) as [p|]; cbn; (split; [split_and!; [|done|done]|]);
    try (apply Forall_insert; [apply Hbs|done]).
  - rewrite Hp, <-Hins, map_app. solve_Permutation.
  - by rewrite Hp, <-Hins, app_nil_r.
Qed.

Lemma message_conserved now w r s :
  wf s -> conserved s -> conserved (step s (Message now w r)).
Proof.
  intros Hwf Hc. simpl. unfold handleWorkerResult. simpl.
  destruct (list_find _ _) as [[i it]|] eqn:Hf; [|done].
  apply list_find_Some in Hf as (Hi & _ & _).
  destruct (release_conserved now r i it (set_threads (answer w (threads s)) s)
              (wf_busy s Hwf) Hi Hc) as [Hc' Hbs'].
  apply uncaught_preserves; [by intros|]. by apply assignTasks_conserved.
Qed.

Lemma conserved_preserved : preserved (fun _ => True) (fun s => wf s /\ conserved s).
Proof.
  intros s e [Hwf Hc] Hen _. split; [by apply step_wf|].
  destruct e as [now task tid cl|w|now w r|w|].
  - by apply run_conserved.
  - simpl. unfold online. destruct (building s) as [[[i v] n]|]; [|done].
    case_decide; [|done]. destruct Hc as (Hp & Hnd & Hlt).
    unfold buildPool_from, conserved, whereabouts in *.
    case_decide; cbn; (split_and!; [|done|done]);
      rewrite Hp, map_app, concat_app; simpl; by rewrite !app_nil_r.
  - by apply message_conserved.
  - done.
  - destruct Hc as (Hp & Hnd & Hlt). unfold conserved, whereabouts in *. cbn.
    split_and!; try done. rewrite Hp. solve_Permutation.
Qed.

Lemma init_fifo_conserved n rl : fifo (init n rl) /\ conserved (init n rl).
Proof.
  unfold init, buildPool_from, fifo, conserved, whereabouts.
  case_decide; cbn; split_and!; try done; by constructor.
Qed.

Lemma reachable_conserved n rl s : reachable (init n rl) s -> wf s /\ conserved s.
Proof.
  apply (preserved_all_reachable (fun s => wf s /\ conserved s));
    [apply conserved_preserved|].
  split; [apply init_wf|apply init_fifo_conserved].
Qed.

Lemma channel_nodup t ps :
  NoDup (map worker ps) -> NoDup (map fst (concat (map (held_live t) ps))).
Proof.
  induction ps as [|it ps IH]; simpl; [constructor|].
  intros [Hnin Hnd]%NoDup_cons. rewrite map_app. apply NoDup_app. split_and!.
  - unfold held_live, held. case_decide; [|constructor].
    destruct (wresolve it); simpl; [apply NoDup_singleton|constructor].
  - intros x Hx1 Hx2.
    apply list_elem_of_In, in_map_iff in Hx1 as [pr1 [<- Hpr1]].
    rewrite (held_live_fst _ _ _ (proj2 (list_elem_of_In _ _) Hpr1)) in Hx2.
    apply list_elem_of_In, in_map_iff in Hx2 as [pr2 [Heq Hpr2]].
    apply in_concat in Hpr2 as [l [Hl Hpr2]]. apply in_map_iff in Hl as [it2 [<- Hit2]].
    rewrite (held_live_fst _ _ _ (proj2 (list_elem_of_In _ _) Hpr2)) in Heq.
    apply Hnin. rewrite <-Heq. apply elem_of_map_2, list_elem_of_In, Hit2.
  - by apply IH.
Qed.

(** ** Shape of the pool under the handlers *)

Definition is_run (e : Event) : bool := match e with Run _ _ _ _ => true | _ => false end.
Definition is_terminate (e : Event) : bool :=
  match e with TerminateAll => true | _ => false end.

(** [assignTasks] and [handleWorkerResult] update one item in place: names
    and Worker objects stay, the loop state stays. *)
Definition same_shape (s s' : World) : Prop :=
  map wid (pool (this s')) = map wid (pool (this s)) /\
  length (pool (this s')) = length (pool (this s)) /\ building s' = building s.

Lemma assignTasks_shape now s : same_shape s (assignTasks now s).2.
Proof.
  destruct (assignTasks_cases now s) as [->|(i & it & e & q & sent & Hf & _ & -> & _)]; [done|].
  apply list_find_Some in Hf as (Hi & _). unfold same_shape. simpl.
  rewrite length_insert. split_and!; [|done|done]. by eapply map_insert_same.
Qed.

Lemma message_shape now w r s : same_shape s (step s (Message now w r)).
Proof.
  simpl. unfold handleWorkerResult. simpl.
  destruct (list_find _ _) as [[i it]|] eqn:Hf; [|done].
  apply list_find_Some in Hf as (Hi & _).
  apply uncaught_preserves; [by intros|].
  match goal with |- context [assignTasks now ?x] =>
    destruct (assignTasks_shape now x) as (H1 & H2 & H3) end.
  unfold same_shape. rewrite H1, H2, H3. unfold release.
  destruct (wresolve it); simpl; rewrite length_insert;
    split_and!; try done; by eapply map_insert_same.
Qed.

Lemma foldr_kill_inflight_nil t ws :
  inflight t = [] -> inflight (foldr kill t ws) = [].
Proof. intros H. induction ws as [|w ws IH]; simpl; [done|]. by rewrite IH. Qed.

(** Names [Worker-1], [Worker-2], ... in pool order, the awaited worker
    named after the next position. *)
Definition ids_sequential (s : World) : Prop :=
  map wid (pool (this s)) = seq 1 (length (pool (this s))) /\
  match building s with Some (_, _, n) => n = S (length (pool (this s))) | None => True end.

Lemma ids_same_shape s s' : same_shape s s' -> ids_sequential s -> ids_sequential s'.
Proof. intros (H1 & H2 & H3). unfold ids_sequential. by rewrite H1, H2, H3. Qed.

Lemma buildPool_from_ids i s :
  map wid (pool (this s)) = seq 1 (length (pool (this s))) ->
  ids_sequential (buildPool_from i s).
Proof. intros H. unfold buildPool_from. by case_decide. Qed.

Lemma ids_preserved : preserved (fun e => is_terminate e = false) ids_sequential.
Proof.
  intros s e Hi Hen Hnt.
  destruct e as [now task tid cl|w|now w r|w|]; simpl in Hnt; try discriminate.
  - simpl. apply run_preserves; [by intros|].
    eapply ids_same_shape; [apply assignTasks_shape|exact Hi].
  - simpl. unfold online. destruct Hi as [Hids Hb].
    destruct (building s) as [[[i v] n]|] eqn:Hbs;
      [|unfold ids_sequential; rewrite Hbs; by split].
    case_decide; [|unfold ids_sequential; rewrite Hbs; by split].
    apply buildPool_from_ids. simpl.
    rewrite map_app, length_app, Hids, Hb, seq_app. done.
  - eapply ids_same_shape; [apply message_shape|exact Hi].
  - exact Hi.
Qed.

(** ** Promises held by items with nothing in flight *)

(** The promise held by an item whose worker has no message in flight: the
    worker failed, or its [postMessage] threw.  No answer can free it. *)
Definition held_stuck (t : Threads) (it : WorkerItem) : list nat :=
  if decide (worker it ∈ map to_worker (inflight t)) then [] else held it.

Definition lost_promises (s : World) : list nat :=
  concat (map (held_stuck (threads s)) (pool (this s))) ++ dropped (calls s).

Lemma held_stuck_sub t it : held_stuck t it ⊆ held it.
Proof. unfold held_stuck. case_decide; set_solver. Qed.

(** A stuck promise of an item other than the one updated stays stuck when
    no message to its worker is posted. *)
Lemma stuck_update t t' ps i y z p :
  NoDup (map worker ps) -> ps !! i = Some y -> held_stuck t y = [] ->
  (forall w, w ≠ worker y -> w ∉ map to_worker (inflight t) -> w ∉ map to_worker (inflight t')) ->
  p ∈ concat (map (held_stuck t) ps) -> p ∈ concat (map (held_stuck t') (<[i := z]> ps)).
Proof.
  intros Hnd Hi Hy Ht (x & Hx & Hp)%elem_of_concat_map.
  assert (x ≠ y) as Hxy by (intros ->; rewrite Hy in Hp; set_solver).
  assert (worker x ≠ worker y) as Hw.
  { intros Heq. apply Hxy. eapply NoDup_map_elem_inj; [exact Hnd|done| |done].
    by eapply list_elem_of_lookup_2. }
  apply list_elem_of_lookup in Hx as [j Hj].
  assert (j ≠ i) as Hji by (intros ->; congruence).
  apply elem_of_concat_map. exists x. split.
  - apply list_elem_of_lookup. exists j. by rewrite list_lookup_insert_ne.
  - unfold held_stuck in *. case_decide as Hin; [set_solver|].
    rewrite decide_False; [done|]. by apply Ht.
Qed.

Lemma assignTasks_lost now s p :
  Forall (fun it => busy it = has_task it) (pool (this s)) -> NoDup (map worker (pool (this s))) ->
  p ∈ lost_promises s -> p ∈ lost_promises (assignTasks now s).2.
Proof.
  intros Hbs Hnd Hp.
  destruct (assignTasks_cases now s) as [->|(i & it & e & q & sent & Hf & _ & -> & _ & Hsent)];
    [done|].
  apply list_find_Some in Hf as (Hi & Hidle & _).
  destruct (idle_item_held it (Forall_lookup_1 _ _ _ _ Hbs Hi) Hidle) as [Hheld _].
  unfold lost_promises in *. simpl. apply elem_of_app in Hp as [Hp|Hp]; [|set_solver].
  apply elem_of_app; left. eapply stuck_update; [exact Hnd|exact Hi| |..|exact Hp].
  - unfold held_stuck. rewrite Hheld. by case_decide.
  - intros w Hw Hnin Hin. apply list_elem_of_In, in_map_iff in Hin as [m [<- Hm]].
    apply in_app_or in Hm as [Hm|Hm]; [apply Hnin, elem_of_map_2, list_elem_of_In, Hm|].
    destruct Hsent as [[-> _]|[-> _]]; [done|]. destruct Hm as [<-|[]]. by apply Hw.
Qed.

Lemma online_lost s w p :
  p ∈ lost_promises s -> p ∈ lost_promises (online w s).
Proof.
  intros Hp. unfold online. destruct (building s) as [[[i v] n]|]; [|done].
  case_decide; [|done]. unfold buildPool_from, lost_promises in *.
  case_decide; simpl; rewrite map_app, concat_app; set_solver.
Qed.

Lemma not_in_filter_workers (P : Posted -> Prop) `{!forall x, Decision (P x)} l v :
  v ∉ map to_worker l -> v ∉ map to_worker (filter P l).
Proof.
  intros Hn Hin. apply Hn. apply list_elem_of_In, in_map_iff in Hin as [m [<- Hm]].
  apply elem_of_map_2. apply list_elem_of_In in Hm. by apply list_elem_of_filter in Hm as [_ ?].
Qed.

(** [release] keeps the Worker objects and the [busy] discipline. *)
Lemma release_pool now r i it s :
  pool (this s) !! i = Some it -> Forall (fun it => busy it = has_task it) (pool (this s)) ->
  map worker (pool (this (release now r i it s))) = map worker (pool (this s)) /\
  Forall (fun it => busy it = has_task it) (pool (this (release now r i it s))).
Proof.
  intros Hi Hbs. unfold release.
  destruct (wresolve it); simpl; (split; [by eapply map_insert_same|by apply Forall_insert]).
Qed.

Lemma message_lost s now w r p :
  wf s -> es_enabled s (Message now w r) = true ->
  p ∈ lost_promises s -> p ∈ lost_promises (step s (Message now w r)).
Proof.
  intros Hwf Hen Hp. simpl. unfold handleWorkerResult. simpl.
  assert (Hw : w ∈ map to_worker (inflight (threads s))).
  { unfold es_enabled, enabled in Hen. simpl in Hen.
    apply andb_prop in Hen as [_ Hen]. by apply bool_decide_eq_true in Hen. }
  destruct (message_finds_item s w Hwf Hw) as (i & it & q & Hf & Hres & Hlive).
  rewrite Hf. apply list_find_Some in Hf as (Hi & Hwi & _).
  destruct (release_pool now r i it (set_threads (answer w (threads s)) s) Hi (wf_busy s Hwf))
    as [Hmw Hbs].
  apply uncaught_preserves; [by intros|].
  apply assignTasks_lost; [done|rewrite Hmw; apply (wf_nodup s Hwf)|].
  unfold lost_promises in *. unfold release. rewrite Hres. simpl.
  apply elem_of_app in Hp as [Hp|Hp]; [|set_solver]. apply elem_of_app; left.
  eapply stuck_update; [apply (wf_nodup s Hwf)|exact Hi| |..|exact Hp].
  - unfold held_stuck. rewrite decide_True; [done|]. by rewrite Hwi.
  - intros v _ Hnin. by apply not_in_filter_workers.
Qed.

Lemma lost_preserved p :
  preserved (fun _ => True) (fun s => wf s /\ conserved s /\ p ∈ lost_promises s).
Proof.
  intros s e (Hwf & Hc & Hp) Hen _.
  split; [by apply step_wf|]. split; [by apply conserved_preserved|].
  destruct e as [now task tid cl|w|now w r|w|].
  - simpl. apply run_preserves; [by intros|].
    apply assignTasks_lost; [apply (wf_busy _ Hwf)|apply (wf_nodup _ Hwf)|done].
  - by apply online_lost.
  - by apply message_lost.
  - simpl. unfold lost_promises in *. simpl.
    apply elem_of_app in Hp as [Hp|Hp]; [|set_solver]. apply elem_of_app; left.
    apply elem_of_concat_map in Hp as [it [Hit Hp]]. apply elem_of_concat_map.
    exists it. split; [done|]. unfold held_stuck, kill in *. simpl.
    case_decide; [set_solver|]. rewrite decide_False; [done|]. by apply not_in_filter_workers.
  - simpl. unfold lost_promises in *. simpl.
    apply elem_of_app in Hp as [Hp|Hp]; [|set_solver]. apply elem_of_app; right.
    apply elem_of_concat_map in Hp as [it [Hit Hp]]. apply elem_of_concat_map.
    exists it. split; [done|]. by apply (held_stuck_sub (threads s)).
Qed.

(** ** Draining the queue *)

Definition busy_units (it : WorkerItem) : list unit := if busy it then [tt] else [].
Definition count_busy (ps : list WorkerItem) : nat := length (concat (map busy_units ps)).

Lemma count_busy_insert ps i x y :
  ps !! i = Some y ->
  count_busy (<[i := x]> ps) + length (busy_units y) =
    count_busy ps + length (busy_units x).
Proof.
  intros Hi. unfold count_busy. rewrite <-!length_app.
  apply Permutation_length, concat_map_insert_perm, Hi.
Qed.

Lemma count_busy_all ps : Forall (fun it => busy it = true) ps -> count_busy ps = length ps.
Proof.
  unfold count_busy. induction 1 as [|it ps Hb _ IH]; simpl; [done|].
  rewrite length_app, IH. unfold busy_units. by rewrite Hb.
Qed.

(** The first idle item of a pool whose other items are busy is the one
    just freed. *)
Lemma find_only_idle ps i x :
  Forall (fun it => busy it = true) ps -> i < length ps -> busy x = false ->
  list_find (fun it => busy it = false) (<[i := x]> ps) = Some (i, x).
Proof.
  intros Hall Hi Hx. apply list_find_Some. split_and!.
  - by apply list_lookup_insert_eq.
  - done.
  - intros j y Hj Hji. rewrite list_lookup_insert_ne in Hj by lia.
    rewrite (Forall_lookup_1 _ _ _ _ Hall Hj). done.
Qed.

(** Distinct items of the pool have distinct Worker objects. *)
Lemma worker_ne s i j x y :
  wf s -> pool (this s) !! i = Some x -> pool (this s) !! j = Some y -> j <> i ->
  worker y <> worker x.
Proof.
  intros Hwf Hi Hj Hne Heq. apply Hne.
  apply (NoDup_lookup (map worker (pool (this s))) j i (worker x) (wf_nodup s Hwf));
    rewrite lookup_map; [rewrite Hj; simpl; by rewrite Heq|by rewrite Hi].
Qed.

(** Tasks flow: the process runs, every worker of the pool is live, every
    queued task can be cloned and every busy item has its message in
    flight. *)
Definition flowing (s : World) : Prop :=
  crashed s = false /\
  Forall (fun it => worker it ∈ live (threads s)) (pool (this s)) /\
  Forall (fun e => qcloneable e = true) (taskQueue (this s)) /\
  Forall (fun it => busy it = true -> worker it ∈ map to_worker (inflight (threads s)))
    (pool (this s)).

(** A worker's answer while tasks flow frees its item; when the queue is
    not empty and every item is busy, the freed item takes the head of the
    queue at once, and the message is posted without a throw. *)
Lemma message_drain_step now w r s :
  wf s -> flowing s -> w ∈ map to_worker (inflight (threads s)) ->
  (taskQueue (this s) <> [] -> Forall (fun it => busy it = true) (pool (this s))) ->
  let s' := step s (Message now w r) in
  flowing s' /\ map worker (pool (this s')) = map worker (pool (this s)) /\
  match taskQueue (this s) with
  | [] => taskQueue (this s') = [] /\ S (count_busy (pool (this s'))) = count_busy (pool (this s))
  | _ :: q => taskQueue (this s') = q /\ Forall (fun it => busy it = true) (pool (this s'))
  end.
Proof.
  intros Hwf (Hc & Hlv & Hcl & Hbi) Hw Hwc. simpl.
  destruct (message_finds_item s w Hwf Hw) as (i & it & p & Hf & Hres & Hlive).
  unfold handleWorkerResult. simpl. rewrite Hf. unfold release. rewrite Hres.
  apply list_find_Some in Hf as (Hi & Hwi & _).
  destruct (wf_lookup s i it Hwf Hi) as [Hb _].
  assert (busy it = true) as Hbusy by (rewrite Hb; unfold has_task; by rewrite Hres).
  set (it' := mkWorkerItem (wid it) (worker it) false None (startTime it) (wtaskId it)).
  assert (Hother : forall j y, j <> i -> pool (this s) !! j = Some y -> busy y = true ->
            worker y ∈ map to_worker (filter (fun m => to_worker m ≠ w) (inflight (threads s)))).
  { intros j y Hj Hy Hby. pose proof (worker_ne s i j it y Hwf Hi Hy Hj) as Hne.
    pose proof (Forall_lookup_1 _ _ _ _ Hbi Hy Hby) as Hin.
    apply list_elem_of_In, in_map_iff in Hin as [m [Hm Hm']].
    apply list_elem_of_In, in_map_iff. exists m. split; [done|].
    apply list_elem_of_In, list_elem_of_filter. split; [congruence|by apply list_elem_of_In]. }
  assert (Hlv' : Forall (fun x => worker x ∈ live (threads s)) (<[i := it']> (pool (this s))))
    by (apply Forall_insert; [done|unfold it'; simpl; by rewrite Hwi]).
  unfold assignTasks, uncaught. simpl.
  destruct (taskQueue (this s)) as [|e q] eqn:Hq.
  - assert (flowing (set_this (set_pool (<[i:=it']> (pool (this s))) (this s))
              (set_calls (mkCalls (next_promise (calls s)) (submitted (calls s))
                 (dispatched (calls s)) (resolved (calls s) ++
                   [(p, response now (returnLog (this s)) it r)])
                 (rejected (calls s)) (dropped (calls s)))
                (set_threads (answer w (threads s)) s)))) as Hfl.
    { split_and!; simpl; [done|done|rewrite Hq; constructor|].
      apply Forall_insert_other; [done|]. intros j y Hj Hy Hby. by apply (Hother j). }
    pose proof (count_busy_insert _ _ it' it Hi) as Hcb.
    unfold busy_units in Hcb. rewrite Hbusy in Hcb. simpl in Hcb.
    destruct (list_find _ _) as [[j jt]|]; simpl;
      (split_and!; [done|by eapply map_insert_same|done|lia]).
  - rewrite find_only_idle; [|by apply Hwc|by eapply lookup_lt_Some|done].
    apply Forall_cons in Hcl as [He Hcl]. unfold postMessage. simpl.
    rewrite decide_True by (by rewrite Hwi). rewrite He. simpl.
    rewrite list_insert_insert_eq.
    split_and!; [|by eapply map_insert_same|done|apply Forall_insert; [by apply Hwc|done]].
    split_and!; simpl; [done| |done|].
    + apply Forall_insert; [done|simpl; by rewrite Hwi].
    + apply Forall_insert_other.
      * intros _. rewrite map_app. apply elem_of_app. right. simpl. set_solver.
      * intros j y Hj Hy Hby. rewrite map_app. apply elem_of_app. left. by apply (Hother j).
Qed.

Definition is_message (e : Event) : bool :=
  match e with Message _ _ _ => true | _ => false end.

Lemma count_busy_zero ps : count_busy ps = 0 -> Forall (fun it => busy it = false) ps.
Proof.
  unfold count_busy. induction ps as [|it ps IH]; simpl; [done|].
  rewrite length_app. unfold busy_units at 1. intros H.
  constructor; [by destruct (busy it)|]. apply IH. lia.
Qed.

Lemma count_busy_pos ps : count_busy ps <> 0 -> exists it, it ∈ ps /\ busy it = true.
Proof.
  unfold count_busy. induction ps as [|it ps IH]; simpl; [done|].
  rewrite length_app. unfold busy_units at 1. intros H.
  destruct (busy it) eqn:Hb; [exists it; split; [left|]; done|].
  destruct IH as [it' [? ?]]; [simpl in H; lia|]. exists it'. split; [by right|done].
Qed.

Lemma idle_held_nil ps :
  Forall (fun it => busy it = has_task it) ps -> Forall (fun it => busy it = false) ps ->
  concat (map held ps) = [].
Proof.
  induction 1 as [|it ps Hb _ IH]; intros Hf; [done|].
  apply Forall_cons in Hf as [Hi Hf]. simpl.
  destruct (idle_item_held it Hb Hi) as [-> _]. by apply IH.
Qed.

(** An idle item has no message in flight. *)
Lemma idle_not_inflight s it :
  wf s -> it ∈ pool (this s) -> busy it = false -> worker it ∉ map to_worker (inflight (threads s)).
Proof.
  intros Hwf Hit Hidle Hin.
  destruct (message_finds_item s (worker it) Hwf Hin) as (i & x & p & Hf & Hres & _).
  apply list_find_Some in Hf as (Hi & Hw & _).
  apply list_elem_of_lookup in Hit as [j Hj].
  destruct (decide (j = i)) as [->|Hne]; [|by apply (worker_ne s i j x it Hwf Hi Hj Hne)].
  rewrite Hi in Hj. injection Hj as ->.
  destruct (idle_item_held it (Forall_lookup_1 _ _ _ _ (wf_busy s Hwf) Hi) Hidle). congruence.
Qed.

(** Only [terminateAllWorkers] drops promises, and rejections are never
    taken back. *)
Definition calls_grow (s s' : World) : Prop :=
  dropped (calls s') = dropped (calls s) /\ rejected (calls s) ⊆ rejected (calls s').

Lemma assignTasks_calls now s :
  dropped (calls (assignTasks now s).2) = dropped (calls s) /\
  rejected (calls (assignTasks now s).2) = rejected (calls s).
Proof.
  by destruct (assignTasks_cases now s) as [->|(i & it & e & q & sent & _ & _ & -> & _)].
Qed.

Lemma step_calls_grow s e : is_terminate e = false -> calls_grow s (step s e).
Proof.
  intros Ht. destruct e as [now task tid cl|w|now w r|w|]; simpl in Ht; try discriminate.
  - simpl. apply run_preserves.
    + intros p x [Hd Hr]. split; [done|]. simpl. set_solver.
    + destruct (assignTasks_calls now (enqueue task tid cl s)) as [Hd Hr]. split; [done|].
      rewrite Hr. simpl. set_solver.
  - simpl. unfold calls_grow. rewrite (proj1 (online_calls_this w s)). set_solver.
  - simpl. unfold handleWorkerResult. destruct (list_find _ _) as [[i it]|]; [|split; set_solver].
    apply uncaught_preserves; [by intros|].
    destruct (assignTasks_calls now (release now r i it (set_threads (answer w (threads s)) s)))
      as [Hd Hr].
    unfold calls_grow. rewrite Hd, Hr. unfold release. destruct (wresolve it); split; set_solver.
  - split; set_solver.
Qed.

End Model.

Arguments Event : clear implicits.
Arguments World : clear implicits.

(** ** Properties of every reachable state *)

Section Properties.
Context {Task TaskId Data : Type}.

(** C5: the pool never holds more than [poolSize] workers, in every state
    reachable from [new WorkerPool(poolSize, ...)], whatever callers,
    workers and [terminateAllWorkers] do. *)
Theorem pool_never_exceeds_poolSize n rl (s : World Task TaskId Data) :
  reachable (init n rl) s -> length (pool (this s)) <= poolSize (this s).
Proof.
  intros Hr. pose proof (wf_bound s (reachable_wf_aux n rl s Hr)) as Hb.
  destruct (building s) as [[[i v] k]|]; lia.
Qed.

(** C1: no double dispatch: a worker thread has at most one task in flight,
    and a task is in flight on a worker only while that worker's item is
    [busy] and holds the promise the task was dispatched for. *)
Theorem no_double_dispatch n rl (s : World Task TaskId Data) :
  reachable (init n rl) s ->
  NoDup (map to_worker (inflight (threads s))) /\
  forall m, m ∈ inflight (threads s) ->
    exists it, it ∈ pool (this s) /\ worker it = to_worker m /\ busy it = true /\
               wresolve it = Some (ppromise m).
Proof.
  intros Hr. pose proof (reachable_wf_aux n rl s Hr) as Hwf. split.
  - pose proof (channel_nodup (threads s) _ (wf_nodup s Hwf)) as Hnd.
    eapply submseteq_NoDup in Hnd; [|apply submseteq_map, (wf_channel s Hwf)].
    unfold channel in Hnd. by rewrite map_map in Hnd.
  - intros m Hm.
    assert ((to_worker m, ppromise m) ∈ concat (map (held_live (threads s)) (pool (this s))))
      as Hin.
    { eapply elem_of_submseteq; [|apply (wf_channel s Hwf)]. apply list_elem_of_In, in_map_iff.
      exists m. split; [done|]. by apply list_elem_of_In. }
    apply list_elem_of_In, in_concat in Hin as [l [Hl Hpr]].
    apply in_map_iff in Hl as [it [<- Hit%list_elem_of_In]]. exists it.
    pose proof (proj1 (Forall_forall _ _) (wf_busy s Hwf) it Hit) as Hb.
    unfold has_task in Hb.
    unfold held_live, held in Hpr. case_decide; [|done].
    destruct (wresolve it) as [p|]; [|done]. simpl in Hpr.
    destruct Hpr as [Heq|[]]. injection Heq as Hw Hp.
    split_and!; [done|done|done|by rewrite Hp].
Qed.

(** C6: the [message] listener throws, ending the process, exactly when a
    task is queued whose [{ task, taskId }] cannot be cloned: the answer
    frees a worker, [assignTasks] gives it the head of the queue and
    [postMessage] throws out of the listener.  This holds in every
    reachable state whose workers are all live. *)
Theorem message_listener_throws n rl (s : World Task TaskId Data) now w r :
  reachable (init n rl) s -> es_enabled s (Message now w r) = true ->
  Forall (fun it => worker it ∈ live (threads s)) (pool (this s)) ->
  crashed (es_step s (Message now w r)) =
    match taskQueue (this s) with e :: _ => negb (qcloneable e) | [] => false end.
Proof.
  intros Hr Hen Hlv. pose proof (reachable_wf_aux n rl s Hr) as Hwf.
  simpl in Hen. unfold enabled in Hen.
  apply andb_prop in Hen as [Hc Hw]. apply negb_true_iff in Hc. apply bool_decide_eq_true in Hw.
  destruct (message_finds_item s w Hwf Hw) as (i & it & p & Hf & Hres & Hlive).
  simpl. unfold handleWorkerResult. simpl. rewrite Hf. unfold release. rewrite Hres.
  apply list_find_Some in Hf as (Hi & Hwi & _).
  set (it' := mkWorkerItem (wid it) (worker it) false None (startTime it) (wtaskId it)).
  assert (Hlv' : Forall (fun x => worker x ∈ live (threads s)) (<[i := it']> (pool (this s))))
    by (apply Forall_insert; [done|unfold it'; simpl; by rewrite Hwi]).
  unfold uncaught, assignTasks. simpl.
  destruct (list_find (fun it => busy it = false) (<[i:=it']> (pool (this s))))
    as [[j y]|] eqn:Hj.
  - destruct (taskQueue (this s)) as [|e q]; simpl; [done|].
    apply list_find_Some in Hj as (Hj & _ & _).
    unfold postMessage. simpl. rewrite decide_True by exact (Forall_lookup_1 _ _ _ _ Hlv' Hj).
    by destruct (qcloneable e).
  - exfalso. apply list_find_None in Hj.
    apply (Forall_lookup_1 _ _ i it' Hj); [|reflexivity].
    apply list_lookup_insert_eq. by eapply lookup_lt_Some.
Qed.

(** C2: strict FIFO: the promises dispatched so far, followed by those still
    queued, are exactly the submitted ones in submission order; the queue
    refines a list queue with push at [run] and pop at dispatch. *)
Theorem dispatch_order_is_submission_order n rl (s : World Task TaskId Data) :
  reachable (init n rl) s ->
  dispatched (calls s) ++ map qpromise (taskQueue (this s)) = submitted (calls s).
Proof.
  apply (preserved_all_reachable fifo); [apply fifo_preserved|].
  apply (init_fifo_conserved n rl).
Qed.

(** C3: conservation: every submitted task is, exactly once, either queued,
    held by one worker item, resolved, or lost with a terminated worker. *)
Theorem submitted_tasks_conserved n rl (s : World Task TaskId Data) :
  reachable (init n rl) s ->
  submitted (calls s) ≡ₚ
    map qpromise (taskQueue (this s)) ++ concat (map held (pool (this s))) ++
    map fst (resolved (calls s)) ++ dropped (calls s) /\
  NoDup (submitted (calls s)).
Proof.
  intros Hr. destruct (reachable_conserved n rl s Hr) as [_ (Hp & Hnd & _)]. done.
Qed.

(** C4: every caller's promise is resolved at most once, and only promises
    that were submitted are resolved. *)
Theorem resolved_at_most_once n rl (s : World Task TaskId Data) :
  reachable (init n rl) s ->
  NoDup (map fst (resolved (calls s))) /\
  forall p, p ∈ map fst (resolved (calls s)) -> p ∈ submitted (calls s).
Proof.
  intros Hr. destruct (reachable_conserved n rl s Hr) as [_ (Hp & Hnd & _)].
  unfold whereabouts in Hp. split.
  - rewrite Hp in Hnd. apply NoDup_app in Hnd as (_ & _ & Hnd).
    apply NoDup_app in Hnd as (_ & _ & Hnd). by apply NoDup_app in Hnd as (? & _ & _).
  - intros p Hp'. rewrite Hp. set_solver.
Qed.

(** C8: liveness failure: [addWorkerToPool]'s [online] listener pushes the
    new worker without calling [assignTasks].  A task submitted before the
    only worker of a one-worker pool is online stays queued next to the
    idle worker, and no event other than another [run] call (worker
    events, [terminateAllWorkers]) ever dispatches it. *)
Theorem task_before_online_never_dispatched rl now (task : Task) (tid : option TaskId) cl
    (es : list (Event Task TaskId Data)) s' :
  Forall (fun e => is_run e = false) es ->
  exec (init 1 rl) (Run now task tid cl :: Online 0 :: es) = Some s' ->
  (exists it, it ∈ pool (this (es_step (es_step (init 1 rl : World Task TaskId Data)
                                        (Run now task tid cl)) (Online 0)))
              /\ busy it = false) /\
  dispatched (calls s') = [] /\ map qpromise (taskQueue (this s')) = [0].
Proof.
  intros Hes Hex. split.
  { eexists. split; [simpl; left|]; done. }
  apply exec_cons_inv in Hex as [_ Hex]. apply exec_cons_inv in Hex as [_ Hex].
  set (P := fun s : World Task TaskId Data =>
    inflight (threads s) = [] /\ building s = None /\ dispatched (calls s) = [] /\
    map qpromise (taskQueue (this s)) = [0]).
  refine (proj2 (proj2 (exec_preserves _ P _ es _ s' Hes _ Hex))); [|by unfold P; cbn].
  intros s e (Hinf & Hb & Hd & Hq) Hen Hnr. simpl in Hen. unfold enabled in Hen.
  destruct e as [now' task' tid' cl'|w|now' w r|w|]; simpl in Hnr; try discriminate.
  - by rewrite Hb, andb_false_r in Hen.
  - apply andb_prop in Hen as [_ Hen]. apply bool_decide_eq_true in Hen.
    rewrite Hinf in Hen. by apply not_elem_of_nil in Hen.
  - unfold P. simpl. by rewrite Hinf.
  - unfold P. simpl. by rewrite foldr_kill_inflight_nil.
Qed.

(** C10: as long as [terminateAllWorkers] is not called, the workers are
    named [Worker-1] ... [Worker-k] in pool order, [k] the pool length:
    [addWorkerToPool] names a worker after the pool length when it is
    created and the loop of [buildPool] waits for it to be pushed. *)
Theorem worker_ids_sequential n rl (es : list (Event Task TaskId Data)) s :
  Forall (fun e => is_terminate e = false) es -> exec (init n rl) es = Some s ->
  map wid (pool (this s)) = seq 1 (length (pool (this s))).
Proof.
  intros Hes Hex. refine (proj1 (exec_preserves _ _ ids_preserved es _ s Hes _ Hex)).
  by apply buildPool_from_ids.
Qed.

(** C12: [terminateAllWorkers] is idempotent, as the spec's shutdown must
    be: it empties the pool, and a second call changes nothing.  It leaves
    the task queue as it was: queued callers are neither failed nor
    dropped. *)
Theorem terminateAllWorkers_idempotent (s : World Task TaskId Data) :
  pool (this (terminateAllWorkers s)) = [] /\
  taskQueue (this (terminateAllWorkers s)) = taskQueue (this s) /\
  terminateAllWorkers (terminateAllWorkers s) = terminateAllWorkers s.
Proof.
  unfold terminateAllWorkers. simpl. split_and!; [done|done|].
  by rewrite app_nil_r.
Qed.

(** A lost promise that was not dropped by [terminateAllWorkers] is held
    by an item whose worker has nothing in flight. *)
Lemma lost_held (s : World Task TaskId Data) p :
  wf s -> p ∈ lost_promises s -> p ∉ dropped (calls s) ->
  exists it, it ∈ pool (this s) /\ busy it = true /\ wresolve it = Some p /\
    worker it ∉ map to_worker (inflight (threads s)).
Proof.
  intros Hwf Hl Hd. apply elem_of_app in Hl as [Hl|]; [|done].
  apply elem_of_concat_map in Hl as [it [Hit Hp]]. exists it. split; [done|].
  unfold held_stuck, held in Hp. case_decide as Hin; [set_solver|].
  destruct (wresolve it) as [q|] eqn:Hres; [|set_solver].
  apply list_elem_of_singleton in Hp as ->.
  split_and!; [|done|done]. rewrite (proj1 (Forall_forall _ _) (wf_busy s Hwf) it Hit).
  unfold has_task. by rewrite Hres.
Qed.

(** C9: failure isolation is missing: the [error] listener of
    [addWorkerToPool] only logs.  When a worker thread fails while its item
    holds a caller's promise, that promise is never resolved, whatever
    happens afterwards (its item stays [busy] and is never replaced). *)
Theorem failed_worker_task_never_resolved n rl (s : World Task TaskId Data) it p es s' :
  reachable (init n rl) s -> it ∈ pool (this s) -> wresolve it = Some p ->
  worker it ∉ live (threads s) -> exec s es = Some s' ->
  p ∉ map fst (resolved (calls s')).
Proof.
  intros Hr Hit Hres Hdead Hex.
  destruct (reachable_conserved n rl s Hr) as [Hwf Hc].
  assert (p ∈ lost_promises s) as Hl.
  { unfold lost_promises. apply elem_of_app; left. apply elem_of_concat_map.
    exists it. split; [done|]. unfold held_stuck, held.
    rewrite decide_False, Hres; [set_solver|]. intros Hin.
    by destruct (message_finds_item s (worker it) Hwf Hin) as (_ & _ & _ & _ & _ & ?). }
  destruct (exec_preserves (fun _ => True) _ (lost_preserved p) es s s'
              (Forall_true _ es (fun _ => I)) (conj Hwf (conj Hc Hl)) Hex)
    as (_ & (Hp & Hnd & _) & Hl').
  rewrite Hp in Hnd. unfold whereabouts, lost_promises in *.
  apply NoDup_app in Hnd as (_ & _ & Hnd). apply NoDup_app in Hnd as (_ & HHR & Hnd).
  apply NoDup_app in Hnd as (_ & HRD & _). intros HR.
  apply elem_of_app in Hl' as [Hl'|Hl'].
  - apply elem_of_concat_map in Hl' as [it' [Hit' Hp']].
    apply (HHR p); [|set_solver]. apply elem_of_concat_map. exists it'.
    split; [done|]. by apply (held_stuck_sub (threads s')).
  - by apply (HRD p).
Qed.

(** What [run] does with a task that cannot be cloned when the queue is
    empty and the first idle item [it] has a live worker. *)
Lemma run_uncloneable now (task : Task) (tid : option TaskId) (s : World Task TaskId Data) i it :
  taskQueue (this s) = [] -> list_find (fun it => busy it = false) (pool (this s)) = Some (i, it) ->
  worker it ∈ live (threads s) ->
  let p := next_promise (calls s) in
  run now task tid false s =
    reject p (mkWorld (mkWorkerPool (poolSize (this s)) (returnLog (this s))
                        (<[i := dispatched_item now it (mkQueueEntry task tid p false)]>
                           (pool (this s))) [])
               (building s) (threads s)
               (mkCalls (S p) (submitted (calls s) ++ [p]) (dispatched (calls s) ++ [p])
                  (resolved (calls s)) (rejected (calls s)) (dropped (calls s)))
               (crashed s)).
Proof.
  intros Hq Hf Hlive. unfold run, assignTasks, enqueue. simpl. rewrite Hf, Hq. simpl.
  unfold postMessage. simpl. by rewrite decide_True.
Qed.

(** A promise kept stuck, rejected and not dropped along events that do
    not terminate the pool. *)
Lemma stuck_preserved p :
  preserved (fun e => is_terminate e = false)
    (fun s : World Task TaskId Data => (wf s /\ conserved s /\ p ∈ lost_promises s) /\
       p ∈ rejected (calls s) /\ p ∉ dropped (calls s)).
Proof.
  intros s e [H [Hr Hd]] Hen Ht. split; [by apply lost_preserved|].
  destruct (step_calls_grow s e Ht) as [Hd' Hr']. simpl. rewrite Hd'. set_solver.
Qed.

(** C7: a task that [postMessage] cannot clone loses a worker for good.
    When [run] is called with such a task while the queue is empty and a
    worker is idle, [assignTasks] marks that worker [busy] with the call's
    promise and then throws; the executor of [run] rejects the promise, so
    the caller gets the error, but the item stays [busy] with nothing in
    flight: whatever events follow (short of [terminateAllWorkers]), it
    is never answered, never freed, and never given another task. *)
Theorem run_post_failure_loses_worker n rl (s : World Task TaskId Data) now task tid
    (es : list (Event Task TaskId Data)) s' :
  reachable (init n rl) s -> taskQueue (this s) = [] ->
  (exists it, it ∈ pool (this s) /\ busy it = false) ->
  Forall (fun it => worker it ∈ live (threads s)) (pool (this s)) ->
  Forall (fun e => is_terminate e = false) es ->
  exec s (Run now task tid false :: es) = Some s' ->
  next_promise (calls s) ∈ rejected (calls s') /\
  exists it, it ∈ pool (this s') /\ busy it = true /\
    wresolve it = Some (next_promise (calls s)) /\
    worker it ∉ map to_worker (inflight (threads s')).
Proof.
  intros Hr Hq [it0 [Hit0 Hidle0]] Hlv Hes Hex.
  destruct (reachable_conserved n rl s Hr) as [Hwf Hc].
  apply exec_cons_inv in Hex as [Hen Hex].
  destruct (list_find (fun it => busy it = false) (pool (this s))) as [[i it]|] eqn:Hf;
    [|apply list_find_None in Hf; exfalso; exact (proj1 (Forall_forall _ _) Hf it0 Hit0 Hidle0)].
  pose proof Hf as Hf'. apply list_find_Some in Hf' as (Hi & Hidle & _).
  pose proof (Forall_lookup_1 _ _ _ _ Hlv Hi) as Hlive.
  set (p := next_promise (calls s)).
  assert (Hp : p ∈ lost_promises (es_step s (Run now task tid false))).
  { simpl. rewrite (run_uncloneable now task tid s i it Hq Hf Hlive).
    unfold lost_promises. simpl. apply elem_of_app; left. apply elem_of_concat_map.
    exists (dispatched_item now it (mkQueueEntry task tid p false)). split.
    - apply list_elem_of_lookup. exists i. apply list_lookup_insert_eq. by eapply lookup_lt_Some.
    - unfold held_stuck, held. simpl. rewrite decide_False; [set_solver|].
      apply (idle_not_inflight s it Hwf); [by eapply list_elem_of_lookup_2|done]. }
  assert (Hd : p ∉ dropped (calls (es_step s (Run now task tid false)))).
  { simpl. rewrite (run_uncloneable now task tid s i it Hq Hf Hlive). simpl.
    destruct Hc as (Hperm & _ & Hlt). intros Hin.
    assert (p ∈ submitted (calls s)) as Hs by (rewrite Hperm; unfold whereabouts; set_solver).
    rewrite Forall_forall in Hlt. specialize (Hlt p Hs). unfold p in Hlt. lia. }
  assert (Hrj : p ∈ rejected (calls (es_step s (Run now task tid false)))).
  { simpl. rewrite (run_uncloneable now task tid s i it Hq Hf Hlive). simpl. set_solver. }
  destruct (conserved_preserved s (Run now task tid false) (conj Hwf Hc) Hen I) as [Hwf1 Hc1].
  destruct (exec_preserves _ _ (stuck_preserved p) es _ s' Hes
              (conj (conj Hwf1 (conj Hc1 Hp)) (conj Hrj Hd)) Hex)
    as [(Hwf' & _ & Hl') [Hrj' Hd']].
  split; [done|]. by apply lost_held.
Qed.

(** One step of the drain: a busy worker answers. *)
Lemma queue_drain_step n rl (s : World Task TaskId Data) m (now : Z) (r : Data) :
  reachable (init n rl) s ->
  S m = length (taskQueue (this s)) + count_busy (pool (this s)) -> flowing s ->
  (taskQueue (this s) <> [] ->
     pool (this s) <> [] /\ Forall (fun it => busy it = true) (pool (this s))) ->
  exists e s1, is_message e = true /\ exec s [e] = Some s1 /\ reachable (init n rl) s1 /\
    m = length (taskQueue (this s1)) + count_busy (pool (this s1)) /\ flowing s1 /\
    (taskQueue (this s1) <> [] ->
       pool (this s1) <> [] /\ Forall (fun it => busy it = true) (pool (this s1))).
Proof.
  intros Hr Hm Hfl Hwc. destruct (reachable_conserved n rl s Hr) as [Hwf _].
  assert (exists it, it ∈ pool (this s) /\ busy it = true) as [it [Hit Hb]].
  { destruct (taskQueue (this s)) eqn:Hq.
    - apply count_busy_pos. simpl in Hm. lia.
    - destruct (Hwc ltac:(done)) as [Hne Hall].
      destruct (pool (this s)) as [|it ps]; [done|]. exists it.
      split; [left|by apply Forall_cons in Hall as [? _]]. }
  pose proof Hfl as (Hc & _ & _ & Hbi).
  pose proof (proj1 (Forall_forall _ _) Hbi it Hit Hb) as Hen.
  assert (es_enabled s (Message now (worker it) r) = true) as Hen'.
  { simpl. unfold enabled. rewrite Hc. simpl. by apply bool_decide_eq_true. }
  destruct (message_drain_step now (worker it) r s Hwf Hfl Hen
              (fun Hne => proj2 (Hwc Hne))) as (Hfl' & Hmw & Hstep).
  exists (Message now (worker it) r), (step s (Message now (worker it) r)).
  split_and!; [done|by rewrite exec_cons| |..|done|].
  - eapply reachable_trans; [done|]. exists [Message now (worker it) r]. by rewrite exec_cons.
  - destruct (taskQueue (this s)) as [|q0 q] eqn:Hq; destruct Hstep as [Hq1 Hc1].
    + rewrite Hq1. simpl in *. lia.
    + rewrite Hq1, count_busy_all by done. rewrite count_busy_all in Hm by (by apply Hwc).
      simpl in Hm. apply (f_equal length) in Hmw. rewrite !length_map in Hmw. lia.
  - destruct (taskQueue (this s)) as [|q0 q] eqn:Hq; destruct Hstep as [Hq1 Hc1].
    + by rewrite Hq1.
    + intros Hne. split; [|done]. intros Hnil. apply (f_equal length) in Hmw.
      rewrite !length_map, Hnil in Hmw. destruct (Hwc ltac:(done)) as [Hne' _].
      destruct (pool (this s)); simpl in Hmw; [done|lia].
Qed.

(** C11: liveness of the drain while tasks flow: from a reachable state in
    which the process runs, the workers are all alive, every queued task
    can be cloned, every busy worker has its task in flight, and the queue
    is non-empty only while the pool is non-empty and every worker is
    busy, letting each busy worker answer (one [message] per task) empties
    the queue and frees every worker in exactly [|queue| + #busy] events;
    every submitted task is then resolved or was lost with a terminated
    worker. *)
Theorem queue_drains n rl (s : World Task TaskId Data) (now : Z) (r : Data) :
  reachable (init n rl) s -> crashed s = false ->
  Forall (fun it => worker it ∈ live (threads s)) (pool (this s)) ->
  Forall (fun e => qcloneable e = true) (taskQueue (this s)) ->
  Forall (fun it => busy it = true -> worker it ∈ map to_worker (inflight (threads s)))
    (pool (this s)) ->
  (taskQueue (this s) <> [] ->
     pool (this s) <> [] /\ Forall (fun it => busy it = true) (pool (this s))) ->
  exists es s',
    length es = length (taskQueue (this s)) + count_busy (pool (this s)) /\
    Forall (fun e => is_message e = true) es /\ exec s es = Some s' /\
    taskQueue (this s') = [] /\ Forall (fun it => busy it = false) (pool (this s')) /\
    submitted (calls s') ≡ₚ map fst (resolved (calls s')) ++ dropped (calls s').
Proof.
  intros Hr Hc Hlv Hcl Hbi. assert (Hfl : flowing s) by (split_and!; done). clear Hc Hlv Hcl Hbi.
  remember (length (taskQueue (this s)) + count_busy (pool (this s))) as m eqn:Hm.
  revert s Hm Hr Hfl. induction m as [|m IH]; intros s Hm Hr Hfl Hwc.
  - destruct (reachable_conserved n rl s Hr) as [Hwf (Hp & _ & _)].
    exists [], s. destruct (taskQueue (this s)) eqn:Hq; [|simpl in Hm; lia].
    pose proof (count_busy_zero (pool (this s)) ltac:(lia)) as Hidle.
    split_and!; try done. rewrite Hp. unfold whereabouts.
    by rewrite Hq, (idle_held_nil _ (wf_busy s Hwf) Hidle).
  - destruct (queue_drain_step n rl s m now r Hr Hm Hfl Hwc)
      as (e & s1 & He & Hex1 & Hr1 & Hm1 & Hfl1 & Hwc1).
    destruct (IH s1 Hm1 Hr1 Hfl1 Hwc1) as (es & s' & Hlen & Hmsg & Hex & Hq' & Hidle' & Hsub).
    exists (e :: es), s'. split_and!; try done.
    + simpl. lia.
    + by constructor.
    + change (e :: es) with ([e] ++ es). by rewrite exec_app, Hex1.
Qed.

End Properties.


(** ** Concrete runs *)

Section Runs.
Local Notation W := (World nat nat nat).
Local Notation E := (Event nat nat nat).

(** Two workers come online, three tasks are submitted, worker 1 answers. *)
Definition demo_events : list E :=
  [Online 0; Online 1; Run 0 10 (Some 1) true; Run 1 11 (Some 2) true; Run 2 12 None true;
   Message 5 1 101].
Definition demo_state : W := default (init 2 true) (exec (init 2 true) demo_events).

(** One worker, three tasks, one answer. *)
Definition fifo_events : list E :=
  [Online 0; Run 0 10 None true; Run 1 11 None true; Run 2 12 None true; Message 3 0 100].
Definition fifo_state : W := default (init 1 false) (exec (init 1 false) fifo_events).

(** One worker fails while holding task 0. *)
Definition failed_events : list E := [Online 0; Run 0 7 None true; WorkerError 0].
Definition failed_state : W := default (init 1 false) (exec (init 1 false) failed_events).

(** Two workers busy, and a third task that cannot be cloned queued. *)
Definition clone_events : list E :=
  [Online 0; Online 1; Run 0 10 None true; Run 1 11 None true; Run 2 12 None false].
Definition clone_state : W := default (init 2 false) (exec (init 2 false) clone_events).

Lemma pool_never_exceeds_poolSize_witness :
  reachable (init 2 true) demo_state /\
  length (pool (this demo_state)) <= poolSize (this demo_state).
Proof.
  split; [exists demo_events; vm_compute; reflexivity|].
  apply (pool_never_exceeds_poolSize 2 true demo_state).
  exists demo_events; vm_compute; reflexivity.
Defined.

Lemma no_double_dispatch_witness :
  reachable (init 2 true) demo_state /\
  (NoDup (map to_worker (inflight (threads demo_state))) /\
   forall m, m ∈ inflight (threads demo_state) ->
     exists it, it ∈ pool (this demo_state) /\ worker it = to_worker m /\
                busy it = true /\ wresolve it = Some (ppromise m)).
Proof.
  split; [exists demo_events; vm_compute; reflexivity|].
  apply (no_double_dispatch 2 true demo_state).
  exists demo_events; vm_compute; reflexivity.
Defined.

Lemma message_listener_throws_witness :
  reachable (init 2 false) clone_state /\
  es_enabled clone_state (Message 6 0 100 : E) = true /\
  Forall (fun it => worker it ∈ live (threads clone_state)) (pool (this clone_state)) /\
  crashed (es_step clone_state (Message 6 0 100 : E)) = true.
Proof.
  assert (Hr : reachable (init 2 false) clone_state)
    by (exists clone_events; vm_compute; reflexivity).
  assert (Hl : Forall (fun it => worker it ∈ live (threads clone_state)) (pool (this clone_state)))
    by (vm_compute; repeat constructor).
  split; [exact Hr|]. split; [vm_compute; reflexivity|]. split; [exact Hl|].
  rewrite (message_listener_throws 2 false clone_state 6 0 100 Hr); [|vm_compute; reflexivity|exact Hl].
  vm_compute. reflexivity.
Defined.

Lemma dispatch_order_is_submission_order_witness :
  reachable (init 1 false) fifo_state /\
  dispatched (calls fifo_state) ++ map qpromise (taskQueue (this fifo_state)) =
    submitted (calls fifo_state).
Proof.
  split; [exists fifo_events; vm_compute; reflexivity|].
  apply (dispatch_order_is_submission_order 1 false fifo_state).
  exists fifo_events; vm_compute; reflexivity.
Defined.

Lemma submitted_tasks_conserved_witness :
  reachable (init 1 false) fifo_state /\
  (submitted (calls fifo_state) ≡ₚ
    map qpromise (taskQueue (this fifo_state)) ++ concat (map held (pool (this fifo_state))) ++
    map fst (resolved (calls fifo_state)) ++ dropped (calls fifo_state) /\
  NoDup (submitted (calls fifo_state))).
Proof.
  split; [exists fifo_events; vm_compute; reflexivity|].
  apply (submitted_tasks_conserved 1 false fifo_state).
  exists fifo_events; vm_compute; reflexivity.
Defined.

Lemma resolved_at_most_once_witness :
  reachable (init 1 false) fifo_state /\
  (NoDup (map fst (resolved (calls fifo_state))) /\
   forall p, p ∈ map fst (resolved (calls fifo_state)) -> p ∈ submitted (calls fifo_state)).
Proof.
  split; [exists fifo_events; vm_compute; reflexivity|].
  apply (resolved_at_most_once 1 false fifo_state).
  exists fifo_events; vm_compute; reflexivity.
Defined.

Lemma task_before_online_never_dispatched_witness :
  Forall (fun e : E => is_run e = false) [TerminateAll] /\
  exec (init 1 false : W) [Run 0 7 None true; Online 0; TerminateAll] =
    Some (default (init 1 false)
            (exec (init 1 false) [Run 0 7 None true; Online 0; TerminateAll])) /\
  ((exists it, it ∈ pool (this (es_step (es_step (init 1 false : W) (Run 0 7 None true))
                                   (Online 0)))
               /\ busy it = false) /\
   dispatched (calls (default (init 1 false)
     (exec (init 1 false : W) [Run 0 7 None true; Online 0; TerminateAll]))) = [] /\
   map qpromise (taskQueue (this (default (init 1 false)
     (exec (init 1 false : W) [Run 0 7 None true; Online 0; TerminateAll])))) = [0]).
Proof.
  split; [repeat constructor|]. split; [vm_compute; reflexivity|].
  apply (task_before_online_never_dispatched false 0 7 None true [TerminateAll]);
    [repeat constructor|vm_compute; reflexivity].
Defined.

Lemma worker_ids_sequential_witness :
  Forall (fun e : E => is_terminate e = false) demo_events /\
  exec (init 2 true) demo_events = Some demo_state /\
  map wid (pool (this demo_state)) = seq 1 (length (pool (this demo_state))).
Proof.
  split; [repeat constructor|]. split; [vm_compute; reflexivity|].
  apply (worker_ids_sequential 2 true demo_events demo_state);
    [repeat constructor|vm_compute; reflexivity].
Defined.

Lemma failed_worker_task_never_resolved_witness :
  reachable (init 1 false) failed_state /\
  mkWorkerItem 1 0 true (Some 0) (Some 0%Z) None ∈ pool (this failed_state) /\
  0 ∉ live (threads failed_state) /\
  exec failed_state [Run 1 8 None true; Run 2 9 None true] =
    Some (default failed_state (exec failed_state [Run 1 8 None true; Run 2 9 None true])) /\
  0 ∉ map fst (resolved (calls (default failed_state
                 (exec failed_state [Run 1 8 None true; Run 2 9 None true])))).
Proof.
  split; [exists failed_events; vm_compute; reflexivity|].
  split; [vm_compute; left|]. split; [vm_compute; intros Hin; inversion Hin|].
  split; [vm_compute; reflexivity|].
  apply (failed_worker_task_never_resolved 1 false failed_state
           (mkWorkerItem 1 0 true (Some 0) (Some 0%Z) None) 0 [Run 1 8 None true; Run 2 9 None true]);
    [exists failed_events; vm_compute; reflexivity|vm_compute; left|reflexivity|
     vm_compute; intros Hin; inversion Hin|vm_compute; reflexivity].
Defined.

Lemma queue_drains_witness :
  reachable (init 2 true) demo_state /\ crashed demo_state = false /\
  Forall (fun it => worker it ∈ live (threads demo_state)) (pool (this demo_state)) /\
  Forall (fun e => qcloneable e = true) (taskQueue (this demo_state)) /\
  Forall (fun it => busy it = true -> worker it ∈ map to_worker (inflight (threads demo_state)))
    (pool (this demo_state)) /\
  (taskQueue (this demo_state) <> [] ->
     pool (this demo_state) <> [] /\
     Forall (fun it => busy it = true) (pool (this demo_state))) /\
  exists es s',
    length es = length (taskQueue (this demo_state)) + count_busy (pool (this demo_state)) /\
    Forall (fun e => is_message e = true) es /\ exec demo_state es = Some s' /\
    taskQueue (this s') = [] /\ Forall (fun it => busy it = false) (pool (this s')) /\
    submitted (calls s') ≡ₚ map fst (resolved (calls s')) ++ dropped (calls s').
Proof.
  assert (reachable (init 2 true) demo_state) as Hr
    by (exists demo_events; vm_compute; reflexivity).
  assert (crashed demo_state = false) as Hc by (vm_compute; reflexivity).
  assert (Forall (fun it => worker it ∈ live (threads demo_state)) (pool (this demo_state)))
    as Ha by (vm_compute; repeat constructor).
  assert (Forall (fun e => qcloneable e = true) (taskQueue (this demo_state))) as Hcl
    by (vm_compute; constructor).
  assert (Forall (fun it => busy it = true -> worker it ∈ map to_worker
                              (inflight (threads demo_state))) (pool (this demo_state))) as Hb
    by (vm_compute; repeat constructor; intros _; repeat constructor).
  assert (taskQueue (this demo_state) <> [] ->
     pool (this demo_state) <> [] /\
     Forall (fun it => busy it = true) (pool (this demo_state))) as Hw
    by (vm_compute; intros H; by destruct H).
  split_and!; try assumption.
  exact (queue_drains 2 true demo_state 10%Z 0 Hr Hc Ha Hcl Hb Hw).
Defined.

(** One idle worker, and a task that cannot be cloned. *)
Definition idle_state : W := default (init 1 false) (exec (init 1 false) [Online 0]).

Lemma run_post_failure_loses_worker_witness :
  reachable (init 1 false) idle_state /\ taskQueue (this idle_state) = [] /\
  (exists it, it ∈ pool (this idle_state) /\ busy it = false) /\
  Forall (fun it => worker it ∈ live (threads idle_state)) (pool (this idle_state)) /\
  exec idle_state [Run 0 7 None false; Run 1 8 None true] =
    Some (default idle_state (exec idle_state [Run 0 7 None false; Run 1 8 None true])) /\
  (0 ∈ rejected (calls (default idle_state (exec idle_state
                                               [Run 0 7 None false; Run 1 8 None true]))) /\
   exists it, it ∈ pool (this (default idle_state (exec idle_state
                                  [Run 0 7 None false; Run 1 8 None true]))) /\
     busy it = true /\ wresolve it = Some 0 /\
     worker it ∉ map to_worker (inflight (threads (default idle_state (exec idle_state
                                  [Run 0 7 None false; Run 1 8 None true]))))).
Proof.
  assert (Hr : reachable (init 1 false) idle_state) by (exists [Online 0]; vm_compute; reflexivity).
  assert (Hi : exists it, it ∈ pool (this idle_state) /\ busy it = false)
    by (eexists; split; [vm_compute; left|]; reflexivity).
  assert (Hl : Forall (fun it => worker it ∈ live (threads idle_state)) (pool (this idle_state)))
    by (vm_compute; repeat constructor).
  assert (Hex : exec idle_state [Run 0 7 None false; Run 1 8 None true] =
    Some (default idle_state (exec idle_state [Run 0 7 None false; Run 1 8 None true])))
    by (vm_compute; reflexivity).
  refine (conj Hr (conj eq_refl (conj Hi (conj Hl (conj Hex _))))).
  exact (run_post_failure_loses_worker 1 false idle_state 0 7 None [Run 1 8 None true] _
           Hr eq_refl Hi Hl ltac:(repeat constructor) Hex).
Defined.

End Runs.

End QueuePool.
