(* ===== verification/StackPool.v ===== *)
(** * The stack pool: class [WorkerPool] of [src/index.js]

    The published entry point of the package keeps idle workers on a stack
    [this.pool]: [run] (lines 68-80) asks the module-global [TaskManager]
    for a status (200 or 429), then [runTask] (lines 201-213) rebuilds the
    pool when it is empty, takes the head worker with [shift], checks memory
    with [getMemPercent] and hands the task to [executeWorker]
    (lines 131-177), which attaches a [message] and an [error] listener to
    the worker and posts the task.  The message listener pushes the worker
    back only while [pool.length < poolSize]; a worker that does not fit is
    dropped from the pool without being terminated.  [finally] calls
    [terminateExcessWorkers] (lines 215-221), which compares with the field
    [this.minWorkers] that nothing assigns.

    [src/unnamed/part_000] (lines 184-347) holds an earlier copy of the same
    class; it differs in [getMemPercent] (the literal 90) and in
    [executeWorker], whose promise executor has no [reject] in scope.
    [src/unnamed/part_001] (lines 498-685) holds a third copy whose entry
    point is [entryTask] (the same code as [run]); its [runTask] has no
    memory check and its [executeWorker] is the one of [part_000].  The
    model is one handler per code path and a [Version] field saying which
    copy of the file was loaded.

    Each event is one macrotask of the Node event loop and runs to
    completion together with the microtasks it queues (the [await]s of
    [run] and [runTask]); the rate gate is any [RateGate] instance, the
    clock, the free memory and whether [postMessage] can clone the task are
    arguments of the [Run] event, and the worker's reply is the argument of
    its [Message] event.  The class body is strict-mode code: [runTask]'s
    [result.log = ...] and [result.capacity = ...] throw a [TypeError] when
    the reply is a primitive or [null] (class [JsValue] says which replies
    are objects), and [run]'s [catch] answers 500. *)

From stdpp Require Import base list options sets.
From Stdlib Require Import ZArith Lia.
From S2P Require Import Prelude RateGate MemGate.

Open Scope Z_scope.

Module StackPool.

(** Which copy of the class was loaded: [src/index.js] or
    [src/unnamed/part_000], or the copy with the entry point [entryTask]
    in [src/unnamed/part_001] (lines 498-685). *)
Inductive Version := Current | Copy0 | Copy1.

#[export] Instance Version_eq_dec : EqDecision Version.
Proof. solve_decision. Defined.

(** [{ id: workerId, worker }]: the id [`-${i + 1}-`] is kept as the number
    [i + 1]; a [Worker] object is a number. *)
Record WorkerObject := mkWorkerObject { wid : nat; worker : nat }.

#[export] Instance WorkerObject_eq_dec : EqDecision WorkerObject.
Proof. solve_decision. Defined.

(** What [run]'s [catch] receives: the [CustomError] of [getMemPercent], or
    the [Error] of [executeWorker] (task failed in the worker, or the task
    could not be posted), both naming the worker id. *)
Inductive RunError :=
| ECustom (e : MemGate.CustomError)
| EWorkerFailed (id : nat)
| EPostFailed (id : nat)
| ETypeError.

(** [err.status || 500]: a plain [Error] has no [status]. *)
Definition err_status (e : RunError) : Z :=
  match e with
  | ECustom c => if MemGate.status c =? 0 then 500 else MemGate.status c
  | _ => 500
  end.

(** The object [createLog] returns. *)
Record Log := mkLog { log_worker : nat; poolLength : nat; executed : nat }.

(** How the process stopped: an uncaught exception, the microtask loop of
    [runTask] never yielding, or the [exit] handler. *)
Inductive Halt := Crashed | Starved | Exited.

(** The values a worker can post back.  A class body is strict-mode code,
    so [result.log = ...] and [result.capacity = ...] throw a [TypeError]
    unless the reply [result] is an object (a primitive or [null] has no
    properties to create). *)
Class JsValue (D : Type) := is_object : D -> bool.

(** A reply as the main thread receives it: an object, kept as the number
    it carries, or a primitive. *)
Inductive JsReply := JObject (v : Z) | JPrimitive (v : Z).

#[export] Instance JsReply_value : JsValue JsReply :=
  fun r => match r with JObject _ => true | JPrimitive _ => false end.

(** [this.minWorkers] is read by [terminateExcessWorkers] and assigned
    nowhere: it is [undefined]. *)
Definition minWorkers : option Z := None.

(** [n > m] with [m] a number or [undefined]; every comparison with
    [undefined] is false. *)
Definition gt_undefined (n : Z) (m : option Z) : bool :=
  match m with Some m => m <? n | None => false end.

Section Model.
Context {Task Data G : Type} `{!RateGate G, !JsValue Data}.

(** What [run] resolves with: [{ status, result }] where [result] is the
    worker's reply with [log] and [capacity] added, or
    [{ status, message }] from the [catch]. *)
Inductive Response :=
| ROk (status : Z) (result : Data) (log : option Log) (capacity : option bool)
| RFail (status : Z) (err : RunError).

(** The pair [messageListener]/[errorListener] that one [executeWorker]
    call attaches: the worker it listens on, the [run] call whose promise it
    settles, the item to push back, and the values [run] and [runTask]
    resume with ([status] and [memStats]). *)
Record Listener := mkListener {
  lw : nat; lcall : nat; litem : WorkerObject; lstatus : Z; lcap : option bool
}.

#[export] Instance Listener_eq_dec : EqDecision Listener.
Proof. solve_decision. Defined.

(** The fields of [this] the handlers use. *)
Record Pool := mkPool {
  poolSize : Z; memThreshold : Z; returnLog : bool; pool : list WorkerObject
}.

(** The module's globals: [taskManager], the [tasks] array of [createLog],
    and [freeMemoryAvailable] read at load. *)
Record Globals := mkGlobals { gate : G; tasks : list nat; freeMemoryAvailable : Z }.

(** The worker threads: objects allocated so far, the threads still
    running, the execute listeners attached, and the tasks posted and not
    yet answered. *)
Record Threads := mkThreads {
  next_object : nat; live : list nat; listeners : list Listener;
  inflight : list (nat * Task)
}.

(** The promises [run] returned: calls are numbered; [settled] lists each
    settled call with its value. *)
Record Calls := mkCalls { next_call : nat; settled : list (nat * Response) }.

Record World := mkWorld {
  this : Pool; globals : Globals; threads : Threads; calls : Calls;
  halted : option Halt; version : Version
}.

Definition with_this (f : Pool -> Pool) (s : World) : World :=
  mkWorld (f (this s)) (globals s) (threads s) (calls s) (halted s) (version s).
Definition with_globals (f : Globals -> Globals) (s : World) : World :=
  mkWorld (this s) (f (globals s)) (threads s) (calls s) (halted s) (version s).
Definition with_threads (f : Threads -> Threads) (s : World) : World :=
  mkWorld (this s) (globals s) (f (threads s)) (calls s) (halted s) (version s).
Definition with_calls (f : Calls -> Calls) (s : World) : World :=
  mkWorld (this s) (globals s) (threads s) (f (calls s)) (halted s) (version s).
Definition halt (h : Halt) (s : World) : World :=
  mkWorld (this s) (globals s) (threads s) (calls s) (Some h) (version s).

(** [this.pool = pl]. *)
Definition set_pool (pl : list WorkerObject) (s : World) : World :=
  with_this (fun p => mkPool (poolSize p) (memThreshold p) (returnLog p) pl) s.

(** [new Worker(this.workerFilePath, ...)]: a fresh running thread. *)
Definition new_Worker (th : Threads) : nat * Threads :=
  (next_object th,
   mkThreads (S (next_object th)) (live th ++ [next_object th]) (listeners th) (inflight th)).

(** [worker.terminate()]: the thread stops and messages posted to it are
    lost; the listeners stay on the object. *)
Definition terminate (w : nat) (th : Threads) : Threads :=
  mkThreads (next_object th) (filter (fun x => x <> w) (live th)) (listeners th)
    (filter (fun m => m.1 <> w) (inflight th)).

(** [worker.postMessage(task)] to a task that can be cloned: delivered to a
    running thread, dropped silently by a terminated one. *)
Definition postMessage (w : nat) (t : Task) (th : Threads) : Threads :=
  if bool_decide (w ∈ live th)
  then mkThreads (next_object th) (live th) (listeners th) (inflight th ++ [(w, t)])
  else th.

Definition attach (l : Listener) (th : Threads) : Threads :=
  mkThreads (next_object th) (live th) (listeners th ++ [l]) (inflight th).

(** [cleanup()]: [removeListener] of this call's two listeners. *)
Definition cleanup (l : Listener) (th : Threads) : Threads :=
  mkThreads (next_object th) (live th) (filter (fun l' => l' <> l) (listeners th)) (inflight th).

(** The thread [w] receives its oldest posted task. *)
Definition consume (w : nat) (th : Threads) : Threads :=
  mkThreads (next_object th) (live th) (listeners th)
    (match list_find (fun m => m.1 = w) (inflight th) with
     | Some (i, _) => delete i (inflight th)
     | None => inflight th
     end).

(** [resolve(v)] / [reject(e)] of call [c]: a promise settles once. *)
Definition settle (c : nat) (r : Response) (s : World) : World :=
  if bool_decide (c ∈ (settled (calls s)).*1) then s
  else with_calls (fun cs => mkCalls (next_call cs) (settled cs ++ [(c, r)])) s.

(** ** The handlers *)

(** [buildPool] (lines 82-96): the [for] loop of its promise executor runs
    synchronously and pushes [{ id: `-${i + 1}-`, worker }] for
    [i = 0 .. poolSize - 1]; [handleError] only logs. *)
Fixpoint buildPool_loop (i n : nat) (s : World) : World :=
  match n with
  | O => s
  | S n' =>
      let '(w, th) := new_Worker (threads s) in
      let s := with_threads (fun _ => th) s in
      buildPool_loop (S i) n' (set_pool (pool (this s) ++ [mkWorkerObject (S i) w]) s)
  end.

Definition buildPool (s : World) : World :=
  buildPool_loop 0 (Z.to_nat (poolSize (this s))) s.

(** [terminateExcessWorkers] (lines 215-221): pop and terminate while
    [pool.length > minWorkers]; each round pops one worker, so
    [length pool + 1] rounds reach the exit of the loop.  [None] is the
    [TypeError] of destructuring [pool.pop()] on an empty pool. *)
Fixpoint terminateExcess_loop (fuel : nat) (minW : option Z) (s : World) : option World :=
  match fuel with
  | O => Some s
  | S f =>
      if gt_undefined (Z.of_nat (length (pool (this s)))) minW then
        match js_pop (pool (this s)) with
        | (Some it, rest) =>
            terminateExcess_loop f minW (with_threads (terminate (worker it)) (set_pool rest s))
        | (None, _) => None
        end
      else Some s
  end.

Definition terminateExcessWorkers (s : World) : World :=
  match terminateExcess_loop (S (length (pool (this s)))) minWorkers s with
  | Some s' => s'
  | None => s
  end.

(** [run]'s promise settles with [r], then its [finally] clause runs. *)
Definition finish (c : nat) (r : Response) (s : World) : World :=
  terminateExcessWorkers (settle c r s).

(** [createLog(freeWorker.id)] (lines 179-187). *)
Definition createLog (id : nat) (s : World) : Log * World :=
  let s := with_globals (fun g => mkGlobals (gate g) (tasks g ++ [id]) (freeMemoryAvailable g)) s in
  (mkLog id (length (pool (this s))) (length (tasks (globals s))), s).

(** What [run] answers when [runTask] resumes with the reply [data]
    (lines 208-212): [result.log = createLog(...)] and
    [result.capacity = memStats] throw a [TypeError] on a reply that is not
    an object, and [run]'s [catch] answers 500.  The [entryTask] copy
    (line 661) spreads [createLog] into a new object and does not write to
    the reply. *)
Definition resume (v : Version) (l : Listener) (data : Data) (log : option Log) : Response :=
  match v with
  | Copy1 => ROk (lstatus l) data log (lcap l)
  | Current | Copy0 =>
      if is_object data then ROk (lstatus l) data log (lcap l) else RFail 500 ETypeError
  end.

(** [messageListener] (lines 148-162): resolve with the reply, push the
    item back while the pool is below [poolSize], remove both listeners;
    then, once the promise has settled, [runTask] resumes (lines 208-212;
    [createLog] runs before the assignment that may throw) and [run]
    answers. *)
Definition messageListener (l : Listener) (data : Data) (s : World) : World :=
  let fresh := bool_decide (lcall l ∉ (settled (calls s)).*1) in
  let s := if Z.of_nat (length (pool (this s))) <? poolSize (this s)
           then set_pool (pool (this s) ++ [litem l]) s else s in
  let s := with_threads (cleanup l) s in
  if fresh then
    let '(log, s) :=
      if returnLog (this s) then let '(lg, s) := createLog (wid (litem l)) s in (Some lg, s)
      else (None, s) in
    finish (lcall l) (resume (version s) l data log) s
  else s.

(** [errorListener] (lines 164-167): remove both listeners, reject; [run]
    catches the [Error], which has no [status]. *)
Definition errorListener (l : Listener) (s : World) : World :=
  finish (lcall l) (RFail 500 (EWorkerFailed (wid (litem l)))) (with_threads (cleanup l) s).

(** The same listener in [part_000] (lines 282-285): the executor is
    [async (resolve) => ...], so [reject] is not defined and the listener
    throws a [ReferenceError]: an uncaught exception of the main thread.
    The [entryTask] copy of [part_001] (lines 609-612) has the same
    listener. *)
Definition errorListener_v0 (l : Listener) (s : World) : World :=
  halt Crashed (with_threads (cleanup l) s).

(** [executeWorker(freeWorker, task)] (lines 131-177).  Every pool item
    carries a [Worker], so the branch calling [addNewWorkerToPool] is not
    taken.  A task [postMessage] cannot clone makes it throw: the promise
    rejects and the listeners stay attached. *)
Definition executeWorker (it : WorkerObject) (c : nat) (st : Z) (cap : option bool)
    (task : Task) (cloneable : bool) (s : World) : World :=
  let s := with_threads (attach (mkListener (worker it) c it st cap)) s in
  if cloneable then with_threads (postMessage (worker it) task) s
  else finish c (RFail 500 (EPostFailed (wid it))) s.

(** [executeWorker] of [part_000] (lines 261-295): the [catch] of
    [postMessage] calls the undefined [reject]; the executor's promise
    rejects unhandled, which stops the process.  The [entryTask] copy of
    [part_001] (lines 616-620) does the same. *)
Definition executeWorker_v0 (it : WorkerObject) (c : nat) (st : Z) (cap : option bool)
    (task : Task) (cloneable : bool) (s : World) : World :=
  let s := with_threads (attach (mkListener (worker it) c it st cap)) s in
  if cloneable then with_threads (postMessage (worker it) task) s
  else halt Crashed s.

(** The memory check of [runTask] and the [capacity] it reports:
    [getMemPercent] in [src/index.js] and [part_000]; the [entryTask] copy
    has no memory check and its result has no [capacity] field. *)
Definition getMem (v : Version) (f0 th fm : Z) : MemGate.CustomError + option bool :=
  match v with
  | Current => match MemGate.getMemPercent f0 th fm with inl e => inl e | inr b => inr (Some b) end
  | Copy0 => match MemGate.getMemPercent_v0 f0 th fm with inl e => inl e | inr b => inr (Some b) end
  | Copy1 => inr None
  end.

(** [while (this.pool.length === 0) await this.buildPool();] (lines
    202-204) with at most [fuel] rounds: [Some s] once the pool is not
    empty, [None] when [fuel] rounds left it empty.  From an empty pool
    [buildPool] either fills it ([poolSize > 0]) or adds nothing, so one
    round decides the loop for every fuel (claim C29 below);
    [runTask] runs one round and reads [None] as the loop that never gives
    the event loop back.  The [entryTask] copy (lines 655-658) breaks out
    of the same loop once the pool is not empty. *)
Fixpoint wait_pool (fuel : nat) (s : World) : option World :=
  if bool_decide (pool (this s) = []) then
    match fuel with O => None | S f => wait_pool f (buildPool s) end
  else Some s.

(** The rest of [runTask(task)] (lines 205-212) of call [c] with the status
    [st] of [run]: [shift], [getMemPercent], [executeWorker].  The
    [entryTask] copy (lines 659-661) skips the memory check, and its
    [executeWorker] (lines 588-622) is the one of [part_000]: no [reject]
    in scope. *)
Definition runTask_body (c : nat) (st freeMemory : Z) (task : Task) (cloneable : bool)
    (s : World) : World :=
  match js_shift (pool (this s)) with
  | (None, _) => halt Starved s
  | (Some freeWorker, rest) =>
      let s := set_pool rest s in
      match getMem (version s) (freeMemoryAvailable (globals s)) (memThreshold (this s)) freeMemory with
      | inl e => finish c (RFail (err_status (ECustom e)) (ECustom e)) s
      | inr memStats =>
          match version s with
          | Current => executeWorker freeWorker c st memStats task cloneable s
          | Copy0 | Copy1 => executeWorker_v0 freeWorker c st memStats task cloneable s
          end
      end
  end.

(** [runTask(task)] (lines 201-213). *)
Definition runTask (c : nat) (st freeMemory : Z) (task : Task) (cloneable : bool)
    (s : World) : World :=
  match wait_pool 1 s with
  | None => halt Starved s
  | Some s => runTask_body c st freeMemory task cloneable s
  end.

(** [run(task)] (lines 68-80): a new call; [taskManager.canExecuteTask()]
    sets the status; the task runs whatever the status. *)
Definition run (now freeMemory : Z) (task : Task) (cloneable : bool) (s : World) : World :=
  let c := next_call (calls s) in
  let s := with_calls (fun cs => mkCalls (S c) (settled cs)) s in
  let '(ok, g) := gate_check now (gate (globals s)) in
  let s := with_globals (fun gl => mkGlobals g (tasks gl) (freeMemoryAvailable gl)) s in
  runTask c (if ok then 200 else 429) freeMemory task cloneable s.

(** The execute listeners attached to the thread [w], in the order they
    were added: the snapshot an [emit] walks. *)
Definition on_worker (w : nat) (s : World) : list Listener :=
  filter (fun l => lw l = w) (listeners (threads s)).

(** The thread [w] answers its oldest posted task with [data]. *)
Definition message (w : nat) (data : Data) (s : World) : World :=
  let ls := on_worker w s in
  foldl (fun s l => messageListener l data s) (with_threads (consume w) s) ls.

(** The thread [w] throws: [handleError] logs, each execute error listener
    runs, and the thread exits. *)
Definition workerError (w : nat) (s : World) : World :=
  let ls := on_worker w s in
  let s := foldl (fun s l => match version s with
                             | Current => errorListener l s
                             | Copy0 | Copy1 => errorListener_v0 l s
                             end) s ls in
  with_threads (terminate w) s.

(** [terminateAllWorkers] (lines 223-228): pop and terminate every idle
    worker. *)
Fixpoint terminateAll_loop (fuel : nat) (s : World) : World :=
  match fuel with
  | O => s
  | S f =>
      match js_pop (pool (this s)) with
      | (Some it, rest) => terminateAll_loop f (with_threads (terminate (worker it)) (set_pool rest s))
      | (None, _) => s
      end
  end.

Definition terminateAllWorkers (s : World) : World :=
  terminateAll_loop (length (pool (this s))) s.

(** [new WorkerPool(poolSize, workerFilePath, returnLog, memThreshold)]
    (lines 44-62) after the module loaded with [freeMemoryAvailable = f0]
    and the gate [g]. *)
Definition init (v : Version) (g : G) (f0 : Z) (poolSize : Z) (returnLog : bool)
    (memThreshold : Z) : World :=
  buildPool (mkWorld (mkPool poolSize memThreshold returnLog []) (mkGlobals g [] f0)
               (mkThreads 0 [] [] []) (mkCalls 0 []) None v).

Inductive Event :=
| Run (now freeMemory : Z) (task : Task) (cloneable : bool)
| Message (w : nat) (data : Data)
| WorkerError (w : nat)
| Exit.

(** One macrotask; [Exit] is [process.on('exit', ...)]. *)
Definition step (s : World) (e : Event) : World :=
  match e with
  | Run now fm t ok => run now fm t ok s
  | Message w d => message w d s
  | WorkerError w => workerError w s
  | Exit => halt Exited (terminateAllWorkers s)
  end.

(** A thread answers only a task posted to it; only a running thread
    throws; nothing happens after the process stopped. *)
Definition enabled (s : World) (e : Event) : bool :=
  match halted s with
  | Some _ => false
  | None =>
      match e with
      | Run _ _ _ _ | Exit => true
      | Message w _ => bool_decide (w ∈ (inflight (threads s)).*1)
      | WorkerError w => bool_decide (w ∈ live (threads s))
      end
  end.

#[export] Instance stack_system : EventSystem World Event := {
  es_step := step;
  es_enabled := enabled
}.

End Model.

Arguments Response : clear implicits.
Arguments World : clear implicits.
Arguments Event : clear implicits.
#[export] Existing Instance Listener_eq_dec.
#[export] Existing Instance stack_system.

(** Reduce the record updates of the handlers to their fields. *)
Ltac world_simpl := unfold set_pool, halt, attach, cleanup, consume, with_threads, with_calls,
  with_this, with_globals in *;
  cbn [this threads calls globals halted version pool poolSize memThreshold returnLog listeners
  live inflight next_object next_call settled gate tasks freeMemoryAvailable js_shift fst snd] in *.

(** ** The invariant

    Every worker object is in at most one place: idle in [pool], or listened
    on by one [executeWorker] call; the pool never holds more than
    [poolSize] items; a posted task waits only on a running, listened
    thread; the numbering of objects and calls is fresh. *)

Section Invariant.
Context {Task Data G : Type} `{!RateGate G, !JsValue Data}.
Implicit Types s : World Task Data G.

Definition idle_workers s : list nat := worker <$> pool (this s).
Definition busy_workers s : list nat := lw <$> listeners (threads s).

Record wf s : Prop := {
  wf_bound : (length (pool (this s)) <= Z.to_nat (poolSize (this s)))%nat;
  wf_excl : NoDup (idle_workers s ++ busy_workers s);
  wf_item : forall l, l ∈ listeners (threads s) -> worker (litem l) = lw l;
  wf_fresh : forall x, x ∈ idle_workers s ++ busy_workers s ++ live (threads s) ->
             (x < next_object (threads s))%nat;
  wf_inflight : forall w, w ∈ (inflight (threads s)).*1 ->
                w ∈ live (threads s) /\ w ∈ busy_workers s;
  wf_inflight_nodup : NoDup (inflight (threads s)).*1;
  wf_calls : NoDup (lcall <$> listeners (threads s));
  wf_call_bound : forall c, c ∈ (lcall <$> listeners (threads s)) ++ (settled (calls s)).*1 ->
                  (c < next_call (calls s))%nat;
  wf_settled : NoDup (settled (calls s)).*1
}.

Ltac wf_unfold := unfold idle_workers, busy_workers in *; cbn [this threads calls globals
  halted version with_threads with_calls with_this with_globals halt set_pool pool
  poolSize listeners live inflight next_object next_call settled] in *.

Lemma finish_settle c r s : finish c r s = settle c r s.
Proof. reflexivity. Qed.

Lemma settle_frame c r s :
  this (settle c r s) = this s /\ threads (settle c r s) = threads s /\
  halted (settle c r s) = halted s /\ version (settle c r s) = version s /\
  next_call (calls (settle c r s)) = next_call (calls s).
Proof. unfold settle. by case_bool_decide. Qed.

Lemma settle_wf c r s :
  (c < next_call (calls s))%nat -> wf s -> wf (settle c r s).
Proof.
  intros Hc [] . unfold settle. case_bool_decide; [by constructor|].
  constructor; wf_unfold; try done.
  - intros c'. rewrite fmap_app. simpl. set_solver.
  - rewrite fmap_app. apply NoDup_app. split_and!; [done| |by apply NoDup_singleton].
    set_solver.
Qed.

Lemma with_threads_settle f c r s :
  with_threads f (settle c r s) = settle c r (with_threads f s).
Proof. unfold settle. cbn. by destruct (bool_decide _). Qed.

Lemma wf_with_globals f s : wf s -> wf (with_globals f s).
Proof. intros []. by constructor. Qed.

Lemma wf_halt h s : wf s -> wf (halt h s).
Proof. intros []. by constructor. Qed.

#[local] Hint Resolve wf_with_globals wf_halt settle_wf : pool.

(** [buildPool] appends [poolSize] fresh objects with ids [1 .. poolSize]. *)
Lemma buildPool_loop_spec i n s :
  buildPool_loop i n s =
  mkWorld (mkPool (poolSize (this s)) (memThreshold (this s)) (returnLog (this s))
             (pool (this s) ++ zip_with mkWorkerObject (seq (S i) n) (seq (next_object (threads s)) n)))
          (globals s)
          (mkThreads (next_object (threads s) + n) (live (threads s) ++ seq (next_object (threads s)) n)
             (listeners (threads s)) (inflight (threads s)))
          (calls s) (halted s) (version s).
Proof.
  revert i s. induction n as [|n IH]; intros i [[] [] [] [] h v]; simpl.
  - by rewrite !app_nil_r, Nat.add_0_r.
  - rewrite IH. simpl. rewrite <-!app_assoc, Nat.add_succ_r. done.
Qed.

Lemma buildPool_empty s : pool (this (buildPool s)) = [] -> buildPool s = s.
Proof.
  unfold buildPool. rewrite buildPool_loop_spec.
  destruct (Z.to_nat (poolSize (this s))) as [|m]; simpl.
  - intros _. destruct s as [[] [] [] [] h v]; simpl. by rewrite !app_nil_r, Nat.add_0_r.
  - intros H. apply app_eq_nil in H as [_ H]. discriminate.
Qed.

Lemma buildPool_nonempty s : 0 < poolSize (this s) -> pool (this (buildPool s)) <> [].
Proof.
  intros Hn. unfold buildPool. rewrite buildPool_loop_spec. simpl.
  destruct (Z.to_nat (poolSize (this s))) as [|m] eqn:E; [lia|]. simpl.
  intros H. apply app_eq_nil in H as [_ H]. discriminate.
Qed.

(** With [poolSize <= 0] the loop never leaves an empty pool. *)
Lemma wait_pool_nonpositive s fuel :
  pool (this s) = [] -> poolSize (this s) <= 0 -> wait_pool fuel s = None.
Proof.
  intros Hp Hn. assert (Hb : buildPool s = s).
  { apply buildPool_empty. unfold buildPool. rewrite buildPool_loop_spec. simpl.
    replace (Z.to_nat (poolSize (this s))) with 0%nat by lia. by rewrite Hp. }
  induction fuel as [|f IH]; cbn [wait_pool]; rewrite bool_decide_true by done; [done|].
  by rewrite Hb.
Qed.

(** One round of the loop, then the body of [runTask]. *)
Lemma runTask_unfold c st fm t ok s :
  runTask c st fm t ok s =
  runTask_body c st fm t ok (if bool_decide (pool (this s) = []) then buildPool s else s).
Proof.
  unfold runTask. cbn [wait_pool]. case_bool_decide as H0; [|done].
  case_bool_decide as H1; [|done].
  rewrite (buildPool_empty s H1). unfold runTask_body. by rewrite H0.
Qed.

Lemma busy_perm s l :
  wf s -> l ∈ listeners (threads s) ->
  busy_workers s ≡ₚ lw l :: (lw <$> filter (fun l' => l' <> l) (listeners (threads s))).
Proof.
  intros Hwf Hl. unfold busy_workers.
  pose proof (wf_excl _ Hwf) as (_ & _ & Hnd)%NoDup_app.
  rewrite (filter_ne_perm _ l) at 1; [done| |done]. by eapply NoDup_fmap_1.
Qed.

Lemma buildPool_wf s : wf s -> pool (this s) = [] -> wf (buildPool s).
Proof.
  intros [Hb Hx Hi Hf Hin Hnd Hc Hcb Hs] Hp. unfold buildPool.
  rewrite buildPool_loop_spec, Hp. wf_unfold. rewrite Hp in *. simpl in *.
  set (no := next_object (threads s)) in *. set (n := Z.to_nat _).
  assert (Hw : worker <$> zip_with mkWorkerObject (seq 1 n) (seq no n) = seq no n)
    by (apply fmap_zip_with_r; [done|rewrite !length_seq; lia]).
  constructor; wf_unfold; simpl; rewrite ?Hw.
  - rewrite length_zip_with, !length_seq. lia.
  - apply NoDup_app. split_and!; [apply NoDup_seq| |done].
    intros y Hy1 Hy2. apply elem_of_seq in Hy1. assert (y < no)%nat by (apply Hf; set_solver). lia.
  - done.
  - intros x Hx0. destruct (decide (x ∈ seq no n)) as [Hs1|Hs1].
    + apply elem_of_seq in Hs1. lia.
    + assert (x < no)%nat by (apply Hf; set_solver). lia.
  - intros w Hw'. destruct (Hin w Hw'). set_solver.
  - done.
  - done.
  - done.
  - done.
Qed.

Lemma shift_attach_wf s it rest c st cap :
  wf s -> pool (this s) = it :: rest ->
  c ∉ lcall <$> listeners (threads s) -> (c < next_call (calls s))%nat ->
  wf (with_threads (attach (mkListener (worker it) c it st cap)) (set_pool rest s)).
Proof.
  intros [Hb Hx Hi Hf Hin Hnd Hc Hcb Hs] Hp Hc1 Hc2.
  wf_unfold. rewrite Hp in *. simpl in *.
  constructor; wf_unfold; simpl; rewrite ?fmap_app; simpl.
  - lia.
  - assert (H : (worker <$> rest) ++ (lw <$> listeners (threads s)) ++ [worker it]
                ≡ₚ worker it :: (worker <$> rest) ++ (lw <$> listeners (threads s)))
      by solve_Permutation.
    by rewrite H.
  - intros l [Hl|Hl]%elem_of_app; [by apply Hi|]. apply list_elem_of_singleton in Hl as ->. done.
  - intros x Hx'. apply Hf. set_solver.
  - intros w Hw'. destruct (Hin w Hw'). set_solver.
  - done.
  - apply NoDup_app. split_and!; [done|set_solver|apply NoDup_singleton].
  - intros c' Hc'. destruct (decide (c' = c)) as [->|Hne]; [done|]. apply Hcb. set_solver.
  - done.
Qed.

Lemma postMessage_wf s w t :
  wf s -> w ∈ busy_workers s -> w ∉ (inflight (threads s)).*1 ->
  wf (with_threads (postMessage w t) s).
Proof.
  intros [Hb Hx Hi Hf Hin Hnd Hc Hcb Hs] Hw Hn. unfold with_threads, postMessage.
  case_bool_decide as Hl; constructor; wf_unfold; simpl; try done.
  - rewrite fmap_app. intros w' Hw'. apply elem_of_app in Hw' as [Hw'|Hw']; [by apply Hin|].
    simpl in Hw'. apply list_elem_of_singleton in Hw' as ->. done.
  - rewrite fmap_app. apply NoDup_app. split_and!; [done|set_solver|apply NoDup_singleton].
Qed.

Lemma cleanup_wf s l :
  wf s -> l ∈ listeners (threads s) -> lw l ∉ (inflight (threads s)).*1 ->
  wf (with_threads (cleanup l) s).
Proof.
  intros Hwf Hl Hn. pose proof (busy_perm s l Hwf Hl) as Hp.
  destruct Hwf as [Hb Hx Hi Hf Hin Hnd Hc Hcb Hs].
  constructor; wf_unfold; simpl; try done.
  - rewrite Hp in Hx. apply NoDup_app in Hx as (H1 & H2 & H3).
    apply NoDup_cons in H3 as [_ H3]. apply NoDup_app. split_and!; [done| |done].
    intros x Hx1 Hx2. apply (H2 x Hx1). by apply elem_of_cons; right.
  - intros l' Hl'. apply Hi. by apply list_elem_of_filter in Hl' as [_ ?].
  - intros x Hx'. apply Hf. rewrite !elem_of_app in Hx' |- *. rewrite Hp, elem_of_cons. tauto.
  - intros w Hw'. destruct (Hin w Hw') as [H1 H2]. rewrite Hp in H2. split; [done|].
    apply elem_of_cons in H2 as [->|H2]; [done|exact H2].
  - eapply sublist_NoDup; [exact Hc|]. apply fmap_sublist, sublist_filter.
  - intros c' Hc'. apply Hcb. apply elem_of_app in Hc' as [Hc'|Hc']; apply elem_of_app; [left|by right].
    apply list_elem_of_fmap in Hc' as (l0 & -> & Hl0). apply list_elem_of_fmap_2.
    by apply list_elem_of_filter in Hl0 as [_ ?].
Qed.

Lemma terminate_stack_wf s x : wf s -> wf (with_threads (terminate x) s).
Proof.
  intros [Hb Hx Hi Hf Hin Hnd Hc Hcb Hs].
  constructor; wf_unfold; simpl; try done.
  - intros y Hy. apply Hf. rewrite !elem_of_app in Hy |- *.
    rewrite list_elem_of_filter in Hy. tauto.
  - intros w Hw'. apply list_elem_of_fmap in Hw' as ([w' t] & -> & Hm).
    apply list_elem_of_filter in Hm as [Hne Hm]. simpl in *.
    destruct (Hin w') as [H1 H2]; [by apply (list_elem_of_fmap_2 fst) in Hm|].
    split; [|done]. apply list_elem_of_filter. done.
  - eapply sublist_NoDup; [exact Hnd|]. apply fmap_sublist, sublist_filter.
Qed.

(** After [consume w], no task posted to [w] is left. *)
Lemma consume_wf s w :
  wf s -> wf (with_threads (consume w) s) /\
          w ∉ (inflight (threads (with_threads (consume w) s))).*1.
Proof.
  intros [Hb Hx Hi Hf Hin Hnd Hc Hcb Hs]. unfold with_threads, consume. simpl.
  destruct (list_find _ _) as [[i m]|] eqn:E.
  - apply list_find_Some in E as (Hm & Hw & _).
    pose proof (delete_Permutation _ _ _ Hm) as Hp.
    assert (Hp1 : (inflight (threads s)).*1 ≡ₚ m.1 :: (delete i (inflight (threads s))).*1)
      by (rewrite Hp at 1; done).
    rewrite Hp1 in Hnd. apply NoDup_cons in Hnd as [Hn1 Hn2]. subst w.
    split; [|done]. constructor; wf_unfold; simpl; try done.
    intros w' Hw'. apply Hin. rewrite Hp1. set_solver.
  - split; [by constructor|]. intros Hw'. apply list_elem_of_fmap in Hw' as ([w' t] & -> & Hm).
    apply list_find_None in E. rewrite Forall_forall in E. by apply (E _ Hm).
Qed.

Lemma set_pool_sublist_wf s pl :
  wf s -> pl `sublist_of` pool (this s) -> wf (set_pool pl s).
Proof.
  intros [Hb Hx Hi Hf Hin Hnd Hc Hcb Hs] Hsub.
  pose proof (sublist_length _ _ Hsub).
  assert (Hsub' : (worker <$> pl) `sublist_of` (worker <$> pool (this s))) by by apply fmap_sublist.
  constructor; wf_unfold; simpl; try done.
  - lia.
  - eapply sublist_NoDup; [exact Hx|]. by apply sublist_app.
  - intros x Hx'. apply Hf. rewrite !elem_of_app in Hx' |- *.
    pose proof (fun H => elem_of_sublist _ _ x H Hsub'). tauto.
Qed.

(** Pushing an object that is neither idle nor busy, below [poolSize]. *)
Lemma push_wf s it :
  wf s -> worker it ∉ idle_workers s ++ busy_workers s ->
  (worker it < next_object (threads s))%nat ->
  Z.of_nat (length (pool (this s))) < poolSize (this s) ->
  wf (set_pool (pool (this s) ++ [it]) s).
Proof.
  intros [Hb Hx Hi Hf Hin Hnd Hc Hcb Hs] Hw Hlt Hsz.
  constructor; wf_unfold; simpl; rewrite ?fmap_app; simpl; try done.
  - rewrite length_app. simpl. lia.
  - assert (H : ((worker <$> pool (this s)) ++ [worker it]) ++ (lw <$> listeners (threads s))
                ≡ₚ worker it :: (worker <$> pool (this s)) ++ (lw <$> listeners (threads s)))
      by solve_Permutation.
    rewrite H. by apply NoDup_cons.
  - intros x Hx'. rewrite <-app_assoc in Hx'. apply elem_of_app in Hx' as [Hx'|[Hx'|Hx']%elem_of_cons].
    + apply Hf. by apply elem_of_app; left.
    + by subst.
    + apply Hf. by apply elem_of_app; right.
Qed.

(** The worker of a listener is busy and not idle, and no other listener
    listens on it. *)
Lemma listener_exclusive s l :
  wf s -> l ∈ listeners (threads s) ->
  lw l ∉ idle_workers s /\ lw l ∉ lw <$> filter (fun l' => l' <> l) (listeners (threads s)).
Proof.
  intros Hwf Hl. pose proof (wf_excl _ Hwf) as Hx. rewrite (busy_perm s l Hwf Hl) in Hx.
  apply NoDup_app in Hx as (_ & H2 & H3). apply NoDup_cons in H3 as [H3 _].
  split; [|done]. intros Hi. apply (H2 _ Hi). by apply elem_of_cons; left.
Qed.

Lemma messageListener_wf s l d :
  wf s -> l ∈ listeners (threads s) -> lw l ∉ (inflight (threads s)).*1 ->
  wf (messageListener l d s).
Proof.
  intros Hwf Hl Hn. unfold messageListener.
  pose proof (cleanup_wf s l Hwf Hl Hn) as Hc.
  pose proof (listener_exclusive s l Hwf Hl) as [Hi1 Hi2].
  assert (Hlt : (lcall l < next_call (calls s))%nat)
    by (apply (wf_call_bound _ Hwf), elem_of_app; left; by apply list_elem_of_fmap_2).
  assert (Hfr : (lw l < next_object (threads s))%nat)
    by (apply (wf_fresh _ Hwf); rewrite !elem_of_app; right; left; by apply list_elem_of_fmap_2).
  assert (Hit := wf_item _ Hwf l Hl).
  destruct (Z.ltb_spec (Z.of_nat (length (pool (this s)))) (poolSize (this s))) as [Hsz|Hsz].
  - assert (Hw : wf (set_pool (pool (this (with_threads (cleanup l) s)) ++ [litem l])
                                (with_threads (cleanup l) s))).
    { apply push_wf; [done| |by rewrite Hit|done]. rewrite Hit.
      unfold idle_workers, busy_workers in *. simpl. intros [?|?]%elem_of_app; auto. }
    case_bool_decide; [|exact Hw].
    destruct (returnLog _); cbn; rewrite ?finish_settle; apply settle_wf; auto with pool.
  - case_bool_decide; [|exact Hc].
    destruct (returnLog _); cbn; rewrite ?finish_settle; apply settle_wf; auto with pool.
Qed.

Lemma on_worker_cases s w :
  wf s -> on_worker w s = [] \/
  exists l, on_worker w s = [l] /\ l ∈ listeners (threads s) /\ lw l = w.
Proof.
  intros Hwf. apply filter_key_unique.
  pose proof (wf_excl _ Hwf) as (_ & _ & ?)%NoDup_app. done.
Qed.

Lemma message_stack_wf s w d : wf s -> wf (message w d s).
Proof.
  intros Hwf. unfold message. pose proof (consume_wf s w Hwf) as [Hc Hn].
  destruct (on_worker_cases s w Hwf) as [->|(l & -> & Hl & <-)]; simpl; [done|].
  by apply messageListener_wf.
Qed.

Lemma workerError_wf s w : wf s -> wf (workerError w s).
Proof.
  intros Hwf. unfold workerError.
  destruct (on_worker_cases s w Hwf) as [->|(l & -> & Hl & <-)]; simpl; [by apply terminate_stack_wf|].
  assert (Hw : wf (with_threads (cleanup l) (with_threads (terminate (lw l)) s))).
  { apply cleanup_wf; [by apply terminate_stack_wf|done|]. simpl.
    intros (m & Hm & Hm')%list_elem_of_fmap. apply list_elem_of_filter in Hm' as [? _]. by subst. }
  assert (Hlt : (lcall l < next_call (calls s))%nat)
    by (apply (wf_call_bound _ Hwf), elem_of_app; left; by apply list_elem_of_fmap_2).
  destruct (version s); [|exact (wf_halt Crashed _ Hw)..].
  unfold errorListener. rewrite finish_settle, with_threads_settle.
  apply settle_wf; [done|exact Hw].
Qed.

(** [executeWorker] of either copy on the head of the pool. *)
Lemma executeWorker_wf s it rest c st cap t ok :
  wf s -> pool (this s) = it :: rest ->
  c ∉ lcall <$> listeners (threads s) -> (c < next_call (calls s))%nat ->
  wf (executeWorker it c st cap t ok (set_pool rest s)) /\
  wf (executeWorker_v0 it c st cap t ok (set_pool rest s)).
Proof.
  intros Hwf Hp Hc1 Hc2.
  pose proof (shift_attach_wf s it rest c st cap Hwf Hp Hc1 Hc2) as Ha.
  assert (Hpost : wf (with_threads (postMessage (worker it) t)
            (with_threads (attach (mkListener (worker it) c it st cap)) (set_pool rest s)))).
  { apply postMessage_wf; [done| |].
    - unfold busy_workers. simpl. rewrite fmap_app. set_solver.
    - simpl. intros Hin. apply (wf_inflight _ Hwf) in Hin as [_ Hb].
      pose proof (wf_excl _ Hwf) as Hx. unfold idle_workers in Hx. rewrite Hp in Hx.
      simpl in Hx. apply NoDup_cons in Hx as [Hx _]. apply Hx, elem_of_app. by right. }
  unfold executeWorker, executeWorker_v0. destruct ok; [done|].
  split; [rewrite finish_settle; by apply settle_wf|by apply wf_halt].
Qed.

Lemma runTask_wf c st fm t ok s :
  wf s -> c ∉ lcall <$> listeners (threads s) -> (c < next_call (calls s))%nat ->
  wf (runTask c st fm t ok s).
Proof.
  intros Hwf Hc1 Hc2. rewrite runTask_unfold; unfold runTask_body.
  assert (Hs1 : forall s1, s1 = (if bool_decide (pool (this s) = []) then buildPool s else s) ->
            wf s1 /\ listeners (threads s1) = listeners (threads s) /\ calls s1 = calls s).
  { intros s1 ->. case_bool_decide; [|done]. split; [by apply buildPool_wf|].
    unfold buildPool. by rewrite buildPool_loop_spec. }
  destruct (Hs1 _ eq_refl) as (Hw1 & El & Ec).
  revert Hw1 El Ec. generalize (if bool_decide (pool (this s) = []) then buildPool s else s).
  intros s1 Hw1 El Ec.
  destruct (pool (this s1)) as [|it rest] eqn:Ep; simpl; [by apply wf_halt|].
  rewrite <-El in Hc1. rewrite <-Ec in Hc2.
  destruct (getMem _ _ _ _) as [e|cap]; simpl.
  - rewrite finish_settle. apply settle_wf; [done|].
    apply set_pool_sublist_wf; [done|]. rewrite Ep. by apply sublist_cons.
  - pose proof (executeWorker_wf s1 it rest c st cap t ok Hw1 Ep Hc1 Hc2) as [??].
    by destruct (version s1).
Qed.

Lemma run_stack_wf now fm t ok s : wf s -> wf (run now fm t ok s).
Proof.
  intros Hwf. unfold run. destruct (gate_check _ _) as [b g].
  pose proof (wf_call_bound _ Hwf) as Hcb.
  apply runTask_wf.
  - destruct Hwf. constructor; wf_unfold; simpl; try done.
    intros c' Hc'. specialize (Hcb c' Hc'). lia.
  - simpl. intros Hin. assert (next_call (calls s) < next_call (calls s))%nat; [|lia].
    apply Hcb, elem_of_app. by left.
  - simpl. lia.
Qed.

Lemma terminateAll_loop_wf n s : wf s -> wf (terminateAll_loop n s).
Proof.
  revert s. induction n as [|n IH]; intros s Hwf; simpl; [done|].
  destruct (js_pop (pool (this s))) as [[it|] rest] eqn:E; [|done].
  apply IH, terminate_stack_wf, set_pool_sublist_wf; [done|]. by eapply js_pop_sublist.
Qed.

Lemma step_stack_wf s e : wf s -> wf (step s e).
Proof.
  intros Hwf. destruct e; simpl.
  - by apply run_stack_wf.
  - by apply message_stack_wf.
  - by apply workerError_wf.
  - by apply wf_halt, terminateAll_loop_wf.
Qed.

Lemma init_stack_wf v g f0 n rl th : wf (init v g f0 n rl th).
Proof.
  apply buildPool_wf; [|done].
  constructor; wf_unfold; simpl; first [lia | apply NoDup_nil_2 | set_solver].
Qed.

Lemma reachable_wf v g f0 n rl th s :
  reachable (init v g f0 n rl th) s -> wf s.
Proof.
  apply preserved_all_reachable; [|apply init_stack_wf].
  intros s' e Hwf _ _. by apply step_stack_wf.
Qed.

End Invariant.

(** ** Behaviour of [run] and of the replies *)

(** The branches of [messageListener]: a fresh call or not, room in the
    pool or not, a log or not. *)
Ltac messageListener_cases :=
  unfold messageListener; case_bool_decide; destruct (_ <? _);
  try destruct (returnLog _) eqn:?; unfold createLog; world_simpl; rewrite ?finish_settle;
  autorewrite with pool_rw; world_simpl.

Section Behaviour.
Context {Task Data G : Type} `{!RateGate G, !JsValue Data}.
Implicit Types s : World Task Data G.



(** The workers running and in neither [pool] nor a listener: threads
    nothing will ever use or terminate. *)
Definition leaked s : list nat :=
  filter (fun x => x ∉ idle_workers s /\ x ∉ busy_workers s) (live (threads s)).

Lemma getMem_error v a b c e : getMem v a b c = inl e -> e = MemGate.capacity_error.
Proof.
  destruct v; unfold getMem, MemGate.getMemPercent, MemGate.getMemPercent_v0; [..|congruence];
    destruct (MemGate.js_gt _ _); congruence.
Qed.

(** The main path of [run]: the head of the pool gets the task, whatever
    the gate says. *)
Lemma run_dispatch now fm t s it rest cap b g' :
  gate_check now (gate (globals s)) = (b, g') ->
  pool (this s) = it :: rest ->
  getMem (version s) (freeMemoryAvailable (globals s)) (memThreshold (this s)) fm = inr cap ->
  worker it ∈ live (threads s) ->
  run now fm t true s =
  mkWorld (mkPool (poolSize (this s)) (memThreshold (this s)) (returnLog (this s)) rest)
          (mkGlobals g' (tasks (globals s)) (freeMemoryAvailable (globals s)))
          (mkThreads (next_object (threads s)) (live (threads s))
             (listeners (threads s) ++
                [mkListener (worker it) (next_call (calls s)) it (if b then 200 else 429) cap])
             (inflight (threads s) ++ [(worker it, t)]))
          (mkCalls (S (next_call (calls s))) (settled (calls s))) (halted s) (version s).
Proof.
  intros Hg Hp Hm Hl. unfold run. world_simpl. rewrite Hg. rewrite runTask_unfold; unfold runTask_body. world_simpl.
  rewrite Hp, bool_decide_false by done. world_simpl. rewrite Hp. world_simpl. rewrite Hm.
  destruct (version s); unfold executeWorker, executeWorker_v0, postMessage; world_simpl;
    by rewrite bool_decide_true.
Qed.

(** The rejection path of [run]: [getMemPercent] throws after [shift]. *)
Lemma run_reject now fm t ok s it rest e b g' :
  gate_check now (gate (globals s)) = (b, g') ->
  pool (this s) = it :: rest ->
  getMem (version s) (freeMemoryAvailable (globals s)) (memThreshold (this s)) fm = inl e ->
  run now fm t ok s =
  settle (next_call (calls s)) (RFail (err_status (ECustom e)) (ECustom e))
    (mkWorld (mkPool (poolSize (this s)) (memThreshold (this s)) (returnLog (this s)) rest)
          (mkGlobals g' (tasks (globals s)) (freeMemoryAvailable (globals s)))
          (threads s) (mkCalls (S (next_call (calls s))) (settled (calls s))) (halted s) (version s)).
Proof.
  intros Hg Hp Hm. unfold run. world_simpl. rewrite Hg. rewrite runTask_unfold; unfold runTask_body. world_simpl.
  rewrite Hp, bool_decide_false by done. world_simpl. rewrite Hp. world_simpl. by rewrite Hm.
Qed.

Lemma threads_settle c r s : threads (settle c r s) = threads s.
Proof. apply settle_frame. Qed.
Lemma this_settle c r s : this (settle c r s) = this s.
Proof. apply settle_frame. Qed.
Lemma halted_settle c r s : halted (settle c r s) = halted s.
Proof. apply settle_frame. Qed.
Lemma version_settle c r s : version (settle c r s) = version s.
Proof. apply settle_frame. Qed.

#[local] Hint Rewrite threads_settle this_settle halted_settle version_settle : pool_rw.

(** The constructor's arguments never change. *)
Definition config s : Z * Z * bool * Version :=
  (poolSize (this s), memThreshold (this s), returnLog (this s), version s).

Lemma messageListener_config l d s : config (messageListener l d s) = config s.
Proof.
  unfold config. messageListener_cases; congruence.
Qed.

Lemma errorListener_config v l s :
  config (match v with Current => errorListener l s | Copy0 | Copy1 => errorListener_v0 l s end) = config s.
Proof.
  unfold config. destruct v; unfold errorListener, errorListener_v0; [rewrite finish_settle|..];
    autorewrite with pool_rw; world_simpl; done.
Qed.

Lemma terminateAll_loop_config k s : config (terminateAll_loop k s) = config s.
Proof.
  revert s. induction k as [|k IH]; intros s; simpl; [done|].
  destruct (js_pop _) as [[it|] rest]; [by rewrite IH|done].
Qed.

Lemma runTask_config c st fm t ok s : config (runTask c st fm t ok s) = config s.
Proof.
  rewrite runTask_unfold; unfold runTask_body.
  assert (Hb : config (if bool_decide (pool (this s) = []) then buildPool s else s) = config s)
    by (case_bool_decide; [unfold buildPool; by rewrite buildPool_loop_spec|done]).
  revert Hb. generalize (if bool_decide (pool (this s) = []) then buildPool s else s).
  intros s1 Hb. rewrite <-Hb.
  destruct (pool (this s1)) as [|it rest]; cbn [js_shift]; [done|].
  destruct (getMem _ _ _ _);
    [rewrite finish_settle; unfold config; autorewrite with pool_rw; world_simpl; done|].
  destruct (version _) eqn:Ev; unfold executeWorker, executeWorker_v0, postMessage;
    world_simpl; destruct ok; try case_bool_decide; rewrite ?finish_settle; unfold config;
    autorewrite with pool_rw; world_simpl; congruence.
Qed.

Lemma run_config now fm t ok s : config (run now fm t ok s) = config s.
Proof.
  unfold run. destruct (gate_check _ _) as [b g']. rewrite runTask_config.
  unfold config. world_simpl. done.
Qed.

Lemma step_config s e : config (step s e) = config s.
Proof.
  destruct e; simpl.
  - apply run_config.
  - unfold message. generalize (on_worker w s).
    assert (Hc : config (with_threads (consume w) s) = config s) by done.
    revert Hc. generalize (with_threads (consume w) s).
    intros s1 Hc ls. revert s1 Hc. induction ls as [|l ls IH]; intros s1 Hc; simpl; [done|].
    rewrite IH; [done|]. by rewrite messageListener_config.
  - unfold workerError. generalize (on_worker w s). intros ls.
    assert (H : forall s1, config s1 = config s ->
              config (foldl (fun s l => match version s with
                                        | Current => errorListener l s
                                        | Copy0 | Copy1 => errorListener_v0 l s end) s1 ls) = config s).
    { induction ls as [|l ls IH]; intros s1 Hc; simpl; [done|]. apply IH.
      by rewrite errorListener_config. }
    pose proof (H s eq_refl) as Hf. unfold config in *. world_simpl. congruence.
  - pose proof (terminateAll_loop_config (length (pool (this s))) s).
    unfold config, terminateAllWorkers in *. world_simpl. congruence.
Qed.

Lemma reachable_config v g f0 n rl th s :
  reachable (init v g f0 n rl th) s -> config s = (n, th, rl, v).
Proof.
  intros Hr.
  apply (preserved_all_reachable (fun s => config s = (n, th, rl, v)) (init v g f0 n rl th));
    [| |exact Hr].
  - intros s' e Hc _ _. simpl. by rewrite step_config.
  - unfold init, buildPool. rewrite buildPool_loop_spec. done.
Qed.

(** [run] and a reply never terminate a thread. *)
Lemma runTask_live c st fm t ok s x :
  x ∈ live (threads s) -> x ∈ live (threads (runTask c st fm t ok s)).
Proof.
  intros Hx. rewrite runTask_unfold; unfold runTask_body.
  assert (Hb : x ∈ live (threads (if bool_decide (pool (this s) = []) then buildPool s else s)))
    by (case_bool_decide; [unfold buildPool; rewrite buildPool_loop_spec; simpl; set_solver|done]).
  revert Hb. generalize (if bool_decide (pool (this s) = []) then buildPool s else s).
  intros s1 Hb. destruct (pool (this s1)) as [|it rest]; cbn [js_shift]; [by world_simpl|].
  destruct (getMem _ _ _ _); [rewrite finish_settle; autorewrite with pool_rw; world_simpl; done|].
  destruct (version _); unfold executeWorker, executeWorker_v0, postMessage; world_simpl;
    destruct ok; try case_bool_decide; rewrite ?finish_settle; autorewrite with pool_rw;
    world_simpl; done.
Qed.

Lemma run_live now fm t ok s x :
  x ∈ live (threads s) -> x ∈ live (threads (run now fm t ok s)).
Proof.
  intros Hx. unfold run. destruct (gate_check _ _) as [b g']. by apply runTask_live.
Qed.

Lemma message_live w d s x :
  x ∈ live (threads s) -> x ∈ live (threads (message w d s)).
Proof.
  intros Hx. unfold message. generalize (on_worker w s).
  assert (Hx1 : x ∈ live (threads (with_threads (consume w) s))) by done.
  revert Hx1. generalize (with_threads (consume w) s).
  intros s1 Hx1 ls. revert s1 Hx1. induction ls as [|l ls IH]; intros s1 Hx1; simpl; [done|].
  apply IH. messageListener_cases; done.
Qed.

Lemma run_rebuild now fm t ok s :
  pool (this s) = [] -> 0 < poolSize (this s) ->
  run now fm t ok s = run now fm t ok (buildPool s).
Proof.
  intros Hp Hn. assert (Hz : exists m, Z.to_nat (poolSize (this s)) = S m)
    by (exists (Nat.pred (Z.to_nat (poolSize (this s)))); lia).
  destruct Hz as [m Hm].
  unfold run. unfold buildPool at 2. rewrite !buildPool_loop_spec. world_simpl.
  destruct (gate_check _ _) as [b g']. rewrite !runTask_unfold. unfold buildPool.
  rewrite !buildPool_loop_spec. world_simpl. rewrite Hp, Hm.
  repeat case_bool_decide; try (exfalso; simpl in *; congruence).
  world_simpl. rewrite ?Hp. reflexivity.
Qed.

Lemma settle_fresh c r s :
  c ∉ (settled (calls s)).*1 ->
  settle c r s = with_calls (fun cs => mkCalls (next_call cs) (settled cs ++ [(c, r)])) s.
Proof. intros H. unfold settle. by rewrite bool_decide_false. Qed.

Lemma with_consume_head w x rest s :
  inflight (threads s) = (w, x) :: rest ->
  with_threads (consume w) s =
  with_threads (fun th => mkThreads (next_object th) (live th) (listeners th) rest) s.
Proof. intros H. unfold with_threads, consume. rewrite H. simpl. by rewrite decide_True. Qed.

Lemma message_single w d l s :
  on_worker w s = [l] -> message w d s = messageListener l d (with_threads (consume w) s).
Proof. intros H. unfold message. by rewrite H. Qed.

Lemma messageListener_nolog l d s :
  lcall l ∉ (settled (calls s)).*1 -> returnLog (this s) = false ->
  messageListener l d s =
  settle (lcall l) (resume (version s) l d None)
    (with_threads (cleanup l)
       (if Z.of_nat (length (pool (this s))) <? poolSize (this s)
        then set_pool (pool (this s) ++ [litem l]) s else s)).
Proof.
  intros Hn Hr. unfold messageListener. rewrite bool_decide_true by done.
  by destruct (_ <? _); world_simpl; rewrite Hr.
Qed.

(** *** The [entryTask] copy: no call is rejected

    In the copy of [part_001] nothing reaches the [catch] of [entryTask]:
    there is no memory check, and where the other copies reject ([reject]
    in [executeWorker]) this one throws a [ReferenceError] and the process
    stops.  Every settled call holds a reply, without [capacity]. *)

Definition no_capacity_field s : Prop :=
  Forall (fun l => lcap l = None) (listeners (threads s)) /\
  Forall (fun x => exists st d log, x.2 = ROk st d log None) (settled (calls s)).

Lemma messageListener_effect l d s :
  listeners (threads (messageListener l d s)) = filter (fun l' => l' <> l) (listeners (threads s)) /\
  (settled (calls (messageListener l d s)) = settled (calls s) \/
   exists log, settled (calls (messageListener l d s)) =
               settled (calls s) ++ [(lcall l, resume (version s) l d log)]).
Proof.
  messageListener_cases; (split; [done|]); try (left; done);
    rewrite settle_fresh by (world_simpl; done); world_simpl; right; eauto.
Qed.

Lemma messageListener_no_capacity l d s :
  version s = Copy1 -> lcap l = None -> no_capacity_field s ->
  no_capacity_field (messageListener l d s).
Proof.
  intros Hv Hl [HL HS]. unfold no_capacity_field.
  destruct (messageListener_effect l d s) as [-> [->|[log ->]]].
  - split; [by apply Forall_filter_weaken|done].
  - split; [by apply Forall_filter_weaken|]. apply Forall_app. split; [done|].
    apply Forall_singleton. rewrite Hv. simpl. rewrite Hl. eauto.
Qed.

Lemma runTask_copy1 c st fm t ok s :
  version s = Copy1 -> no_capacity_field s ->
  version (runTask c st fm t ok s) = Copy1 /\ no_capacity_field (runTask c st fm t ok s).
Proof.
  intros Hv Hn. rewrite runTask_unfold; unfold runTask_body.
  assert (Hb : version (if bool_decide (pool (this s) = []) then buildPool s else s) = Copy1 /\
               no_capacity_field (if bool_decide (pool (this s) = []) then buildPool s else s))
    by (case_bool_decide; [unfold buildPool; rewrite buildPool_loop_spec|]; done).
  revert Hb. generalize (if bool_decide (pool (this s) = []) then buildPool s else s).
  intros s1 [Hv1 [HL HS]]. destruct (pool (this s1)) as [|it rest]; cbn [js_shift]; [by world_simpl|].
  world_simpl. rewrite Hv1. cbn [getMem]. unfold executeWorker_v0, postMessage. world_simpl.
  destruct ok; [case_bool_decide|]; unfold no_capacity_field; cbn;
    rewrite ?Forall_app, ?Forall_singleton; naive_solver.
Qed.

(** A property kept by every listener a reply calls is kept by the reply;
    likewise for a worker's failure. *)
Lemma message_ind (P : World Task Data G -> Prop) w d s :
  P (with_threads (consume w) s) ->
  (forall l s', l ∈ on_worker w s -> P s' -> P (messageListener l d s')) ->
  P (message w d s).
Proof.
  intros H0 Hl. unfold message.
  assert (Hsub : forall l, l ∈ on_worker w s -> l ∈ on_worker w s) by done.
  revert Hsub H0. generalize (with_threads (consume w) s). generalize (on_worker w s) at 1 3.
  intros ls. induction ls as [|l ls IH]; intros s1 Hsub H1; simpl; [done|].
  apply IH; [intros l' Hl'; apply Hsub; by right|]. apply Hl; [apply Hsub; by left|done].
Qed.

Lemma workerError_ind (P : World Task Data G -> Prop) w s :
  P s ->
  (forall l s', P s' ->
     P (match version s' with Current => errorListener l s' | Copy0 | Copy1 => errorListener_v0 l s' end)) ->
  (forall s', P s' -> P (with_threads (terminate w) s')) ->
  P (workerError w s).
Proof.
  intros H0 Hl Ht. unfold workerError. apply Ht. generalize (on_worker w s). intros ls.
  revert s H0. induction ls as [|l ls IH]; intros s1 H1; simpl; [done|]. by apply IH, Hl.
Qed.

Lemma message_copy1 w d s :
  version s = Copy1 -> no_capacity_field s ->
  version (message w d s) = Copy1 /\ no_capacity_field (message w d s).
Proof.
  intros Hv [HL HS]. apply message_ind; [done|]. intros l s1 Hl [Hv1 Hn1]. split.
  - pose proof (messageListener_config l d s1) as Hc. unfold config in Hc. congruence.
  - apply messageListener_no_capacity; [done| |done].
    apply list_elem_of_filter in Hl as [_ Hl]. rewrite Forall_forall in HL. by apply HL.
Qed.

Lemma workerError_copy1 w s :
  version s = Copy1 -> no_capacity_field s ->
  version (workerError w s) = Copy1 /\ no_capacity_field (workerError w s).
Proof.
  intros Hv Hn. apply workerError_ind; [done| |done]. intros l s1 [Hv1 [HL HS]].
  rewrite Hv1. unfold errorListener_v0. world_simpl. split; [done|].
  split; [by apply Forall_filter_weaken|done].
Qed.

(** [terminateAllWorkers] touches neither the listeners nor the calls. *)
Lemma terminateAll_loop_calls k s :
  version (terminateAll_loop k s) = version s /\
  listeners (threads (terminateAll_loop k s)) = listeners (threads s) /\
  calls (terminateAll_loop k s) = calls s.
Proof.
  revert s. induction k as [|k IH]; intros s; simpl; [done|].
  destruct (js_pop _) as [[it|] rest]; [|done].
  by rewrite !(proj1 (IH _)), (proj1 (proj2 (IH _))), (proj2 (proj2 (IH _))).
Qed.

Lemma step_copy1 s e :
  version s = Copy1 -> no_capacity_field s ->
  version (step s e) = Copy1 /\ no_capacity_field (step s e).
Proof.
  intros Hv Hn. destruct e; simpl.
  - unfold run. destruct (gate_check _ _) as [b g']. apply runTask_copy1; done.
  - by apply message_copy1.
  - by apply workerError_copy1.
  - destruct (terminateAll_loop_calls (length (pool (this s))) s) as (E1 & E2 & E3).
    unfold terminateAllWorkers, no_capacity_field in *. world_simpl. by rewrite E1, E2, E3.
Qed.

(** *** The statuses [run] answers with

    [run] resolves with [{ status, result }] where [status] is 200 or 429
    from the rate gate, or with [{ status, message }] from its [catch]:
    [err.status || 500], that is 503 for [getMemPercent]'s [CustomError]
    and 500 for the plain [Error]s of [executeWorker]. *)

Definition status_ok (r : Response Data) : Prop :=
  match r with
  | ROk st _ _ _ => st = 200 \/ st = 429
  | RFail st _ => st = 500 \/ st = 503
  end.

Definition typed s : Prop :=
  Forall (fun l => lstatus l = 200 \/ lstatus l = 429) (listeners (threads s)) /\
  Forall (fun x => status_ok x.2) (settled (calls s)).

Lemma settle_typed c r s :
  status_ok r -> Forall (fun x => status_ok x.2) (settled (calls s)) ->
  Forall (fun x => status_ok x.2) (settled (calls (settle c r s))).
Proof.
  intros Hr Hs. unfold settle. case_bool_decide; [done|]. world_simpl.
  apply Forall_app. split; [done|]. by apply Forall_singleton.
Qed.

Lemma typed_cleanup l s : typed s -> typed (with_threads (cleanup l) s).
Proof. intros [HL HS]. split; [by apply Forall_filter_weaken|done]. Qed.

(** The answer of a resumed [runTask]: the call's status, or the 500 of
    the [TypeError]. *)
Lemma resume_status_ok v l d log :
  (lstatus l = 200 \/ lstatus l = 429) -> status_ok (resume v l d log).
Proof. intros H. unfold resume. destruct v; [destruct (is_object d)..|]; simpl; auto. Qed.

Lemma messageListener_typed l d s :
  (lstatus l = 200 \/ lstatus l = 429) -> typed s -> typed (messageListener l d s).
Proof.
  intros Hl [HL HS]. unfold typed.
  destruct (messageListener_effect l d s) as [-> [->|[log ->]]].
  - split; [by apply Forall_filter_weaken|done].
  - split; [by apply Forall_filter_weaken|]. apply Forall_app. split; [done|].
    apply Forall_singleton. by apply resume_status_ok.
Qed.

Lemma runTask_typed c st fm t ok s :
  (st = 200 \/ st = 429) -> typed s -> typed (runTask c st fm t ok s).
Proof.
  intros Hst Hn. rewrite runTask_unfold; unfold runTask_body.
  assert (Hb : typed (if bool_decide (pool (this s) = []) then buildPool s else s))
    by (case_bool_decide; [unfold buildPool; rewrite buildPool_loop_spec|]; done).
  revert Hb. generalize (if bool_decide (pool (this s) = []) then buildPool s else s).
  intros s1 [HL HS]. destruct (pool (this s1)) as [|it rest]; cbn [js_shift]; [by world_simpl|].
  world_simpl. destruct (getMem _ _ _ _) as [e|cap] eqn:Hm.
  - apply getMem_error in Hm as ->. rewrite finish_settle. split; [by rewrite threads_settle|].
    apply settle_typed; [by right|done].
  - destruct (version s1); unfold executeWorker, executeWorker_v0, postMessage; world_simpl;
      destruct ok; try case_bool_decide; world_simpl; rewrite ?finish_settle.
    all: split; [rewrite ?threads_settle; cbn; rewrite ?Forall_app, ?Forall_singleton; tauto|].
    all: try apply settle_typed; cbn; auto.
Qed.

Lemma step_typed s e : typed s -> typed (step s e).
Proof.
  intros Hn. destruct e; simpl.
  - unfold run. destruct (gate_check _ _) as [[] g']; apply runTask_typed; auto.
  - apply (message_ind typed); [done|]. intros l s1 Hl Hs1. apply messageListener_typed; [|done].
    apply list_elem_of_filter in Hl as [_ Hl]. destruct Hn as [HL _].
    rewrite Forall_forall in HL. by apply HL.
  - apply (workerError_ind typed); [done| |].
    + intros l s1 Hs1. apply (typed_cleanup l) in Hs1 as [HL HS].
      destruct (version s1); unfold errorListener, errorListener_v0;
        [rewrite finish_settle; split; [by rewrite threads_settle|apply settle_typed; [by left|done]]
        |split; done..].
    + intros s1 [HL HS]. done.
  - destruct (terminateAll_loop_calls (length (pool (this s))) s) as (E1 & E2 & E3).
    unfold terminateAllWorkers, typed in *. world_simpl. by rewrite E2, E3.
Qed.

End Behaviour.

(** The leak, step by step: with [poolSize = 1], two tasks submitted before
    either is answered make [runTask] build a second worker; when both
    answer, only the first fits back in the pool. *)
Section Leak.
Context {Task Data G : Type} `{!RateGate G, !JsValue Data}.
Context (t : Task) (d : Data).

Definition leak_round (k : nat) : list (Event Task Data) :=
  [Run 0 100 t true; Run 0 100 t true; Message 0 d; Message (S k) d].

Definition leak_shape (k : nat) (s : World Task Data G) : Prop :=
  exists g tks nc st,
    (forall c, c ∈ st.*1 -> (c < nc)%nat) /\
    s = mkWorld (mkPool 1 90 false [mkWorkerObject 1 0]) (mkGlobals g tks 100)
                (mkThreads (S k) (seq 0 (S k)) [] []) (mkCalls nc st) None Current.

(** Settling the next call keeps every settled call below the counter. *)
Lemma calls_bound_snoc (st : list (nat * Response Data)) nc r :
  (forall c, c ∈ st.*1 -> (c < nc)%nat) -> forall c, c ∈ (st ++ [(nc, r)]).*1 -> (c < S nc)%nat.
Proof.
  intros H c. rewrite fmap_app. intros [Hc|Hc%list_elem_of_singleton]%elem_of_app;
    [apply H in Hc; lia|simpl in Hc; lia].
Qed.

Lemma leak_round_step k s :
  leak_shape k s -> exists s', exec s (leak_round k) = Some s' /\ leak_shape (S k) s'.
Proof.
  intros (g0 & tks & nc & st & Hst & ->). unfold leak_round.
  rewrite exec_cons by reflexivity. cbn [es_step stack_system step].
  destruct (gate_check 0 g0) as [b1 g1] eqn:G1.
  rewrite (run_dispatch 0 100 t _ (mkWorkerObject 1 0) [] (Some true) b1 g1);
    [|exact G1|reflexivity|reflexivity|apply elem_of_seq; simpl; lia].
  world_simpl. rewrite exec_cons by reflexivity. cbn [es_step stack_system step].
  rewrite run_rebuild by (simpl; first [reflexivity|lia]). unfold buildPool. rewrite buildPool_loop_spec. world_simpl.
  destruct (gate_check 0 g1) as [b2 g2] eqn:G2.
  rewrite (run_dispatch 0 100 t _ (mkWorkerObject 1 (S k)) [] (Some true) b2 g2);
    [|exact G2|reflexivity|reflexivity|cbn [live threads]; apply elem_of_app; right; apply elem_of_seq; simpl; lia].
  world_simpl. cbn [worker app].
  set (L1 := mkListener 0 nc (mkWorkerObject 1 0) (if b1 then 200 else 429) (Some true)).
  set (L2 := mkListener (S k) (S nc) (mkWorkerObject 1 (S k)) (if b2 then 200 else 429) (Some true)).
  rewrite exec_cons by reflexivity. cbn [es_step stack_system step].
  rewrite (message_single 0 d L1) by reflexivity.
  rewrite messageListener_nolog by (world_simpl; subst L1; cbn [lcall]; first [reflexivity|intros ?%Hst; lia]).
  rewrite !(with_consume_head 0 t [(S k, t)]) by reflexivity.
  rewrite settle_fresh by (world_simpl; subst L1; cbn [lcall]; intros ?%Hst; lia).
  world_simpl. replace (Z.of_nat (length []) <? 1) with true by reflexivity. world_simpl.
  rewrite filter_cons_False, filter_cons_True by (subst L1 L2; first [naive_solver|intros [=]; lia]).
  change (filter (fun l' => l' <> L1) []) with (@nil Listener).
  rewrite exec_cons by (simpl; apply bool_decide_eq_true_2; set_solver).
  cbn [es_step stack_system step].
  rewrite (message_single (S k) d L2) by (unfold on_worker; world_simpl; by rewrite filter_cons_True).
  pose proof (calls_bound_snoc st nc (resume Current L1 d None) Hst) as Hst1.
  rewrite messageListener_nolog by (world_simpl; subst L2; cbn [lcall]; first [reflexivity|intros ?%Hst1; lia]).
  rewrite !(with_consume_head (S k) t []) by reflexivity.
  rewrite settle_fresh by (world_simpl; subst L2; cbn [lcall]; intros ?%Hst1; lia).
  world_simpl. replace (Z.of_nat (length ([] ++ [litem L1])) <? 1) with false by reflexivity.
  world_simpl. rewrite filter_cons_False by naive_solver.
  eexists. split; [reflexivity|].
  eexists g2, tks, (S (S nc)), _.
  split; [exact (calls_bound_snoc _ _ (resume Current L2 d None) Hst1)|].
  replace (S k + Z.to_nat 1)%nat with (S (S k)) by lia.
  by rewrite (seq_S (S k)).
Qed.

Lemma leak_rounds (g0 : G) k :
  exists s, exec (init Current g0 100 1 false 90) (concat (leak_round <$> seq 0 k)) = Some s /\
            leak_shape k s.
Proof.
  induction k as [|k (s & Hs & Hsh)].
  - eexists. split; [reflexivity|]. exists g0, [], 0%nat, []. split; [set_solver|reflexivity].
  - destruct (leak_round_step k s Hsh) as (s' & Hs' & Hsh').
    exists s'. split; [|done].
    rewrite seq_S, fmap_app, concat_app. simpl. rewrite ?app_nil_r, exec_app, Hs. exact Hs'.
Qed.

Lemma leak_shape_leaked k s : leak_shape k s -> leaked s = seq 1 k.
Proof.
  intros (g0 & tks & nc & st & _ & ->). unfold leaked, idle_workers, busy_workers. simpl.
  rewrite filter_cons_False by (intros [H _]; apply H; left).
  apply filter_all_true, Forall_forall. intros x Hx%elem_of_seq.
  split; [intros ?%list_elem_of_singleton; lia|apply not_elem_of_nil].
Qed.


End Leak.

(** C27: the pool leaks threads without bound: for every [k], with
    [poolSize = 1], some sequence of [run] calls and replies reaches a state
    where the pool still holds one worker but [k] more worker threads are
    running that are neither in the pool nor executing a task. *)
Theorem leaked_workers_unbounded {Task Data G : Type} `{!RateGate G, !JsValue Data}
    (t : Task) (d : Data) (g0 : G) k :
  exists s, reachable (init Current g0 100 1 false 90 : World Task Data G) s /\
            length (pool (this s)) = 1%nat /\ (k <= length (leaked s))%nat.
Proof.
  destruct (leak_rounds t d g0 k) as (s & Hs & Hsh). exists s. split; [by eexists|].
  rewrite (leak_shape_leaked k s Hsh), length_seq.
  destruct Hsh as (? & ? & ? & ? & _ & ->). simpl. lia.
Qed.

(** C40: in the [entryTask] copy of [part_001] no call is ever answered
    from the [catch] of [entryTask]: every settled call holds the worker's
    reply, and without a [capacity] field since this copy checks no
    memory; its failures stop the process instead of failing the call. *)
Theorem entryTask_copy_never_rejects {Task Data G : Type} `{!RateGate G, !JsValue Data}
    (g : G) f0 n rl th (s : World Task Data G) :
  reachable (init Copy1 g f0 n rl th) s ->
  forall c r, (c, r) ∈ settled (calls s) -> exists st d log, r = ROk st d log None.
Proof.
  intros Hr c r Hin.
  assert (H : version s = Copy1 /\ no_capacity_field s).
  { apply (preserved_all_reachable (fun s => version s = Copy1 /\ no_capacity_field s)
             (init Copy1 g f0 n rl th)); [| |exact Hr].
    - intros s' e [Hv Hn] _ _. by apply step_copy1.
    - unfold init, buildPool. rewrite buildPool_loop_spec. split; [done|]. split; constructor. }
  destruct H as [_ [_ HS]]. rewrite Forall_forall in HS. exact (HS (c, r) Hin).
Qed.

(** ** Properties of the stack pool *)

Section Properties.
Context {Task Data G : Type} `{!RateGate G, !JsValue Data}.
Context (v : Version) (g : G) (f0 n : Z) (rl : bool) (th : Z).

(** C22: in every state reachable from [new WorkerPool(n, ...)], the idle
    stack [this.pool] holds at most [n] workers: [buildPool] only runs on an
    empty pool and the message listener pushes only below [poolSize]. *)
Theorem stack_pool_within_poolSize s :
  reachable (init v g f0 n rl th : World Task Data G) s -> (length (pool (this s)) <= Z.to_nat n)%nat.
Proof.
  intros Hr. pose proof (reachable_config _ _ _ _ _ _ _ Hr) as Hc.
  injection Hc as Hn _ _ _. rewrite <-Hn. exact (wf_bound _ (reachable_wf _ _ _ _ _ _ _ Hr)).
Qed.

(** C23: in every reachable state a worker object is in [this.pool] at most
    once, and a worker in the pool has no task listener: no worker is handed
    two tasks at once. *)
Theorem stack_worker_exclusive s :
  reachable (init v g f0 n rl th : World Task Data G) s -> NoDup (idle_workers s ++ busy_workers s).
Proof. intros Hr. exact (wf_excl _ (reachable_wf _ _ _ _ _ _ _ Hr)). Qed.

(** C24: when a busy worker answers, its reply settles exactly the [run]
    call that posted the task, and no other call: with that call's status
    and memory verdict when the reply is an object (or in the [entryTask]
    copy, which does not write to it), and with 500 when the reply is a
    primitive or [null] in the two copies whose [runTask] assigns
    [result.log] and [result.capacity], which then throw a [TypeError]. *)
Theorem message_settles_its_call s l d :
  reachable (init v g f0 n rl th : World Task Data G) s -> l ∈ listeners (threads s) -> lcall l ∉ (settled (calls s)).*1 ->
  exists log, settled (calls (message (lw l) d s)) =
    settled (calls s) ++
      [(lcall l, if is_object d || bool_decide (version s = Copy1)
                 then ROk (lstatus l) d log (lcap l) else RFail 500 ETypeError)].
Proof.
  intros Hr Hl Hn. pose proof (reachable_wf _ _ _ _ _ _ _ Hr) as Hwf.
  unfold message. destruct (on_worker_cases s (lw l) Hwf) as [Ho|(l' & Ho & Hl' & Hw)].
  - assert (Hin : l ∈ on_worker (lw l) s) by (by apply list_elem_of_filter).
    rewrite Ho in Hin. set_solver.
  - assert (Hin : l ∈ on_worker (lw l) s) by (by apply list_elem_of_filter).
    rewrite Ho in Hin. apply list_elem_of_singleton in Hin as <-. rewrite Ho. simpl.
    unfold messageListener. world_simpl. rewrite bool_decide_true by done.
    destruct (_ <? _), (returnLog _); unfold createLog; world_simpl; rewrite finish_settle;
      unfold settle; world_simpl; rewrite bool_decide_false by done;
      eexists; (do 2 f_equal); unfold resume; by destruct (version s), (is_object d).
Qed.

(** C25: the rate gate only chooses the status: when [canExecuteTask]
    refuses (status 429) the head of the pool still gets the task, with a
    listener that will answer with status 429. *)
Theorem rate_refusal_is_advisory (s : World Task Data G) now fm t it rest cap g' :
  gate_check now (gate (globals s)) = (false, g') ->
  pool (this s) = it :: rest ->
  getMem (version s) (freeMemoryAvailable (globals s)) (memThreshold (this s)) fm = inr cap ->
  worker it ∈ live (threads s) ->
  listeners (threads (run now fm t true s)) =
    listeners (threads s) ++ [mkListener (worker it) (next_call (calls s)) it 429 cap] /\
  inflight (threads (run now fm t true s)) = inflight (threads s) ++ [(worker it, t)].
Proof. intros Hg Hp Hm Hl. by rewrite (run_dispatch _ _ _ _ _ _ _ _ _ Hg Hp Hm Hl). Qed.

(** C26: when [getMemPercent] throws, [run] answers 503, but the worker
    [runTask] already shifted off the pool is neither put back nor
    terminated: it keeps running and nothing refers to it. *)
Theorem capacity_rejection_leaks_worker s it rest e now fm t ok :
  reachable (init v g f0 n rl th : World Task Data G) s -> pool (this s) = it :: rest -> worker it ∈ live (threads s) ->
  getMem (version s) (freeMemoryAvailable (globals s)) (memThreshold (this s)) fm = inl e ->
  settled (calls (run now fm t ok s)) =
    settled (calls s) ++ [(next_call (calls s), RFail 503 (ECustom e))] /\
  worker it ∈ leaked (run now fm t ok s).
Proof.
  intros Hr Hp Hl Hm. pose proof (reachable_wf _ _ _ _ _ _ _ Hr) as Hwf.
  apply getMem_error in Hm as He. subst e.
  destruct (gate_check now (gate (globals s))) as [b g'] eqn:Hg.
  rewrite (run_reject _ _ _ _ _ _ _ _ _ _ Hg Hp Hm).
  assert (Hfresh : next_call (calls s) ∉ (settled (calls s)).*1).
  { intros Hin. assert (next_call (calls s) < next_call (calls s))%nat; [|lia].
    apply (wf_call_bound _ Hwf), elem_of_app. by right. }
  pose proof (wf_excl _ Hwf) as Hx. unfold idle_workers in Hx. rewrite Hp in Hx.
  simpl in Hx. apply NoDup_cons in Hx as [Hx _].
  unfold settle. world_simpl. rewrite bool_decide_false by done. split; [done|].
  unfold leaked, idle_workers, busy_workers. world_simpl. apply list_elem_of_filter.
  split; [|done]. split; intros Hin; apply Hx; apply elem_of_app; [left|right]; done.
Qed.

(** C28: [terminateExcessWorkers] compares with the unset [minWorkers], so
    neither [run] nor a worker's reply ever terminates a thread. *)
Theorem run_never_terminates_workers (s : World Task Data G) x now fm t ok w d :
  x ∈ live (threads s) ->
  x ∈ live (threads (run now fm t ok s)) /\ x ∈ live (threads (message w d s)).
Proof. intros Hx. split; [by apply run_live|by apply message_live]. Qed.

(** C29: the loop [while (this.pool.length === 0) await this.buildPool()]
    of [runTask], entered on an empty pool, ends after one round when
    [poolSize > 0], and never ends, whatever the number of rounds, when
    [poolSize <= 0]: [buildPool] then adds nothing, the loop keeps awaiting
    it and the event loop never gets control back, so [run] never
    returns. *)
Theorem nonpositive_poolSize_starves (s : World Task Data G) now fm t ok :
  pool (this s) = [] ->
  (0 < poolSize (this s) -> forall fuel,
     wait_pool (S fuel) s = Some (buildPool s) /\ pool (this (buildPool s)) <> []) /\
  (poolSize (this s) <= 0 ->
     (forall fuel, wait_pool fuel s = None) /\ halted (run now fm t ok s) = Some Starved).
Proof.
  intros Hp. split.
  - intros Hn fuel. pose proof (buildPool_nonempty s Hn) as Hne.
    cbn [wait_pool]. rewrite bool_decide_true by done.
    destruct fuel; cbn [wait_pool]; rewrite bool_decide_false by done; done.
  - intros Hn. split; [intros fuel; by apply wait_pool_nonpositive|].
    unfold run. destruct (gate_check _ _) as [b g']. unfold runTask.
    rewrite wait_pool_nonpositive; [done| |]; world_simpl; done.
Qed.

(** C30: a worker fails during a task.  In [src/index.js] its error
    listener rejects and [run] answers that task with 500; in the copy of
    [part_000] and in the [entryTask] copy of [part_001] the listener calls
    a [reject] that is not in scope, the [ReferenceError] is uncaught and
    the process stops.  This holds for every listening call of every
    reachable state. *)
Theorem worker_error_outcome (s : World Task Data G) l :
  reachable (init v g f0 n rl th) s -> l ∈ listeners (threads s) ->
  lcall l ∉ (settled (calls s)).*1 ->
  match v with
  | Current =>
      (lcall l, RFail 500 (EWorkerFailed (wid (litem l)))) ∈ settled (calls (workerError (lw l) s)) /\
      halted (workerError (lw l) s) = halted s
  | Copy0 | Copy1 => halted (workerError (lw l) s) = Some Crashed
  end.
Proof.
  intros Hr Hl Hn. pose proof (reachable_wf _ _ _ _ _ _ _ Hr) as Hwf.
  pose proof (reachable_config _ _ _ _ _ _ _ Hr) as Hc. injection Hc as _ _ _ Hv.
  assert (Hin : l ∈ on_worker (lw l) s) by (by apply list_elem_of_filter).
  destruct (on_worker_cases s (lw l) Hwf) as [Ho|(l' & Ho & _ & _)];
    rewrite Ho in Hin; [set_solver|]. apply list_elem_of_singleton in Hin as <-.
  unfold workerError. rewrite Ho. simpl. rewrite Hv.
  destruct v; unfold errorListener, errorListener_v0; world_simpl; [|done..].
  rewrite finish_settle. unfold settle. world_simpl. rewrite bool_decide_false by done.
  world_simpl. split; [set_solver|done].
Qed.

(** C21: [run] answers every call with a status its code can produce: 200
    or 429 with the worker's reply, 500 or 503 from its [catch]; no other
    status (in particular no [undefined] one) is ever returned. *)
Theorem run_answers_known_statuses s :
  reachable (init v g f0 n rl th : World Task Data G) s ->
  forall c r, (c, r) ∈ settled (calls s) -> status_ok r.
Proof.
  intros Hr c r Hin.
  assert (H : typed s).
  { apply (preserved_all_reachable typed (init v g f0 n rl th)); [| |exact Hr].
    - intros s' e Hs _ _. by apply step_typed.
    - unfold init, buildPool. rewrite buildPool_loop_spec. split; constructor. }
  destruct H as [_ HS]. rewrite Forall_forall in HS. exact (HS (c, r) Hin).
Qed.

(** C31: a worker [run] takes comes back: [run] shifts the head worker off
    a pool of at most [poolSize] workers and its reply pushes it back at
    the tail, so one task and its answer rotate the pool. *)
Theorem run_then_reply_returns_worker s now fm t it rest cap d :
  reachable (init v g f0 n rl th : World Task Data G) s ->
  pool (this s) = it :: rest ->
  getMem (version s) (freeMemoryAvailable (globals s)) (memThreshold (this s)) fm = inr cap ->
  worker it ∈ live (threads s) ->
  pool (this (message (worker it) d (run now fm t true s))) = rest ++ [it].
Proof.
  intros Hr Hp Hm Hl. pose proof (reachable_wf _ _ _ _ _ _ _ Hr) as Hwf.
  destruct (gate_check now (gate (globals s))) as [b g'] eqn:Hg.
  rewrite (run_dispatch now fm t s it rest cap b g' Hg Hp Hm Hl).
  set (L := mkListener (worker it) (next_call (calls s)) it (if b then 200 else 429) cap).
  rewrite (message_single _ _ L).
  - unfold messageListener. world_simpl.
    rewrite bool_decide_true; last first.
    { intros Hin. assert (Hlt : (next_call (calls s) < next_call (calls s))%nat); [|lia].
      apply (wf_call_bound _ Hwf), elem_of_app. by right. }
    pose proof (wf_bound _ Hwf) as Hb. rewrite Hp in Hb. simpl in Hb.
    rewrite (proj2 (Z.ltb_lt _ _)) by lia.
    destruct (returnLog _); unfold createLog; world_simpl; rewrite finish_settle, this_settle; done.
  - unfold on_worker. world_simpl. rewrite filter_app, filter_cons_True, filter_nil by done.
    rewrite filter_all_false; [done|].
    pose proof (wf_excl _ Hwf) as Hx. unfold idle_workers, busy_workers in Hx. rewrite Hp in Hx.
    apply NoDup_app in Hx as (_ & Hdis & _).
    apply Forall_forall. intros l' Hl' Heq. apply (Hdis (worker it)); [by left|].
    rewrite <-Heq. by apply list_elem_of_fmap_2.
Qed.

End Properties.

(** ** Concrete runs

    Tasks are integers and replies are objects or primitives carrying an
    integer; the gate is the module's [taskManager];
    [freeMemoryAvailable] is 100 and a [Run] reads 100 (no memory used)
    unless it says otherwise. *)

Section Runs.
Local Notation W := (World Z JsReply RateLimiter.TaskManager).
Local Notation E := (Event Z JsReply).
#[local] Existing Instance RateLimiter.TaskManager_gate.

(** A decidable goal on a concrete state, evaluated. *)
Ltac by_vm_decide :=
  match goal with |- ?P => apply (bool_decide_eq_true_1 P); vm_compute; reflexivity end.

Definition demo_init : W := init Current RateLimiter.taskManager 100 1 true 90.

(** Two tasks at the same instant (the second gets 429 and a rebuilt
    worker), then the first worker answers. *)
Definition demo_events : list E := [Run 0 100 7 true; Run 0 100 8 true; Message 0 (JObject 70)].
Definition demo_state : W := default demo_init (exec demo_init demo_events).

(** The listener of the second task, on the rebuilt worker. *)
Definition demo_listener : Listener := mkListener 1 1 (mkWorkerObject 1 1) 429 (Some true).

Definition pair_init : W := init Current RateLimiter.taskManager 100 2 true 90.
Definition pair_state : W := default pair_init (exec pair_init [Run 0 100 7 true]).

(** Ids are not unique: after the pool was rebuilt, two different
    running workers both carry the id [-1-] that [createLog] reports. *)
Example worker_ids_repeat_after_rebuild :
  ((fun s => (worker <$> (litem <$> listeners (threads s)), wid <$> (litem <$> listeners (threads s))))
     <$> exec demo_init [Run 0 100 7 true; Run 0 100 8 true]) = Some ([0%nat; 1%nat], [1%nat; 1%nat]).
Proof. vm_compute. reflexivity. Qed.

Lemma stack_pool_within_poolSize_witness :
  reachable demo_init demo_state /\ (length (pool (this demo_state)) <= Z.to_nat 1)%nat.
Proof.
  assert (H : reachable demo_init demo_state) by (exists demo_events; vm_compute; reflexivity).
  split; [exact H|].
  exact (stack_pool_within_poolSize Current RateLimiter.taskManager 100 1 true 90 demo_state H).
Defined.

Lemma stack_worker_exclusive_witness :
  reachable demo_init demo_state /\ NoDup (idle_workers demo_state ++ busy_workers demo_state).
Proof.
  assert (H : reachable demo_init demo_state) by (exists demo_events; vm_compute; reflexivity).
  split; [exact H|].
  exact (stack_worker_exclusive Current RateLimiter.taskManager 100 1 true 90 demo_state H).
Defined.

(** The second worker answers with the primitive [80]: the call gets the
    500 of the [TypeError]. *)
Lemma message_settles_its_call_witness :
  reachable demo_init demo_state /\ demo_listener ∈ listeners (threads demo_state) /\
  lcall demo_listener ∉ (settled (calls demo_state)).*1 /\
  exists log, settled (calls (message (lw demo_listener) (JPrimitive 80) demo_state)) =
    settled (calls demo_state) ++
      [(lcall demo_listener,
        if is_object (JPrimitive 80) || bool_decide (version demo_state = Copy1)
        then ROk (lstatus demo_listener) (JPrimitive 80) log (lcap demo_listener)
        else RFail 500 ETypeError)].
Proof.
  assert (H : reachable demo_init demo_state) by (exists demo_events; vm_compute; reflexivity).
  assert (Hl : demo_listener ∈ listeners (threads demo_state))
    by (by_vm_decide).
  assert (Hn : lcall demo_listener ∉ (settled (calls demo_state)).*1)
    by (by_vm_decide).
  split_and!; [exact H|exact Hl|exact Hn|].
  exact (message_settles_its_call Current RateLimiter.taskManager 100 1 true 90
           demo_state demo_listener (JPrimitive 80) H Hl Hn).
Defined.

Lemma rate_refusal_is_advisory_witness :
  gate_check 0 (gate (globals pair_state)) = (false, gate (globals pair_state)) /\
  pool (this pair_state) = [mkWorkerObject 2 1] /\
  getMem (version pair_state) (freeMemoryAvailable (globals pair_state))
    (memThreshold (this pair_state)) 100 = inr (Some true) /\
  1%nat ∈ live (threads pair_state) /\
  listeners (threads (run 0 100 9 true pair_state)) =
    listeners (threads pair_state) ++ [mkListener 1 (next_call (calls pair_state)) (mkWorkerObject 2 1) 429 (Some true)] /\
  inflight (threads (run 0 100 9 true pair_state)) = inflight (threads pair_state) ++ [(1%nat, 9)].
Proof.
  assert (Hg : gate_check 0 (gate (globals pair_state)) = (false, gate (globals pair_state)))
    by (vm_compute; reflexivity).
  assert (Hp : pool (this pair_state) = [mkWorkerObject 2 1]) by (vm_compute; reflexivity).
  assert (Hm : getMem (version pair_state) (freeMemoryAvailable (globals pair_state))
                 (memThreshold (this pair_state)) 100 = inr (Some true)) by (vm_compute; reflexivity).
  assert (Hl : 1%nat ∈ live (threads pair_state))
    by (by_vm_decide).
  split_and!; try assumption;
    apply (rate_refusal_is_advisory pair_state 0 100 9 (mkWorkerObject 2 1) [] (Some true) _ Hg Hp Hm Hl).
Defined.

Lemma capacity_rejection_leaks_worker_witness :
  reachable demo_init demo_init /\ pool (this demo_init) = [mkWorkerObject 1 0] /\
  0%nat ∈ live (threads demo_init) /\
  getMem (version demo_init) (freeMemoryAvailable (globals demo_init))
    (memThreshold (this demo_init)) 5 = inl MemGate.capacity_error /\
  settled (calls (run 0 5 7 true demo_init)) =
    settled (calls demo_init) ++ [(next_call (calls demo_init), RFail 503 (ECustom MemGate.capacity_error))] /\
  0%nat ∈ leaked (run 0 5 7 true demo_init).
Proof.
  assert (H : reachable demo_init demo_init) by (exists []; reflexivity).
  assert (Hp : pool (this demo_init) = [mkWorkerObject 1 0]) by (vm_compute; reflexivity).
  assert (Hl : 0%nat ∈ live (threads demo_init))
    by (by_vm_decide).
  assert (Hm : getMem (version demo_init) (freeMemoryAvailable (globals demo_init))
                 (memThreshold (this demo_init)) 5 = inl MemGate.capacity_error)
    by (vm_compute; reflexivity).
  pose proof (capacity_rejection_leaks_worker Current RateLimiter.taskManager 100 1 true 90
                demo_init (mkWorkerObject 1 0) [] _ 0 5 7 true H Hp Hl Hm) as [H1 H2].
  split_and!; assumption.
Defined.

Lemma run_never_terminates_workers_witness :
  0%nat ∈ live (threads demo_init) /\
  0%nat ∈ live (threads (run 0 100 7 true demo_init)) /\
  0%nat ∈ live (threads (message 0 (JObject 70) demo_init)).
Proof.
  assert (Hl : 0%nat ∈ live (threads demo_init))
    by (by_vm_decide).
  split; [exact Hl|]. exact (run_never_terminates_workers demo_init 0 0 100 7 true 0 (JObject 70) Hl).
Defined.

Definition empty_init : W := init Current RateLimiter.taskManager 100 0 true 90.

Lemma nonpositive_poolSize_starves_witness :
  pool (this empty_init) = [] /\
  (poolSize (this empty_init) <= 0 ->
     (forall fuel, wait_pool fuel empty_init = None) /\
     halted (run 0 100 7 true empty_init) = Some Starved).
Proof.
  assert (Hp : pool (this empty_init) = []) by (vm_compute; reflexivity).
  split; [exact Hp|].
  exact (proj2 (nonpositive_poolSize_starves empty_init 0 100 7 true Hp)).
Defined.

(** The worker of a running task fails: in [src/index.js] the call gets
    500. *)
Definition failing_state : W := default demo_init (exec demo_init [Run 0 100 7 true]).
Definition failing_listener : Listener := mkListener 0 0 (mkWorkerObject 1 0) 200 (Some true).

Lemma worker_error_outcome_witness :
  reachable demo_init failing_state /\ failing_listener ∈ listeners (threads failing_state) /\
  lcall failing_listener ∉ (settled (calls failing_state)).*1 /\
  (lcall failing_listener, RFail 500 (EWorkerFailed (wid (litem failing_listener))))
    ∈ settled (calls (workerError (lw failing_listener) failing_state)) /\
  halted (workerError (lw failing_listener) failing_state) = halted failing_state.
Proof.
  assert (H : reachable demo_init failing_state)
    by (exists [Run 0 100 7 true]; vm_compute; reflexivity).
  assert (Hl : failing_listener ∈ listeners (threads failing_state)) by (by_vm_decide).
  assert (Hn : lcall failing_listener ∉ (settled (calls failing_state)).*1) by (by_vm_decide).
  refine (conj H (conj Hl (conj Hn _))).
  exact (worker_error_outcome Current RateLimiter.taskManager 100 1 true 90
           failing_state failing_listener H Hl Hn).
Defined.

Definition copy1_init : W := init Copy1 RateLimiter.taskManager 100 1 true 90.
Definition copy1_events : list E := [Run 0 100 7 true; Message 0 (JObject 70)].
Definition copy1_state : W := default copy1_init (exec copy1_init copy1_events).
Definition copy1_reply : Response JsReply := ROk 200 (JObject 70) (Some (mkLog 1 1 1)) None.

Lemma entryTask_copy_never_rejects_witness :
  reachable copy1_init copy1_state /\ (0%nat, copy1_reply) ∈ settled (calls copy1_state) /\
  exists st d log, copy1_reply = ROk st d log None.
Proof.
  assert (H : reachable copy1_init copy1_state) by (exists copy1_events; vm_compute; reflexivity).
  assert (Hs : settled (calls copy1_state) = [(0%nat, copy1_reply)]) by (vm_compute; reflexivity).
  assert (Hin : (0%nat, copy1_reply) ∈ settled (calls copy1_state))
    by (rewrite Hs; apply list_elem_of_singleton; reflexivity).
  split_and!; [exact H|exact Hin|].
  exact (entryTask_copy_never_rejects RateLimiter.taskManager 100 1 true 90 copy1_state H 0%nat copy1_reply Hin).
Defined.

Definition demo_reply : Response JsReply := ROk 200 (JObject 70) (Some (mkLog 1 1 1)) (Some true).

Lemma run_answers_known_statuses_witness :
  reachable demo_init demo_state /\ (0%nat, demo_reply) ∈ settled (calls demo_state) /\
  status_ok demo_reply.
Proof.
  assert (H : reachable demo_init demo_state) by (exists demo_events; vm_compute; reflexivity).
  assert (Hs : settled (calls demo_state) = [(0%nat, demo_reply)]) by (vm_compute; reflexivity).
  assert (Hin : (0%nat, demo_reply) ∈ settled (calls demo_state))
    by (rewrite Hs; apply list_elem_of_singleton; reflexivity).
  split_and!; [exact H|exact Hin|].
  exact (run_answers_known_statuses Current RateLimiter.taskManager 100 1 true 90
           demo_state H 0%nat demo_reply Hin).
Defined.

Lemma run_then_reply_returns_worker_witness :
  reachable demo_init demo_init /\ pool (this demo_init) = [mkWorkerObject 1 0] /\
  getMem (version demo_init) (freeMemoryAvailable (globals demo_init))
    (memThreshold (this demo_init)) 100 = inr (Some true) /\
  0%nat ∈ live (threads demo_init) /\
  pool (this (message 0 (JObject 70) (run 0 100 7 true demo_init))) = [] ++ [mkWorkerObject 1 0].
Proof.
  assert (H : reachable demo_init demo_init) by (exists []; reflexivity).
  assert (Hp : pool (this demo_init) = [mkWorkerObject 1 0]) by (vm_compute; reflexivity).
  assert (Hm : getMem (version demo_init) (freeMemoryAvailable (globals demo_init))
                 (memThreshold (this demo_init)) 100 = inr (Some true))
    by (vm_compute; reflexivity).
  assert (Hl : 0%nat ∈ live (threads demo_init)) by (by_vm_decide).
  refine (conj H (conj Hp (conj Hm (conj Hl _)))).
  exact (run_then_reply_returns_worker Current RateLimiter.taskManager 100 1 true 90
           demo_init 0 100 7 (mkWorkerObject 1 0) [] (Some true) (JObject 70) H Hp Hm Hl).
Defined.

End Runs.

End StackPool.
