(* ===== verification/RoundRobin.v ===== *)
(** * The round-robin pool: the second [WorkerPool] of [src/unnamed/part_001]

    Lines 305-497 of [part_001] hold a design in which workers are never
    taken out of the pool: [run] (lines 381-410) picks [pool[workerIndex]],
    reads the free memory with [checkMemCapacity] (lines 412-422, it never
    throws), moves [workerIndex] on with [nextWorker] (lines 373-379) only
    when the chosen worker already has five pending [message] listeners,
    and [executeWorker] (lines 454-472) attaches one [once('message')]
    listener per task to that worker and posts the task.  Several tasks can
    thus wait on one worker, each with its own listener: when the worker
    answers, Node's [emit] calls every listener registered at that moment,
    so all of them resolve with the first reply.  When the pool is empty,
    [run] awaits [addWorkerToPool] (lines 434-452), which pushes the new
    worker when it is [online]; the constructor's [buildPool] (lines
    424-432) does the same [poolSize] times in sequence.

    The world keeps the pool object, the threads with their pending
    listeners and posted tasks, the continuations waiting for an [online]
    event, and the settled calls.  Each event is one macrotask with its
    microtasks. *)

From stdpp Require Import base list options sets infinite.
From Stdlib Require Import ZArith Lia.
From S2P Require Import Prelude MemGate.

Open Scope Z_scope.

Module RoundRobin.

(** [{ id: workerId, worker }] with the id [`-${n}-`] kept as [n]. *)
Record WorkerObject := mkWorkerObject { wid : nat; worker : nat }.

(** [createLog(id, freeMemPercentage)] (lines 475-484); the RSS and heap
    figures of [process.memoryUsage()] are not modelled. *)
Record Log := mkLog { log_worker : nat; poolLength : nat; freeMemPercentage : Z }.

(** What [run] rejects with: the [CustomError] built in its [catch]
    (status [|| 503]), the [CustomError(.., 300)] of [addWorkerToPool], or
    the [TypeError] of destructuring an undefined [pool[workerIndex]]. *)
Inductive RunError := ECustom (status : Z) | ETypeError.

Inductive Halt := Crashed | Exited.

(** [checkMemCapacity] (lines 412-422): the free share of the total memory
    in percent, [toFixed(1)] then [parseInt]; the threshold test has its
    [throw] commented out. *)
Definition checkMemCapacity (totalMem freeMem : Z) : Z :=
  Z.quot (MemGate.toFixed_ratio (1000 * freeMem) totalMem) 10.

(** [this.maxListener = 11], given to [setMaxListeners]. *)
Definition maxListener : nat := 11.

Section Model.
Context {Task Data : Type}.

Inductive Response :=
| ROk (result : Data) (log : option Log)
| RErr (e : RunError).

(** One [once('message', messageListener)] of [executeWorker]: the worker,
    the [run] call it resolves, and what [run] logs after it resumes. *)
Record Listener := mkListener { lw : nat; lcall : nat; lid : nat; lpct : Z }.

#[export] Instance Listener_eq_dec : EqDecision Listener.
Proof. solve_decision. Defined.

(** A [run] call suspended in [await this.addWorkerToPool()] until the
    worker [pw] is online, with what it resumes with. *)
Record Pending := mkPending { pcall : nat; pw : nat; pid : nat; ptask : Task; pclone : bool }.

Record Pool := mkPool {
  workerIndex : nat; poolSize : Z; returnLog : bool; pool : list WorkerObject
}.

Record Threads := mkThreads {
  next_object : nat; live : list nat; listeners : list Listener;
  inflight : list (nat * Task)
}.

Record World := mkWorld {
  this : Pool;
  totalMem : Z;
  (** [buildPool]'s loop awaiting iteration [i]'s worker, with its id *)
  building : option (nat * nat * nat);
  waiting : list Pending;
  threads : Threads;
  next_call : nat;
  settled : list (nat * Response);
  halted : option Halt
}.

Definition set_this (p : Pool) (s : World) : World :=
  mkWorld p (totalMem s) (building s) (waiting s) (threads s) (next_call s) (settled s) (halted s).
Definition set_threads (th : Threads) (s : World) : World :=
  mkWorld (this s) (totalMem s) (building s) (waiting s) th (next_call s) (settled s) (halted s).
Definition set_building (b : option (nat * nat * nat)) (s : World) : World :=
  mkWorld (this s) (totalMem s) b (waiting s) (threads s) (next_call s) (settled s) (halted s).
Definition set_waiting (ws : list Pending) (s : World) : World :=
  mkWorld (this s) (totalMem s) (building s) ws (threads s) (next_call s) (settled s) (halted s).
Definition halt (h : Halt) (s : World) : World :=
  mkWorld (this s) (totalMem s) (building s) (waiting s) (threads s) (next_call s) (settled s) (Some h).

Definition set_pool (pl : list WorkerObject) (s : World) : World :=
  set_this (mkPool (workerIndex (this s)) (poolSize (this s)) (returnLog (this s)) pl) s.
Definition set_workerIndex (i : nat) (s : World) : World :=
  set_this (mkPool i (poolSize (this s)) (returnLog (this s)) (pool (this s))) s.

(** A new call number. *)
Definition new_call (s : World) : nat * World :=
  (next_call s, mkWorld (this s) (totalMem s) (building s) (waiting s) (threads s)
                   (S (next_call s)) (settled s) (halted s)).

(** [resolve] / [reject] of call [c]: a promise settles once. *)
Definition settle (c : nat) (r : Response) (s : World) : World :=
  if bool_decide (c ∈ (settled s).*1) then s
  else mkWorld (this s) (totalMem s) (building s) (waiting s) (threads s) (next_call s)
         (settled s ++ [(c, r)]) (halted s).

(** [new Worker(...)]: a fresh running thread. *)
Definition new_Worker (s : World) : nat * World :=
  let th := threads s in
  (next_object th,
   set_threads (mkThreads (S (next_object th)) (live th ++ [next_object th])
                  (listeners th) (inflight th)) s).

(** The listeners registered on worker [w], in registration order:
    [worker.listenerCount('message')] is their number. *)
Definition on_worker (w : nat) (s : World) : list Listener :=
  filter (fun l => lw l = w) (listeners (threads s)).

Definition remove_listener (l : Listener) (s : World) : World :=
  let th := threads s in
  set_threads (mkThreads (next_object th) (live th) (filter (fun l' => l' <> l) (listeners th))
                 (inflight th)) s.

(** [worker.removeAllListeners('message')]. *)
Definition remove_all (w : nat) (s : World) : World :=
  let th := threads s in
  set_threads (mkThreads (next_object th) (live th) (filter (fun l' => lw l' <> w) (listeners th))
                 (inflight th)) s.

(** [worker.terminate()] and the exit of a failed thread. *)
Definition terminate (w : nat) (s : World) : World :=
  let th := threads s in
  set_threads (mkThreads (next_object th) (filter (fun x => x <> w) (live th)) (listeners th)
                 (filter (fun m => m.1 <> w) (inflight th))) s.

(** ** The handlers *)

(** [addWorkerToPool()] up to its [await] (lines 434-452): the worker is
    created and named after the current pool length; the push happens in
    its [online] listener. *)
Definition addWorkerToPool (s : World) : nat * nat * World :=
  let '(w, s) := new_Worker s in
  (w, S (length (pool (this s))), s).

(** [nextWorker()] (lines 373-379). *)
Definition nextWorker (s : World) : World :=
  let i := S (workerIndex (this s)) in
  set_workerIndex (if bool_decide (length (pool (this s)) <= i)%nat then 0%nat else i) s.

(** [executeWorker(worker, task, id)] (lines 454-472): a [once] listener,
    then [postMessage]; a task that cannot be cloned makes [postMessage]
    throw, the listener is removed and the call rejects; [run]'s [catch]
    turns the plain [Error] into status 503. *)
Definition executeWorker (it : WorkerObject) (c : nat) (pct : Z) (task : Task)
    (cloneable : bool) (s : World) : World :=
  let l := mkListener (worker it) c (wid it) pct in
  let th := threads s in
  let s := set_threads (mkThreads (next_object th) (live th) (listeners th ++ [l]) (inflight th)) s in
  if cloneable then
    let th := threads s in
    if bool_decide (worker it ∈ live th)
    then set_threads (mkThreads (next_object th) (live th) (listeners th)
                        (inflight th ++ [(worker it, task)])) s
    else s
  else settle c (RErr (ECustom 503)) (remove_listener l s).

(** The part of [run] after the pool is known not to be empty (lines
    383-400): [pool[workerIndex]], [checkMemCapacity], the listener count
    test and [nextWorker], then [executeWorker] on the worker chosen
    first. *)
Definition run_body (c : nat) (freeMem : Z) (task : Task) (cloneable : bool) (s : World) : World :=
  match pool (this s) !! workerIndex (this s) with
  | None => settle c (RErr ETypeError) s
  | Some it =>
      let pct := checkMemCapacity (totalMem s) freeMem in
      let s := if bool_decide (5 <= length (on_worker (worker it) s))%nat then nextWorker s else s in
      executeWorker it c pct task cloneable s
  end.

(** [run(task)] (lines 381-410). *)
Definition run (freeMem : Z) (task : Task) (cloneable : bool) (s : World) : World :=
  let '(c, s) := new_call s in
  if bool_decide (pool (this s) = []) then
    let '(w, id, s) := addWorkerToPool s in
    set_waiting (waiting s ++ [mkPending c w id task cloneable]) s
  else run_body c freeMem task cloneable s.

(** [buildPool]'s loop (lines 424-432) at iteration [i]. *)
Definition buildPool_from (i : nat) (s : World) : World :=
  if bool_decide (Z.of_nat i < poolSize (this s)) then
    let '(w, id, s) := addWorkerToPool s in set_building (Some (i, w, id)) s
  else set_building None s.

(** The worker [w] is online: its [once('online')] listener pushes it and
    resolves; the awaiting loop or [run] resumes. *)
Definition online (w : nat) (freeMem : Z) (s : World) : World :=
  match building s with
  | Some (i, v, id) =>
      if bool_decide (v = w) then
        buildPool_from (S i) (set_pool (pool (this s) ++ [mkWorkerObject id w]) s)
      else
        match list_find (fun p => pw p = w) (waiting s) with
        | Some (k, p) =>
            run_body (pcall p) freeMem (ptask p) (pclone p)
              (set_waiting (delete k (waiting s)) (set_pool (pool (this s) ++ [mkWorkerObject (pid p) w]) s))
        | None => s
        end
  | None =>
      match list_find (fun p => pw p = w) (waiting s) with
      | Some (k, p) =>
          run_body (pcall p) freeMem (ptask p) (pclone p)
            (set_waiting (delete k (waiting s)) (set_pool (pool (this s) ++ [mkWorkerObject (pid p) w]) s))
      | None => s
      end
  end.

(** [messageListener] (lines 456-463) of [l] when [w] emits: the [once]
    wrapper has removed [l]; more than [maxListener] left clears them all;
    then [resolve(data)], and [run] returns [{ result, log }]. *)
Definition messageListener (l : Listener) (data : Data) (s : World) : World :=
  let s := remove_listener l s in
  let s := if bool_decide (maxListener <= length (on_worker (lw l) s))%nat
           then remove_all (lw l) s else s in
  let log := if returnLog (this s)
             then Some (mkLog (lid l) (length (pool (this s))) (lpct l)) else None in
  settle (lcall l) (ROk data log) s.

(** The thread [w] answers its oldest posted task: [emit] calls every
    listener registered at that moment, in order. *)
Definition message (w : nat) (data : Data) (s : World) : World :=
  let ls := on_worker w s in
  let th := threads s in
  let s := set_threads (mkThreads (next_object th) (live th) (listeners th)
             (match list_find (fun m => m.1 = w) (inflight th) with
              | Some (i, _) => delete i (inflight th)
              | None => inflight th
              end)) s in
  foldl (fun s l => messageListener l data s) s ls.

(** The thread [w] fails: the error listener of [addWorkerToPool] rejects
    its promise (lines 445-447); if [run] was awaiting it, [run] rejects
    with status 300; if [buildPool] was, its [catch] throws and the
    rejection is unhandled, which stops the process.  The thread exits. *)
Definition workerError (w : nat) (s : World) : World :=
  let s :=
    match building s with
    | Some (_, v, _) => if bool_decide (v = w) then halt Crashed s else s
    | None => s
    end in
  let s :=
    match list_find (fun p => pw p = w) (waiting s) with
    | Some (k, p) => settle (pcall p) (RErr (ECustom 300)) (set_waiting (delete k (waiting s)) s)
    | None => s
    end in
  terminate w s.

(** [terminateAllWorkers] (lines 486-494). *)
Fixpoint terminateAll_loop (fuel : nat) (s : World) : World :=
  match fuel with
  | O => s
  | S f =>
      match js_pop (pool (this s)) with
      | (Some it, rest) => terminateAll_loop f (terminate (worker it) (set_pool rest s))
      | (None, _) => s
      end
  end.

Definition terminateAllWorkers (s : World) : World :=
  terminateAll_loop (length (pool (this s))) s.

(** [new WorkerPool(poolSize, workerFilePath, returnLog, minPercentage)]
    (lines 342-363) with [os.totalmem()] at module load. *)
Definition init (totalMem : Z) (poolSize : Z) (returnLog : bool) : World :=
  buildPool_from 0 (mkWorld (mkPool 0 poolSize returnLog []) totalMem None []
                      (mkThreads 0 [] [] []) 0 [] None).

Inductive Event :=
| Run (freeMem : Z) (task : Task) (cloneable : bool)
| Online (w : nat) (freeMem : Z)
| Message (w : nat) (data : Data)
| WorkerError (w : nat)
| Exit.

Definition step (s : World) (e : Event) : World :=
  match e with
  | Run fm t ok => run fm t ok s
  | Online w fm => online w fm s
  | Message w d => message w d s
  | WorkerError w => workerError w s
  | Exit => halt Exited (terminateAllWorkers s)
  end.

(** A thread comes online once, while awaited; it answers only tasks
    posted to it; only running threads fail. *)
Definition awaited (s : World) : list nat :=
  match building s with Some (_, v, _) => [v] | None => [] end ++ (pw <$> waiting s).

Definition enabled (s : World) (e : Event) : bool :=
  match halted s with
  | Some _ => false
  | None =>
      match e with
      | Run _ _ _ | Exit => true
      | Online w _ => bool_decide (w ∈ awaited s /\ w ∈ live (threads s))
      | Message w _ => bool_decide (w ∈ (inflight (threads s)).*1)
      | WorkerError w => bool_decide (w ∈ live (threads s))
      end
  end.

#[export] Instance rr_system : EventSystem World Event := {
  es_step := step;
  es_enabled := enabled
}.

End Model.

Arguments Response : clear implicits.
Arguments World : clear implicits.
Arguments Event : clear implicits.
#[export] Existing Instance Listener_eq_dec.
#[export] Existing Instance rr_system.

(** Reduce the record updates of the handlers to their fields. *)
Ltac rr_simpl := unfold remove_listener, remove_all, terminate, new_call, set_pool,
  set_workerIndex, set_this, set_threads, set_building, set_waiting, halt in *;
  cbn [this threads building waiting totalMem next_call settled halted pool workerIndex
       poolSize returnLog listeners live inflight next_object fst snd] in *.

(** ** The invariant

    Every call is in exactly one place: waiting for a worker to come
    online, listening on a worker, or settled; all call numbers are below
    the counter; [workerIndex] points into the pool (it is 0 while the pool
    is still empty); and the [TypeError] of an undefined
    [pool[workerIndex]] never happens. *)

Section Invariant.
Context {Task Data : Type}.
Implicit Types s : World Task Data.

Definition open_calls s : list nat :=
  (lcall <$> listeners (threads s)) ++ (pcall <$> waiting s).

Definition calls s : list nat := open_calls s ++ (settled s).*1.

(** The calls [extra], taken out of the world for the moment, and those of
    the world are distinct and below the counter. *)
Definition calls_ok (extra : list nat) s : Prop :=
  NoDup (extra ++ calls s) /\ Forall (fun c => c < next_call s)%nat (extra ++ calls s).

Definition index_ok s : Prop :=
  (workerIndex (this s) < length (pool (this s)))%nat \/
  (workerIndex (this s) = 0%nat /\ pool (this s) = []).

Record wf s : Prop := {
  wf_calls : calls_ok [] s;
  wf_index : halted s = None -> index_ok s;
  wf_no_type_error : forall c, (c, RErr ETypeError) ∉ settled s
}.

Lemma calls_ok_perm e e' s s' :
  e' ++ calls s' ≡ₚ e ++ calls s -> (next_call s <= next_call s')%nat ->
  calls_ok e s -> calls_ok e' s'.
Proof.
  intros Hp Hn [Hd Hb]. split; rewrite Hp; [done|].
  eapply Forall_impl; [exact Hb|]. simpl. lia.
Qed.

Lemma settle_calls c r e s :
  calls_ok (c :: e) s -> calls_ok e (settle c r s).
Proof.
  intros Hok. unfold settle. case_bool_decide as Hin.
  - destruct Hok as [Hd _]. apply NoDup_cons in Hd as [Hd _].
    exfalso. apply Hd. apply elem_of_app. right. unfold calls. apply elem_of_app. by right.
  - apply (calls_ok_perm (c :: e) e s); [|simpl; lia|exact Hok]. unfold calls, open_calls. simpl.
    rewrite fmap_app. simpl. solve_Permutation.
Qed.

Lemma settle_no_type_error c r s :
  r <> RErr ETypeError -> (forall c', (c', RErr ETypeError) ∉ settled s) ->
  forall c', (c', RErr ETypeError) ∉ settled (settle c r s).
Proof.
  intros Hr Ht c'. unfold settle. case_bool_decide; [done|]. simpl.
  intros [Hs|Hs%list_elem_of_singleton]%elem_of_app; [by apply (Ht c')|congruence].
Qed.

Lemma settle_this c r s : this (settle c r s) = this s.
Proof. unfold settle. by case_bool_decide. Qed.

Lemma settle_halted c r s : halted (settle c r s) = halted s.
Proof. unfold settle. by case_bool_decide. Qed.

Lemma settle_next c r s : next_call (settle c r s) = next_call s.
Proof. unfold settle. by case_bool_decide. Qed.

(** ** What [message] does

    [reply d s l] is what the call of listener [l] resolves with when the
    worker answers [d]: [run] returns [{ result, log }] with the log built
    from the pool as it is then. *)
Definition reply (d : Data) s (l : Listener) : nat * Response Data :=
  (lcall l, ROk d (if returnLog (this s)
                   then Some (mkLog (lid l) (length (pool (this s))) (lpct l)) else None)).

(** The world [s] with its listeners and settled calls replaced. *)
Definition with_LS s (L : list Listener) (S : list (nat * Response Data)) : World Task Data :=
  mkWorld (this s) (totalMem s) (building s) (waiting s)
    (mkThreads (next_object (threads s)) (live (threads s)) L (inflight (threads s)))
    (next_call s) S (halted s).

Lemma messageListener_LS l d s L S :
  messageListener l d (with_LS s L S) =
  let L1 := filter (fun x => x <> l) L in
  with_LS s (if bool_decide (maxListener <= length (filter (fun x => lw x = lw l) L1))%nat
             then filter (fun x => lw x <> lw l) L1 else L1)
            (if bool_decide (lcall l ∈ S.*1) then S else S ++ [reply d s l]).
Proof.
  unfold messageListener, on_worker, with_LS. rr_simpl.
  unfold settle. cbv zeta. rr_simpl. repeat case_bool_decide; done.
Qed.

Lemma reply_fst d s (ls : list Listener) : (reply d s <$> ls).*1 = lcall <$> ls.
Proof. rewrite <-list_fmap_compose. reflexivity. Qed.

(** The listeners of [rest] are called in turn; [keep] are those still
    registered (a [removeAllListeners] may have dropped them). *)
Lemma message_fold w d s L0 done rest (keep : list Listener) :
  NoDup (lcall <$> done ++ rest) ->
  (forall l, l ∈ done ++ rest -> lw l = w /\ lcall l ∉ (settled s).*1) ->
  (forall l, l ∈ keep -> l ∈ rest) ->
  foldl (fun s' l => messageListener l d s')
    (with_LS s (filter (fun l => lw l <> w \/ l ∈ keep) L0) (settled s ++ (reply d s <$> done))) rest
  = with_LS s (filter (fun l => lw l <> w) L0) (settled s ++ (reply d s <$> done ++ rest)).
Proof.
  induction rest as [|l rest IH] in done, keep |- *; intros Hnd Hl Hk.
  - rewrite app_nil_r. simpl. f_equal. apply list_filter_iff. intros x.
    split; [|by left]. intros [?|Hx]; [done|]. by apply Hk, elem_of_nil in Hx.
  - cbn [foldl]. rewrite messageListener_LS. cbn zeta.
    destruct (Hl l) as [Hw Hs]; [apply elem_of_app; right; left|].
    rewrite (cons_middle l done rest), app_assoc in Hnd, Hl |- *.
    rewrite (bool_decide_false (lcall l ∈ _)); last first.
    { rewrite fmap_app, reply_fst. intros [?|Hd]%elem_of_app; [done|].
      rewrite !fmap_app in Hnd. apply NoDup_app in Hnd as [Hnd _].
      apply NoDup_app in Hnd as [_ [Hdis _]]. apply (Hdis (lcall l)); [done|left]. }
    rewrite <-app_assoc. change [reply d s l] with (reply d s <$> [l]).
    rewrite <-fmap_app, Hw.
    assert (Hf : filter (fun x => x <> l) (filter (fun x => lw x <> w \/ x ∈ keep) L0) =
                 filter (fun x => lw x <> w \/ x ∈ filter (fun y => y <> l) keep) L0).
    { rewrite list_filter_filter. apply list_filter_iff. intros x.
      rewrite list_elem_of_filter. split.
      - intros [Hne [?|?]]; [by left|by right].
      - intros [Hx|[Hne Hx]]; (split; [intros ->; congruence|]); [by left|by right]. }
    assert (Hk' : forall x, x ∈ filter (fun y => y <> l) keep -> x ∈ rest).
    { intros x [Hne Hx]%list_elem_of_filter. apply Hk in Hx.
      apply elem_of_cons in Hx as [->|]; [contradiction|done]. }
    rewrite Hf. case_bool_decide; [|by apply IH].
    assert (Hf2 : filter (fun x => lw x <> w)
                    (filter (fun x => lw x <> w \/ x ∈ filter (fun y => y <> l) keep) L0) =
                  filter (fun x => lw x <> w \/ x ∈ ([] : list Listener)) L0).
    { rewrite list_filter_filter. apply list_filter_iff. intros x. rewrite elem_of_nil. tauto. }
    rewrite Hf2. apply IH; [done|done|]. intros x Hx. by apply elem_of_nil in Hx.
Qed.

(** When [w] answers with [d], every call listening on [w] resolves with
    [d], in registration order, and [w] keeps no listener. *)
Lemma message_LS w d s :
  NoDup (lcall <$> on_worker w s) ->
  (forall l, l ∈ on_worker w s -> lcall l ∉ (settled s).*1) ->
  exists th, th `sublist_of` inflight (threads s) /\ message w d s =
    mkWorld (this s) (totalMem s) (building s) (waiting s)
      (mkThreads (next_object (threads s)) (live (threads s))
         (filter (fun l => lw l <> w) (listeners (threads s))) th)
      (next_call s) (settled s ++ (reply d s <$> on_worker w s)) (halted s).
Proof.
  intros Hnd Hs. unfold message.
  set (th := match list_find _ _ with Some _ => _ | None => _ end).
  exists th. split.
  { unfold th. destruct (list_find _ _) as [[i m]|]; [apply sublist_delete|done]. }
  set (s1 := set_threads _ s).
  assert (Hs1 : s1 = with_LS s1 (filter (fun l => lw l <> w \/ l ∈ on_worker w s)
                                   (listeners (threads s))) (settled s1 ++ (reply d s1 <$> []))).
  { rewrite filter_all_true.
    - rewrite app_nil_r. by destruct s as [? ? ? ? [] ? ? ?].
    - apply Forall_forall. intros x Hx. destruct (decide (lw x = w)) as [Hw|]; [right|by left].
      apply list_elem_of_filter. by split. }
  rewrite Hs1. apply (message_fold w d s1 _ [] (on_worker w s) (on_worker w s)); [done| |done].
  intros l Hl. split; [by apply list_elem_of_filter in Hl as [? _]|]. by apply Hs.
Qed.

(** ** Preservation of the invariant *)

Lemma filter_drop_last (L : list Listener) l : l ∉ L -> filter (fun x => x <> l) (L ++ [l]) = L.
Proof.
  intros Hl. rewrite filter_app, filter_cons_False, filter_nil, app_nil_r by tauto.
  apply filter_all_true, Forall_forall. intros x Hx ->. contradiction.
Qed.

Lemma executeWorker_frame it c pct t ok s :
  this (executeWorker it c pct t ok s) = this s /\ halted (executeWorker it c pct t ok s) = halted s.
Proof.
  unfold executeWorker. destruct ok; [case_bool_decide; rr_simpl; done|].
  by rewrite settle_this, settle_halted.
Qed.

Lemma executeWorker_calls it c pct t ok e s :
  calls_ok (c :: e) s -> calls_ok e (executeWorker it c pct t ok s).
Proof.
  intros Hok. unfold executeWorker.
  set (l := mkListener (worker it) c (wid it) pct).
  destruct ok.
  - apply (calls_ok_perm (c :: e) e s); [|by case_bool_decide|done].
    unfold calls, open_calls. case_bool_decide; rr_simpl; rewrite fmap_app; solve_Permutation.
  - assert (Hl : l ∉ listeners (threads s)).
    { intros Hin. destruct Hok as [Hd _]. apply NoDup_cons in Hd as [Hd _].
      apply Hd, elem_of_app. right. unfold calls, open_calls.
      do 2 (apply elem_of_app; left). change c with (lcall l). by apply list_elem_of_fmap_2. }
    apply settle_calls. apply (calls_ok_perm (c :: e) _ s); [|done|done].
    unfold calls, open_calls. rr_simpl. by rewrite filter_drop_last.
Qed.

Lemma executeWorker_no_type_error it c pct t ok s :
  (forall c', (c', RErr ETypeError) ∉ settled s) ->
  forall c', (c', RErr ETypeError) ∉ settled (executeWorker it c pct t ok s).
Proof.
  intros Ht. unfold executeWorker. destruct ok; [case_bool_decide; rr_simpl; done|].
  apply settle_no_type_error; [done|]. exact Ht.
Qed.

Lemma nextWorker_index s : pool (this s) <> [] -> index_ok (nextWorker s).
Proof.
  intros Hne. left. unfold nextWorker. rr_simpl. destruct (pool (this s)) as [|x p]; [done|].
  simpl. case_bool_decide; lia.
Qed.

(** [run] after the pool check, in a world where the call [c] is fresh,
    [workerIndex] is in range and the pool is not empty: [pool[workerIndex]]
    is defined. *)
Lemma run_body_wf c fm t ok s :
  calls_ok [c] s -> index_ok s -> pool (this s) <> [] ->
  (forall c', (c', RErr ETypeError) ∉ settled s) -> wf (run_body c fm t ok s).
Proof.
  intros Hc Hi Hne Ht. unfold run_body.
  destruct (pool (this s) !! workerIndex (this s)) as [it|] eqn:Hit; last first.
  { apply lookup_ge_None in Hit. destruct Hi as [?|[_ ?]]; [lia|done]. }
  set (s1 := if bool_decide _ then nextWorker s else s).
  assert (Hi1 : index_ok s1 /\ calls_ok [c] s1 /\ pool (this s1) = pool (this s) /\
                (forall c', (c', RErr ETypeError) ∉ settled s1)).
  { unfold s1. case_bool_decide; [|done]. split; [by apply nextWorker_index|].
    unfold nextWorker in *. rr_simpl. done. }
  destruct Hi1 as (Hi1 & Hc1 & Hp1 & Ht1).
  destruct (executeWorker_frame it c (checkMemCapacity (totalMem s) fm) t ok s1) as [Hth Hh].
  constructor.
  - by apply executeWorker_calls.
  - intros _. unfold index_ok. by rewrite Hth.
  - by apply executeWorker_no_type_error.
Qed.

Lemma on_worker_facts w s :
  calls_ok [] s ->
  NoDup (lcall <$> on_worker w s) /\ (forall l, l ∈ on_worker w s -> lcall l ∉ (settled s).*1).
Proof.
  intros [Hd _]. unfold calls, open_calls in Hd. simpl in Hd.
  rewrite <-app_assoc in Hd. apply NoDup_app in Hd as (HL & Hdis & _). split.
  - eapply sublist_NoDup; [exact HL|]. apply fmap_sublist, sublist_filter.
  - intros l Hl Hs. apply (Hdis (lcall l)); [|by apply elem_of_app; right].
    apply list_elem_of_fmap_2. by apply list_elem_of_filter in Hl as [_ ?].
Qed.

Lemma message_rr_wf w d s : wf s -> wf (message w d s).
Proof.
  intros [Hc Hi Ht]. destruct (on_worker_facts w s Hc) as [Hnd Hs].
  destruct (message_LS w d s Hnd Hs) as (th & _ & ->). constructor; simpl.
  - apply (calls_ok_perm [] [] s); [|done|done]. unfold calls, open_calls. simpl.
    rewrite fmap_app, reply_fst.
    rewrite <-(filter_app_complement (fun l => lw l = w) (listeners (threads s))) at 2.
    unfold on_worker. rewrite fmap_app. solve_Permutation.
  - exact Hi.
  - intros c [Hin|Hin]%elem_of_app; [by apply (Ht c)|].
    apply list_elem_of_fmap in Hin as (l & Heq & _). discriminate.
Qed.

Lemma wf_frame s s' :
  calls s' = calls s -> next_call s' = next_call s -> settled s' = settled s ->
  (halted s' = None -> index_ok s') -> wf s -> wf s'.
Proof.
  intros Hc Hn Hs Hi [[Hd Hb] _ Ht]. constructor; [|done|by rewrite Hs].
  split; rewrite Hc, ?Hn; done.
Qed.

Lemma push_index x s : index_ok s -> index_ok (set_pool (pool (this s) ++ [x]) s).
Proof.
  unfold index_ok. rr_simpl. rewrite length_app. simpl. intros [?|[-> ->]]; left; simpl; lia.
Qed.

Lemma waiting_delete_calls k p s :
  calls_ok [] s -> waiting s !! k = Some p ->
  calls_ok [pcall p] (set_waiting (delete k (waiting s)) s).
Proof.
  intros Hok Hk. apply (calls_ok_perm [] _ s); [|done|done].
  unfold calls, open_calls. rr_simpl. rewrite (delete_Permutation (waiting s) k p Hk) at 2.
  simpl. solve_Permutation.
Qed.

Lemma new_call_calls s : calls_ok [] s -> calls_ok [next_call s] (new_call s).2.
Proof.
  intros [Hd Hb]. simpl in Hd, Hb. split; simpl.
  - apply NoDup_cons. split; [|done]. intros Hin.
    rewrite Forall_forall in Hb. apply Hb in Hin. lia.
  - constructor; [lia|]. eapply Forall_impl; [exact Hb|]. simpl. lia.
Qed.

Lemma buildPool_from_rr_wf i s : wf s -> wf (buildPool_from i s).
Proof.
  intros Hw. unfold buildPool_from, addWorkerToPool, new_Worker.
  case_bool_decide; (eapply wf_frame; [..|exact Hw]); rr_simpl; try done;
    intros Hh; by apply (wf_index s Hw).
Qed.

Lemma run_rr_wf fm t ok s : halted s = None -> wf s -> wf (run fm t ok s).
Proof.
  intros Hh Hw. pose proof (new_call_calls s (wf_calls s Hw)) as Hc.
  unfold run. destruct (new_call s) as [c s1] eqn:Hs1.
  unfold new_call in Hs1. injection Hs1 as <- <-.
  pose proof (wf_index s Hw Hh) as Hi. pose proof (wf_no_type_error s Hw) as Ht.
  case_bool_decide as Hp; [|by apply run_body_wf].
  unfold addWorkerToPool, new_Worker. simpl. constructor.
  - apply (calls_ok_perm [next_call s] [] (new_call s).2); [|done|done].
    unfold calls, open_calls. rr_simpl. rewrite fmap_app. simpl. solve_Permutation.
  - intros _. exact Hi.
  - exact Ht.
Qed.

(** The resumption of the [run] call [p], suspended until its worker came
    online, once the worker is pushed. *)
Lemma resume_wf k p w fm s :
  wf s -> halted s = None -> waiting s !! k = Some p ->
  wf (run_body (pcall p) fm (ptask p) (pclone p)
        (set_waiting (delete k (waiting s)) (set_pool (pool (this s) ++ [mkWorkerObject (pid p) w]) s))).
Proof.
  intros Hw Hh Hk. apply run_body_wf.
  - by apply (waiting_delete_calls k p (set_pool _ s)); [apply (wf_calls s Hw)|].
  - apply (push_index (mkWorkerObject (pid p) w) s), (wf_index s Hw Hh).
  - rr_simpl. by destruct (pool (this s)).
  - apply (wf_no_type_error s Hw).
Qed.

Lemma online_rr_wf w fm s : halted s = None -> wf s -> wf (online w fm s).
Proof.
  intros Hh Hw. unfold online.
  destruct (building s) as [[[i v] id]|].
  - case_bool_decide.
    + apply buildPool_from_rr_wf. eapply wf_frame; [..|exact Hw]; try done.
      intros _. apply push_index, (wf_index s Hw Hh).
    + destruct (list_find _ _) as [[k p]|] eqn:Hf; [|done].
      apply list_find_Some in Hf as (Hk & _ & _). by apply resume_wf.
  - destruct (list_find _ _) as [[k p]|] eqn:Hf; [|done].
    apply list_find_Some in Hf as (Hk & _ & _). by apply resume_wf.
Qed.

Lemma workerError_rr_wf w s : halted s = None -> wf s -> wf (workerError w s).
Proof.
  intros Hh Hw. unfold workerError.
  set (s1 := match building s with Some (_, v, _) => _ | None => s end).
  assert (Hw1 : wf s1 /\ this s1 = this s).
  { unfold s1. destruct (building s) as [[[? v] ?]|]; [case_bool_decide|]; try done.
    split; [|done]. eapply wf_frame; [..|exact Hw]; done. }
  destruct Hw1 as [Hw1 Hth].
  set (s2 := match list_find _ (waiting s1) with Some _ => _ | None => s1 end).
  assert (Hw2 : wf s2).
  { unfold s2. destruct (list_find _ _) as [[k p]|] eqn:Hf; [|done].
    apply list_find_Some in Hf as (Hk & _ & _). constructor.
    - apply settle_calls. by apply waiting_delete_calls; [apply (wf_calls s1 Hw1)|].
    - unfold index_ok. rewrite settle_halted, settle_this. apply (wf_index s1 Hw1).
    - apply settle_no_type_error; [done|]. apply (wf_no_type_error s1 Hw1). }
  eapply wf_frame; [..|exact Hw2]; try done. apply (wf_index s2 Hw2).
Qed.

Lemma terminateAll_loop_frame n s :
  calls (terminateAll_loop n s) = calls s /\ next_call (terminateAll_loop n s) = next_call s /\
  settled (terminateAll_loop n s) = settled s.
Proof.
  induction n as [|n IH] in s |- *; [done|]. simpl.
  destruct (js_pop (pool (this s))) as [[it|] rest]; [|done].
  edestruct IH as (-> & -> & ->). done.
Qed.

Lemma step_rr_wf s e : wf s -> enabled s e = true -> wf (step s e).
Proof.
  intros Hw He. unfold enabled in He. destruct (halted s) eqn:Hh; [done|].
  destruct e; simpl.
  - by apply run_rr_wf.
  - by apply online_rr_wf.
  - by apply message_rr_wf.
  - by apply workerError_rr_wf.
  - destruct (terminateAll_loop_frame (length (pool (this s))) s) as (Hc & Hn & Hs).
    eapply wf_frame; [..|exact Hw]; done.
Qed.

Lemma init_rr_wf tm n rl : wf (init tm n rl : World Task Data).
Proof.
  apply buildPool_from_rr_wf. constructor; simpl.
  - split; constructor.
  - intros _. by right.
  - intros c Hc. by apply elem_of_nil in Hc.
Qed.

Lemma reachable_rr_wf tm n rl s : reachable (init tm n rl : World Task Data) s -> wf s.
Proof.
  apply preserved_all_reachable; [|apply init_rr_wf].
  intros s' e Hw He _. by apply step_rr_wf.
Qed.

End Invariant.

(** ** Threads that failed

    A worker's [error] event reaches only the [error] listener of
    [addWorkerToPool], whose promise has long settled; the [message]
    listeners [executeWorker] attached stay, and the thread is gone.  The
    relation [keeps l s s'] says what every handler does to the threads:
    the listener [l] stays attached, no object id is reused, a thread that
    runs in [s'] ran in [s] or was created in between, and tasks are only
    posted to running threads. *)

Section Hang.
Context {Task Data : Type}.
Implicit Types s : World Task Data.

Definition grows s s' : Prop :=
  (next_object (threads s) <= next_object (threads s'))%nat /\
  (forall x, x ∈ live (threads s') ->
     x ∈ live (threads s) \/ (next_object (threads s) <= x < next_object (threads s'))%nat) /\
  (forall x, x ∈ (inflight (threads s')).*1 ->
     x ∈ (inflight (threads s)).*1 \/ x ∈ live (threads s) \/ (next_object (threads s) <= x)%nat).

Definition keeps (l : Listener) s s' : Prop :=
  (l ∈ listeners (threads s) -> l ∈ listeners (threads s')) /\ grows s s'.

Lemma keeps_trans l s1 s2 s3 : keeps l s1 s2 -> keeps l s2 s3 -> keeps l s1 s3.
Proof.
  unfold keeps, grows in *. intros (A1 & B1 & C1 & D1) (A2 & B2 & C2 & D2). split_and!; [auto|lia| |].
  - intros x Hx. destruct (C2 x Hx) as [H|H]; [destruct (C1 x H); [by left|right; lia]|right; lia].
  - intros x Hx. destruct (D2 x Hx) as [H|[H|H]];
      [destruct (D1 x H) as [?|[?|?]]; auto|destruct (C1 x H); [auto|right; right; lia]|right; right; lia].
Qed.

Lemma keeps_threads l s s' : threads s' = threads s -> keeps l s s'.
Proof. intros H. unfold keeps, grows. rewrite H. split_and!; auto. Qed.

Lemma keeps_settle l c r s : keeps l s (settle c r s).
Proof. apply keeps_threads. unfold settle. by case_bool_decide. Qed.

Lemma keeps_new_Worker l s : keeps l s (new_Worker s).2.
Proof.
  unfold keeps, grows, new_Worker. rr_simpl. split_and!; [auto|lia| |auto].
  intros x [?|?%list_elem_of_singleton]%elem_of_app; [by left|right; lia].
Qed.

Lemma keeps_executeWorker l it c pct t ok s :
  (l ∈ listeners (threads s) -> lcall l <> c) -> keeps l s (executeWorker it c pct t ok s).
Proof.
  intros Hc. unfold executeWorker. destruct ok.
  - unfold keeps, grows. case_bool_decide; rr_simpl; (split_and!; [intros; apply elem_of_app; by left|lia|auto|]);
      [|auto]. intros x. rewrite fmap_app. intros [?|Hx%list_elem_of_singleton]%elem_of_app; [by left|].
    simpl in Hx. subst. by right; left.
  - eapply keeps_trans; [|apply keeps_settle]. unfold keeps, grows. rr_simpl.
    split_and!; [|lia|auto|auto]. intros Hl. apply list_elem_of_filter.
    split; [|apply elem_of_app; by left].
    intros ->. by apply (Hc Hl).
Qed.

Lemma keeps_run_body l c fm t ok s :
  (l ∈ listeners (threads s) -> lcall l <> c) -> keeps l s (run_body c fm t ok s).
Proof.
  intros Hc. unfold run_body. destruct (_ !! _) as [it|]; [|apply keeps_settle].
  case_bool_decide; [|by apply keeps_executeWorker].
  eapply keeps_trans; [|by apply keeps_executeWorker].
  apply keeps_threads. by unfold nextWorker; rr_simpl.
Qed.

Lemma keeps_buildPool_from l i s : keeps l s (buildPool_from i s).
Proof.
  unfold buildPool_from, addWorkerToPool. case_bool_decide; [|by apply keeps_threads].
  destruct (keeps_new_Worker l s) as [A B]. unfold keeps, grows in *. rr_simpl. done.
Qed.

Lemma keeps_terminate l w s : keeps l s (terminate w s).
Proof.
  unfold keeps, grows. rr_simpl. split_and!; [auto|lia| |].
  - intros x [_ Hx]%list_elem_of_filter. by left.
  - intros x (m & -> & [_ Hm]%list_elem_of_filter)%list_elem_of_fmap. left.
    by apply list_elem_of_fmap_2.
Qed.

(** The calls of [wf] are distinct: a waiting call is not a listening one. *)
Lemma wf_waiting_listener s l p :
  wf s -> l ∈ listeners (threads s) -> p ∈ waiting s -> lcall l <> pcall p.
Proof.
  intros [[Hd _] _ _] Hl Hp Heq. unfold calls, open_calls in Hd. simpl in Hd.
  rewrite <-app_assoc in Hd. apply NoDup_app in Hd as (_ & Hdis & _).
  apply (Hdis (lcall l)); [by apply list_elem_of_fmap_2|].
  apply elem_of_app; left. rewrite Heq. by apply list_elem_of_fmap_2.
Qed.

Lemma wf_listener_next s l : wf s -> l ∈ listeners (threads s) -> (lcall l < next_call s)%nat.
Proof.
  intros [[_ Hb] _ _] Hl. rewrite Forall_forall in Hb. apply Hb. simpl.
  unfold calls, open_calls. rewrite <-app_assoc. apply elem_of_app; left.
  by apply list_elem_of_fmap_2.
Qed.

Lemma keeps_run l fm t ok s : wf s -> keeps l s (run fm t ok s).
Proof.
  intros Hw. unfold run, new_call. cbv zeta. case_bool_decide.
  - unfold addWorkerToPool. destruct (keeps_new_Worker l s) as [A B].
    unfold keeps, grows in *. rr_simpl. done.
  - eapply keeps_trans; [|apply keeps_run_body]; [by apply keeps_threads|].
    intros Hl Heq. pose proof (wf_listener_next s l Hw Hl). simpl in Heq. lia.
Qed.

(** The resumption of a waiting [run] call once its worker is pushed. *)
Lemma keeps_resume l k p w fm s :
  wf s -> waiting s !! k = Some p ->
  keeps l s (run_body (pcall p) fm (ptask p) (pclone p)
               (set_waiting (delete k (waiting s)) (set_pool (pool (this s) ++ [mkWorkerObject (pid p) w]) s))).
Proof.
  intros Hw Hk. eapply keeps_trans; [|apply keeps_run_body]; [by apply keeps_threads|].
  intros Hl. apply (wf_waiting_listener s l p Hw Hl). by apply list_elem_of_lookup_2 with k.
Qed.

Lemma keeps_online l w fm s : wf s -> keeps l s (online w fm s).
Proof.
  intros Hw. unfold online.
  destruct (building s) as [[[i v] id]|]; [case_bool_decide|].
  - eapply keeps_trans; [|apply keeps_buildPool_from]. by apply keeps_threads.
  - destruct (list_find _ _) as [[k p]|] eqn:Hf; [|by apply keeps_threads].
    apply list_find_Some in Hf as (Hk & _ & _). by apply keeps_resume.
  - destruct (list_find _ _) as [[k p]|] eqn:Hf; [|by apply keeps_threads].
    apply list_find_Some in Hf as (Hk & _ & _). by apply keeps_resume.
Qed.

Lemma keeps_message l w d s :
  wf s -> lw l <> w -> keeps l s (message w d s).
Proof.
  intros Hw Hne. destruct (on_worker_facts w s (wf_calls s Hw)) as [Hnd Hs].
  destruct (message_LS w d s Hnd Hs) as (th & Hth & ->). unfold keeps, grows. simpl.
  split_and!; [|lia|auto|].
  - intros Hl. by apply list_elem_of_filter.
  - intros x Hx. left. eapply elem_of_sublist; [exact Hx|]. by apply fmap_sublist.
Qed.

Lemma keeps_workerError l w s : keeps l s (workerError w s).
Proof.
  unfold workerError.
  set (s1 := match building s with Some (_, v, _) => _ | None => s end).
  assert (H1 : keeps l s s1)
    by (apply keeps_threads; unfold s1; destruct (building s) as [[[? ?] ?]|];
        [case_bool_decide|]; done).
  eapply keeps_trans; [exact H1|]. eapply keeps_trans; [|apply keeps_terminate].
  destruct (list_find _ _) as [[k p]|]; [|apply keeps_threads; reflexivity].
  eapply keeps_trans; [|apply keeps_settle]. by apply keeps_threads.
Qed.

Lemma keeps_terminateAll l n s : keeps l s (terminateAll_loop n s).
Proof.
  induction n as [|n IH] in s |- *; [by apply keeps_threads|]. simpl.
  destruct (js_pop _) as [[it|] rest]; [|by apply keeps_threads].
  eapply keeps_trans; [|apply IH]. eapply keeps_trans; [|apply keeps_terminate].
  by apply keeps_threads.
Qed.

(** Every enabled event keeps the threads in the sense of [keeps], for a
    listener whose worker has no task in flight. *)
Lemma step_keeps l s e :
  wf s -> enabled s e = true -> lw l ∉ (inflight (threads s)).*1 -> keeps l s (step s e).
Proof.
  intros Hw He Hl. unfold enabled in He. destruct (halted s); [done|].
  destruct e; simpl.
  - by apply keeps_run.
  - by apply keeps_online.
  - apply keeps_message; [done|]. intros Heq. apply bool_decide_eq_true in He.
    apply Hl. by rewrite Heq.
  - apply keeps_workerError.
  - eapply keeps_trans; [apply keeps_terminateAll|]. by apply keeps_threads.
Qed.

(** A listener left on a thread that no longer runs and has nothing in
    flight. *)
Definition hangs (l : Listener) s : Prop :=
  l ∈ listeners (threads s) /\ lw l ∉ live (threads s) /\
  lw l ∉ ((inflight (threads s)).*1) /\ (lw l < next_object (threads s))%nat.

Lemma keeps_hangs l s s' : hangs l s -> keeps l s s' -> hangs l s'.
Proof.
  intros (Hl & Hd & Hi & Hn) (Hk & Hno & Hlive & Hinf). split_and!; [auto| | |lia].
  - intros Hx. destruct (Hlive _ Hx) as [?|?]; [done|lia].
  - intros Hx. destruct (Hinf _ Hx) as [?|[?|?]]; [done|done|lia].
Qed.

Lemma hangs_exec l es s s' :
  wf s -> hangs l s -> exec s es = Some s' -> wf s' /\ hangs l s'.
Proof.
  intros Hw Hh Hex. apply (exec_preserves (fun _ => True) (fun s => wf s /\ hangs l s)
    ) with es s; [|by apply Forall_forall|done|done].
  intros s1 e [Hw1 Hh1] He _. split; [by apply step_rr_wf|].
  eapply keeps_hangs; [exact Hh1|]. apply step_keeps; [done|done|]. by destruct Hh1 as (_ & _ & ? & _).
Qed.

(** Running threads are objects already allocated. *)
Definition live_below s : Prop :=
  forall x, x ∈ live (threads s) -> (x < next_object (threads s))%nat.

Lemma step_live_below s e :
  wf s -> enabled s e = true -> live_below s -> live_below (step s e).
Proof.
  intros Hw He Hb. set (l0 := mkListener (fresh ((inflight (threads s)).*1)) 0 0 0).
  destruct (step_keeps l0 s e Hw He (infinite_is_fresh _)) as (_ & Hno & Hlive & _).
  intros x Hx. destruct (Hlive x Hx) as [Hx'|?]; [apply Hb in Hx'; lia|lia].
Qed.

Lemma reachable_live_below tm n rl s :
  reachable (init tm n rl : World Task Data) s -> live_below s.
Proof.
  intros Hr. apply (preserved_all_reachable (fun s => wf s /\ live_below s) (init tm n rl));
    [| |exact Hr].
  - intros s1 e [Hw Hb] He _. split; [by apply step_rr_wf|by apply step_live_below].
  - split; [apply init_rr_wf|]. unfold live_below, init, buildPool_from, addWorkerToPool, new_Worker.
    case_bool_decide; simpl; [|intros x Hx; by apply elem_of_nil in Hx].
    intros x ->%list_elem_of_singleton. lia.
Qed.

Lemma wf_listener_unsettled s l :
  wf s -> l ∈ listeners (threads s) -> lcall l ∉ (settled s).*1.
Proof.
  intros [[Hd _] _ _] Hl Hs. unfold calls, open_calls in Hd. simpl in Hd.
  rewrite <-app_assoc in Hd. apply NoDup_app in Hd as (_ & Hdis & _).
  apply (Hdis (lcall l)); [by apply list_elem_of_fmap_2|]. apply elem_of_app. by right.
Qed.

(** The failed thread is gone and nothing of it is in flight. *)
Lemma workerError_gone w s :
  w ∉ live (threads (workerError w s)) /\ w ∉ (inflight (threads (workerError w s))).*1.
Proof.
  unfold workerError; cbv zeta. match goal with |- context [terminate w ?x] => generalize x end.
  intros s2. rr_simpl. split.
  - by intros [? _]%list_elem_of_filter.
  - intros Hx. apply list_elem_of_fmap in Hx as (m & -> & Hx).
    by apply list_elem_of_filter in Hx as [? _].
Qed.

(** C37: a worker that fails after it came online leaves every call
    listening on it pending for ever.  The ['error'] listener of
    [addWorkerToPool] only rejects the call that is waiting for that
    worker to come online; the ['message'] listeners of [run] stay
    registered on a thread that is gone, so whatever events follow, each
    of those calls keeps its listener and is never settled. *)
Theorem failed_worker_calls_hang tm n rl s w l :
  reachable (init tm n rl : World Task Data) s -> enabled s (WorkerError w) = true ->
  l ∈ on_worker w s ->
  forall es s', exec (workerError w s) es = Some s' ->
  l ∈ listeners (threads s') /\ lcall l ∉ (settled s').*1.
Proof.
  intros Hr He Hl es s' Hex. unfold enabled in He.
  destruct (halted s) eqn:Hh; [done|]. apply bool_decide_eq_true in He.
  apply list_elem_of_filter in Hl as [Hw Hl].
  assert (Hwf : wf s) by by eapply reachable_rr_wf.
  destruct (keeps_workerError l w s) as [Hk (Hno & _)].
  destruct (workerError_gone w s) as [Hd Hi].
  assert (Hh1 : hangs l (workerError w s)).
  { subst w. split_and!; [by apply Hk|done|done|].
    pose proof (reachable_live_below _ _ _ _ Hr _ He). lia. }
  destruct (hangs_exec l es _ s' (workerError_rr_wf w s Hh Hwf) Hh1 Hex) as [Hwf' [Hl' _]].
  split; [done|]. by apply wf_listener_unsettled.
Qed.

End Hang.

(** ** Growth of the pool

    [run] on an empty pool adds a worker of its own while [buildPool]'s
    first worker is not online yet; once online, every such worker is
    pushed as well, with no bound by [poolSize]. *)

Section Growth.
Context {Task Data : Type}.
Implicit Types s : World Task Data.

(** What [run_body] keeps: the pool, the suspended calls, the threads that
    run. *)
Definition same_shape s s' : Prop :=
  pool (this s') = pool (this s) /\ poolSize (this s') = poolSize (this s) /\
  waiting s' = waiting s /\ building s' = building s /\ halted s' = halted s /\
  live (threads s') = live (threads s).

Lemma settle_shape c r s : same_shape s (settle c r s).
Proof. unfold settle, same_shape. by case_bool_decide. Qed.

Lemma executeWorker_shape it c pct t ok s : same_shape s (executeWorker it c pct t ok s).
Proof.
  unfold executeWorker. destruct ok; [case_bool_decide; rr_simpl; by unfold same_shape|].
  unfold settle, same_shape. rr_simpl. by case_bool_decide.
Qed.

Lemma run_body_shape c fm t ok s : same_shape s (run_body c fm t ok s).
Proof.
  unfold run_body. destruct (_ !! _) as [it|]; [|apply settle_shape].
  set (s1 := if bool_decide _ then nextWorker s else s).
  destruct (executeWorker_shape it c (checkMemCapacity (totalMem s) fm) t ok s1)
    as (H1 & H2 & H3 & H4 & H5 & H6).
  unfold same_shape. rewrite H1, H2, H3, H4, H5, H6.
  unfold s1. case_bool_decide; [unfold nextWorker; rr_simpl|]; done.
Qed.

Context (tm : Z) (rl : bool) (fm : Z) (t : Task).

(** The [i]-th task, waiting for worker [S i] (named [-1-], the pool
    being empty when it was created). *)
Definition pend (i : nat) : Pending := mkPending i (S i) 1 t true.

(** After [k] tasks on the pool [new WorkerPool(1, ..)] whose first worker
    is not online yet. *)
Definition grow_waiting (k : nat) : World Task Data :=
  mkWorld (mkPool 0 1 rl []) tm (Some (0, 0, 1))%nat (pend <$> seq 0 k)
    (mkThreads (S k) (seq 0 (S k)) [] []) k [] None.

Lemma grow_runs k : exec (init tm 1 rl) (replicate k (Run fm t true)) = Some (grow_waiting k).
Proof.
  induction k as [|k IH]; [reflexivity|].
  rewrite replicate_S_end, exec_app, IH. simpl.
  f_equal. unfold grow_waiting at 2. rewrite (seq_S (S k)), (seq_S k), fmap_app.
  unfold run, new_call, grow_waiting. cbn -[seq fmap].
  rewrite ?(seq_S k). reflexivity.
Qed.

Definition grown (k j : nat) s : Prop :=
  length (pool (this s)) = S j /\ poolSize (this s) = 1 /\ building s = None /\
  waiting s = pend <$> seq j (k - j) /\ live (threads s) = seq 0 (S k) /\ halted s = None.

Lemma grow_first k : exists s, exec (grow_waiting k) [Online 0 fm] = Some s /\ grown k 0 s.
Proof.
  eexists. split.
  - unfold exec. cbn [es_enabled rr_system enabled halted grow_waiting].
    rewrite bool_decide_true; [reflexivity|]. split; [by left|]. apply elem_of_seq. lia.
  - unfold grown. simpl. rewrite Nat.sub_0_r. done.
Qed.

Lemma grow_next k j s :
  (j < k)%nat -> grown k j s ->
  exec s [Online (S j) fm] = Some (online (S j) fm s) /\ grown k (S j) (online (S j) fm s).
Proof.
  intros Hj (Hp & Hn & Hb & Hw & Hl & Hh).
  replace (k - j)%nat with (S (k - S j)) in Hw by lia. simpl in Hw.
  split.
  - unfold exec. cbn [es_enabled es_step rr_system]. unfold enabled.
    rewrite Hh, bool_decide_true; [done|].
    unfold awaited. rewrite Hb, Hw, Hl. split; [by left|]. apply elem_of_seq. lia.
  - unfold online. rewrite Hb, Hw. simpl. rewrite decide_True by done.
    match goal with |- context [run_body ?c ?f ?tk ?ok ?s0] =>
      destruct (run_body_shape c f tk ok s0) as (H1 & H2 & H3 & H4 & H5 & H6) end.
    unfold grown. rewrite H1, H2, H3, H4, H5, H6. rr_simpl.
    rewrite length_app, Hp. simpl. split_and!; try done. lia.
Qed.

Lemma grow_rest k j s :
  (j <= k)%nat -> grown k j s ->
  exists s', exec s ((fun i => Online (S i) fm) <$> seq j (k - j)) = Some s' /\ grown k k s'.
Proof.
  remember (k - j)%nat as m eqn:Hm. induction m as [|m IH] in j, s, Hm |- *; intros Hj Hg.
  - exists s. split; [done|]. assert (k = j) as -> by lia. done.
  - destruct (grow_next k j s ltac:(lia) Hg) as [He Hg'].
    destruct (IH (S j) (online (S j) fm s) ltac:(lia) ltac:(lia) Hg') as (s' & He' & Hk).
    exists s'. split; [|done]. cbn [seq fmap list_fmap].
    apply exec_cons_inv in He as [Hen _]. by rewrite exec_cons.
Qed.

End Growth.

(** ** Properties of the round-robin pool *)

(** ** The memory check *)

Lemma checkMemCapacity_bounds total free :
  0 < total -> 0 <= free <= total -> 0 <= checkMemCapacity total free <= 100.
Proof.
  intros Ht Hf. unfold checkMemCapacity.
  rewrite MemGate.toFixed_ratio_nonneg by lia.
  pose proof (MemGate.round_half_up_nonneg (1000 * free) total Ht ltac:(lia)) as H0.
  pose proof (proj2 (MemGate.round_half_up_lt (1000 * free) total 1001 Ht ltac:(lia)) ltac:(lia))
    as H1.
  rewrite Z.quot_div_nonneg by lia.
  split; [apply Z.div_pos; lia|apply Z.div_le_upper_bound; lia].
Qed.

Section Properties.
Context {Task Data : Type} (tm n : Z) (rl : bool).

(** C32: when a worker answers, every [run] call listening on it at that
    moment resolves with this one answer, in the order the listeners were
    registered, with the log built from the pool as it is then; none of its
    listeners is left.  The calls whose tasks the worker has not processed
    yet get the reply of another task. *)
Theorem reply_resolves_every_listener s w d :
  reachable (init tm n rl : World Task Data) s ->
  settled (message w d s) = settled s ++ (reply d s <$> on_worker w s) /\
  listeners (threads (message w d s)) = filter (fun l => lw l <> w) (listeners (threads s)).
Proof.
  intros Hr. destruct (reachable_rr_wf tm n rl s Hr) as [Hc _ _].
  destruct (on_worker_facts w s Hc) as [Hnd Hs].
  by destruct (message_LS w d s Hnd Hs) as (th & _ & ->).
Qed.

(** C33: [workerIndex] always points into the pool (it is 0 while the pool
    is empty), so the destructuring of [this.pool[this.workerIndex]] in
    [run] never throws its [TypeError]: no call is ever rejected with it. *)
Theorem pool_index_never_undefined s :
  reachable (init tm n rl : World Task Data) s ->
  (halted s = None -> index_ok s) /\ forall c, (c, RErr ETypeError) ∉ settled s.
Proof. intros Hr. destruct (reachable_rr_wf tm n rl s Hr) as [_ Hi Ht]. by split. Qed.

(** C36: the memory check of the round-robin pool never gates a task:
    [checkMemCapacity] returns the free share of the total memory in whole
    percent, between 0 and 100, and the [throw] of its threshold test is
    commented out, so what [run] does to the pool, the calls waiting for a
    worker, the messages posted and the settled calls is the same whatever
    memory is free; the percentage only reaches the log. *)
Theorem memory_never_gates_run (s : World Task Data) total free fm1 fm2 t ok :
  0 < total -> 0 <= free <= total ->
  (0 <= checkMemCapacity total free <= 100) /\
  this (run fm1 t ok s) = this (run fm2 t ok s) /\
  waiting (run fm1 t ok s) = waiting (run fm2 t ok s) /\
  inflight (threads (run fm1 t ok s)) = inflight (threads (run fm2 t ok s)) /\
  settled (run fm1 t ok s) = settled (run fm2 t ok s).
Proof.
  intros Ht Hf. split; [by apply checkMemCapacity_bounds|].
  unfold run. simpl. case_bool_decide; [by split_and!|].
  unfold run_body. destruct (pool (this _) !! _) as [it|]; [|by split_and!].
  match goal with |- context [executeWorker it _ _ _ _ ?x] => generalize x; intros s1 end.
  unfold executeWorker. destruct ok.
  - rr_simpl. destruct (bool_decide (worker it ∈ live (threads s1))); by split_and!.
  - unfold settle. rr_simpl. destruct (bool_decide (next_call s ∈ (settled s1).*1)); by split_and!.
Qed.

End Properties.

(** C34: [poolSize] does not bound the pool: with [new WorkerPool(1, ..)],
    [k] tasks arriving before the first worker is online each add a worker
    of their own, and the pool ends with [k + 1] workers. *)
Theorem pool_outgrows_poolSize {Task Data : Type} (tm : Z) (rl : bool) (fm : Z) (t : Task) (k : nat) :
  exists s, reachable (init tm 1 rl : World Task Data) s /\
            poolSize (this s) = 1 /\ length (pool (this s)) = S k.
Proof.
  destruct (grow_first (Data := Data) tm rl fm t k) as (s0 & H0 & Hg0).
  destruct (grow_rest fm t k 0 s0 ltac:(lia) Hg0) as (s & Hs & Hk).
  exists s. split; [|by destruct Hk as (? & ? & _)].
  exists (replicate k (Run fm t true) ++ [Online 0 fm] ++
          ((fun i => Online (S i) fm) <$> seq 0 (k - 0))).
  rewrite exec_app, grow_runs. cbn [mbind option_bind]. rewrite exec_app, H0. exact Hs.
Qed.

(** C35: [run] on a non-empty pool hands the task to
    [pool[workerIndex]], registers a listener for its call there and posts
    the task to that worker, even when that worker already has five
    listeners pending: the listener count only moves [workerIndex] on for
    the next call. *)
Theorem run_posts_to_indexed_worker {Task Data : Type} (s : World Task Data) fm t it :
  pool (this s) !! workerIndex (this s) = Some it -> worker it ∈ live (threads s) ->
  listeners (threads (run fm t true s)) =
    listeners (threads s) ++
      [mkListener (worker it) (next_call s) (wid it) (checkMemCapacity (totalMem s) fm)] /\
  inflight (threads (run fm t true s)) = inflight (threads s) ++ [(worker it, t)] /\
  settled (run fm t true s) = settled s /\
  workerIndex (this (run fm t true s)) =
    (if bool_decide (5 <= length (on_worker (worker it) s))%nat
     then (if bool_decide (length (pool (this s)) <= S (workerIndex (this s)))%nat
           then 0%nat else S (workerIndex (this s)))
     else workerIndex (this s)).
Proof.
  intros Hit Hl. unfold run, new_call. cbv zeta.
  rewrite bool_decide_false by (intros Hp; simpl in Hp; rewrite Hp in Hit; done).
  unfold run_body. simpl (this _). rewrite Hit.
  case_bool_decide; unfold executeWorker, nextWorker; rr_simpl.
  all: rewrite (bool_decide_true (worker it ∈ _)) by done; cbn.
  all: repeat case_bool_decide; try done.
  all: exfalso; match goal with H : ¬ _ |- _ => apply H end; assumption.
Qed.

(** ** [terminateAllWorkers] and [nextWorker] *)

Section Loops.
Context {Task Data : Type}.
Implicit Types s : World Task Data.

Lemma terminateAll_loop_live n s x :
  x ∈ live (threads (terminateAll_loop n s)) -> x ∈ live (threads s).
Proof.
  induction n as [|n IH] in s |- *; [done|]. simpl.
  destruct (js_pop (pool (this s))) as [[it|] rest]; [|done].
  intros Hx%IH. rr_simpl. by apply list_elem_of_filter in Hx as [_ ?].
Qed.

Lemma terminateAll_loop_spec n s :
  (length (pool (this s)) <= n)%nat ->
  pool (this (terminateAll_loop n s)) = [] /\
  forall it, it ∈ pool (this s) -> worker it ∉ live (threads (terminateAll_loop n s)).
Proof.
  induction n as [|n IH] in s |- *; intros Hn.
  - destruct (pool (this s)) eqn:Hp; [|simpl in Hn; lia]. split; [done|].
    intros it Hit. by apply elem_of_nil in Hit.
  - simpl. destruct (js_pop (pool (this s))) as [[it|] rest] eqn:Hpop; last first.
    { apply js_pop_None in Hpop. rewrite Hpop. split; [done|].
      intros it Hit. by apply elem_of_nil in Hit. }
    apply js_pop_Some in Hpop. rewrite Hpop in Hn |- *. rewrite length_app in Hn. simpl in Hn.
    destruct (IH (terminate (worker it) (set_pool rest s))) as [Hp Hl]; [rr_simpl; lia|].
    split; [done|]. intros it' [Hit'|Hit'%list_elem_of_singleton]%elem_of_app; [by apply Hl|].
    subst it'. intros Hx%terminateAll_loop_live. rr_simpl.
    apply list_elem_of_filter in Hx as [Hne _]. by apply Hne.
Qed.

End Loops.

(** C38: the [while (this.pool.length > 0)] loop of [terminateAllWorkers]
    ends: after it the pool is empty and every worker it held has been
    terminated. *)
Theorem terminateAllWorkers_stops_every_worker {Task Data : Type} (s : World Task Data) :
  pool (this (terminateAllWorkers s)) = [] /\
  forall it, it ∈ pool (this s) -> worker it ∉ live (threads (terminateAllWorkers s)).
Proof. by apply terminateAll_loop_spec. Qed.

(** C39: [nextWorker] is the round-robin step: from an index inside the
    pool it moves to the next index modulo the pool length. *)
Theorem nextWorker_is_increment_mod {Task Data : Type} (s : World Task Data) :
  (workerIndex (this s) < length (pool (this s)))%nat ->
  workerIndex (this (nextWorker s)) = (S (workerIndex (this s)) mod length (pool (this s)))%nat.
Proof.
  intros Hlt. unfold nextWorker. rr_simpl. case_bool_decide.
  - replace (S (workerIndex (this s))) with (length (pool (this s))) by lia.
    by rewrite Nat.Div0.mod_same.
  - rewrite Nat.mod_small; lia.
Qed.

(** ** Concrete runs *)

Section Runs.
Local Notation W := (World Z Z).

(** [new WorkerPool(2, file, true)] on a machine of 1000 units of memory,
    both workers online. *)
Definition rr_init : W := init 1000 2 true.
Definition rr_online : list (Event Z Z) := [Online 0 500; Online 1 500].

(** Two tasks posted to worker 0 before it answers either. *)
Definition rr_two_events : list (Event Z Z) := rr_online ++ [Run 500 10 true; Run 500 11 true].
Definition rr_two : W := default rr_init (exec rr_init rr_two_events).

Definition rr_log : option Log := Some (mkLog 1 2 50).

(** Replies reach the wrong calls.  Tasks 10 and 11 both wait on
    worker 0; its first reply (100, the answer to task 10) resolves both
    calls, and its second reply (101, the answer to task 11) resolves the
    call of task 12, posted in between. *)
Example replies_reach_the_wrong_calls :
  (settled <$> exec rr_init (rr_online ++
     [Run 500 10 true; Run 500 11 true; Message 0 100; Run 500 12 true; Message 0 101])) =
  Some [(0%nat, ROk 100 rr_log); (1%nat, ROk 100 rr_log); (2%nat, ROk 101 rr_log)].
Proof. vm_compute. reflexivity. Qed.

(** Tasks pile up on one worker: with two idle workers, six tasks in a
    row are all posted to worker 0, the sixth after [workerIndex] has
    already moved to worker 1, which gets none. *)
Example tasks_pile_on_one_worker :
  ((fun s => (length (on_worker 0 s), length (on_worker 1 s), workerIndex (this s),
              (inflight (threads s)).*1))
     <$> exec rr_init (rr_online ++ replicate 6 (Run 500 7 true))) =
  Some (6%nat, 0%nat, 1%nat, replicate 6 0%nat).
Proof. vm_compute. reflexivity. Qed.

Lemma reply_resolves_every_listener_witness :
  reachable rr_init rr_two /\
  settled (message 0 100 rr_two) = [(0%nat, ROk 100 rr_log); (1%nat, ROk 100 rr_log)].
Proof.
  assert (H : reachable rr_init rr_two) by (exists rr_two_events; vm_compute; reflexivity).
  split; [exact H|].
  rewrite (proj1 (reply_resolves_every_listener 1000 2 true rr_two 0 100 H)).
  vm_compute. reflexivity.
Defined.

Lemma pool_index_never_undefined_witness :
  reachable rr_init rr_two /\ index_ok rr_two /\ (2%nat, RErr ETypeError) ∉ settled rr_two.
Proof.
  assert (H : reachable rr_init rr_two) by (exists rr_two_events; vm_compute; reflexivity).
  destruct (pool_index_never_undefined 1000 2 true rr_two H) as [Hi Ht].
  split_and!; [exact H|apply Hi; vm_compute; reflexivity|apply Ht].
Defined.

Lemma run_posts_to_indexed_worker_witness :
  pool (this rr_two) !! workerIndex (this rr_two) = Some (mkWorkerObject 1 0) /\
  0%nat ∈ live (threads rr_two) /\
  inflight (threads (run 500 12 true rr_two)) = inflight (threads rr_two) ++ [(0%nat, 12)].
Proof.
  assert (Hp : pool (this rr_two) !! workerIndex (this rr_two) = Some (mkWorkerObject 1 0))
    by (vm_compute; reflexivity).
  assert (Hl : 0%nat ∈ live (threads rr_two))
    by (apply (bool_decide_eq_true_1 _); vm_compute; reflexivity).
  split_and!; [exact Hp|exact Hl|].
  exact (proj1 (proj2 (run_posts_to_indexed_worker rr_two 500 12 (mkWorkerObject 1 0) Hp Hl))).
Defined.

Lemma pool_outgrows_poolSize_three :
  exists s, reachable (init 1000 1 true : W) s /\ poolSize (this s) = 1 /\ length (pool (this s)) = 3%nat.
Proof. exact (pool_outgrows_poolSize 1000 true 500 7 2). Defined.

Lemma nextWorker_is_increment_mod_witness :
  (workerIndex (this rr_two) < length (pool (this rr_two)))%nat /\
  workerIndex (this (nextWorker rr_two)) = 1%nat.
Proof.
  assert (H : (workerIndex (this rr_two) < length (pool (this rr_two)))%nat)
    by (apply (bool_decide_eq_true_1 _); vm_compute; reflexivity).
  split; [exact H|]. rewrite (nextWorker_is_increment_mod rr_two H). vm_compute. reflexivity.
Defined.

Definition rr_failed : W := workerError 0 rr_two.
Definition rr_after : list (Event Z Z) := [Run 500 12 true].

Lemma failed_worker_calls_hang_witness :
  exec rr_failed rr_after = Some (default rr_failed (exec rr_failed rr_after)) /\
  mkListener 0 0 1 50 ∈ listeners (threads (default rr_failed (exec rr_failed rr_after))) /\
  0%nat ∉ (settled (default rr_failed (exec rr_failed rr_after))).*1.
Proof.
  assert (H : reachable rr_init rr_two) by (exists rr_two_events; vm_compute; reflexivity).
  assert (Hex : exec rr_failed rr_after = Some (default rr_failed (exec rr_failed rr_after)))
    by (vm_compute; reflexivity).
  split; [exact Hex|].
  refine (failed_worker_calls_hang 1000 2 true rr_two 0 (mkListener 0 0 1 50) H _ _ rr_after _ Hex);
    [vm_compute; reflexivity|vm_compute; constructor].
Defined.

Lemma memory_never_gates_run_witness :
  (0 < 1000)%Z /\ (0 <= 500 <= 1000)%Z /\
  ((0 <= checkMemCapacity 1000 500 <= 100)%Z /\
   this (run 500 12 true rr_two) = this (run 10 12 true rr_two) /\
   waiting (run 500 12 true rr_two) = waiting (run 10 12 true rr_two) /\
   inflight (threads (run 500 12 true rr_two)) = inflight (threads (run 10 12 true rr_two)) /\
   settled (run 500 12 true rr_two) = settled (run 10 12 true rr_two)).
Proof.
  split; [lia|]. split; [lia|].
  exact (memory_never_gates_run rr_two 1000 500 500 10 12 true ltac:(lia) ltac:(lia)).
Defined.

End Runs.

End RoundRobin.
